(** * AI-Thinking-Frameworks: the reasoning engines and their runtime services

  A shallow embedding of the JavaScript sources

    - [src/utils/parser.js]          (output parsers)
    - [src/frameworks/llm.js]        (LLM client, ReAct engine, CoT aggregator)
    - [src/frameworks/tools.js]      (tool registry)
    - [src/frameworks/rewoo.js]      (ReWOO engine)
    - [src/frameworks/planExecute.js] (Plan-Execute engine)

  JavaScript strings are sequences of UTF-16 code units.  The embedding uses
  [string], whose characters are read as the code units below 256; every
  character class below is the restriction of the ECMAScript class to that
  range. *)

From Stdlib Require Import String Ascii List ZArith Lia Bool Arith QArith Permutation.
Import ListNotations.
Local Close Scope Q_scope.
Local Open Scope list_scope.
Local Open Scope string_scope.
Local Open Scope nat_scope.

(* ================================================================== *)
(** * ECMAScript strings                                                *)
(* ================================================================== *)

Module Js.

Definition code (c : ascii) : nat := nat_of_ascii c.

(** [\s], which is also what [String.prototype.trim] removes:
    TAB, LF, VT, FF, CR, SPACE and NBSP. *)
Definition isWhiteSpace (c : ascii) : bool :=
  let n := code c in
  ((9 <=? n) && (n <=? 13)) || (n =? 32) || (n =? 160).

(** Line terminators: LF and CR. *)
Definition isLineTerminator (c : ascii) : bool :=
  let n := code c in (n =? 10) || (n =? 13).

Definition isDigit (c : ascii) : bool :=
  let n := code c in (48 <=? n) && (n <=? 57).

Definition isUpper (c : ascii) : bool :=
  let n := code c in (65 <=? n) && (n <=? 90).

Definition isLower (c : ascii) : bool :=
  let n := code c in (97 <=? n) && (n <=? 122).

(** [\w] *)
Definition isWordChar (c : ascii) : bool :=
  isDigit c || isUpper c || isLower c || (code c =? 95).

(** [.] without the [s] flag *)
Definition isDot (c : ascii) : bool := negb (isLineTerminator c).

Definition lowerChar (c : ascii) : ascii :=
  let n := code c in
  if isUpper c then ascii_of_nat (n + 32)
  else if (192 <=? n) && (n <=? 222) && negb (n =? 215) then ascii_of_nat (n + 32)
  else c.

(** Canonicalize of the [i] flag (upper-casing that stays in one unit). *)
Definition upperChar (c : ascii) : ascii :=
  let n := code c in
  if isLower c then ascii_of_nat (n - 32)
  else if (224 <=? n) && (n <=? 254) && negb (n =? 247) then ascii_of_nat (n - 32)
  else c.

Definition chars (s : string) : list ascii := list_ascii_of_string s.
Definition str (l : list ascii) : string := string_of_list_ascii l.

Fixpoint dropWhile {A} (p : A -> bool) (l : list A) : list A :=
  match l with
  | [] => []
  | x :: t => if p x then dropWhile p t else l
  end.

Definition trimStart (s : string) : string := str (dropWhile isWhiteSpace (chars s)).
Definition trimEnd (s : string) : string :=
  str (rev (dropWhile isWhiteSpace (rev (chars s)))).
Definition trim (s : string) : string := trimEnd (trimStart s).

Definition toLowerCase (s : string) : string := str (map lowerChar (chars s)).

Fixpoint startsWithL (p l : list ascii) : bool :=
  match p, l with
  | [], _ => true
  | _ :: _, [] => false
  | a :: p', b :: l' => Ascii.eqb a b && startsWithL p' l'
  end.

Definition startsWith (s prefix : string) : bool := startsWithL (chars prefix) (chars s).

(** [s.includes(t)] *)
Fixpoint includesL (p l : list ascii) : bool :=
  startsWithL p l || match l with [] => false | _ :: t => includesL p t end.

Definition includes (s t : string) : bool := includesL (chars t) (chars s).

(** [a.join(sep)] *)
Fixpoint join (sep : string) (l : list string) : string :=
  match l with
  | [] => ""
  | [x] => x
  | x :: t => x ++ sep ++ join sep t
  end.

(** [s.split('\n')] *)
Fixpoint splitLinesL (cur : list ascii) (l : list ascii) : list string :=
  match l with
  | [] => [str (rev cur)]
  | c :: t => if (code c =? 10) then str (rev cur) :: splitLinesL [] t
              else splitLinesL (c :: cur) t
  end.

Definition splitLines (s : string) : list string := splitLinesL [] (chars s).

(** A string in a boolean context: only the empty string is falsy. *)
Definition truthy (s : string) : bool := negb (String.eqb s "").

(** [String(n)] / template interpolation of an integer. *)
Fixpoint digitsOf (fuel : nat) (n : nat) (acc : list ascii) : list ascii :=
  match fuel with
  | O => acc
  | S f =>
      let d := ascii_of_nat (48 + n mod 10) in
      if n <? 10 then d :: acc else digitsOf f (n / 10) (d :: acc)
  end.

Definition natToString (n : nat) : string := str (digitsOf (S n) n []).

Definition intToString (z : Z) : string :=
  if (z <? 0)%Z then "-" ++ natToString (Z.to_nat (- z)) else natToString (Z.to_nat z).

End Js.

(* ================================================================== *)
(** * Regular expressions (backtracking semantics of ECMAScript)        *)
(* ================================================================== *)

Module Regex.

Inductive re : Type :=
| Empty
| Char (c : ascii)                     (* a pattern character; follows the i flag *)
| Class (p : ascii -> bool)            (* \s \w \d . and bracket classes *)
| Seq (r1 r2 : re)
| Alt (r1 r2 : re)
| Star (greedy : bool) (r : re)        (* r* and r*? *)
| Group (i : nat) (r : re)             (* capturing group number i *)
| Bol                                  (* ^ *)
| Eol                                  (* $ *)
| WordB                                (* \b *)
| Ahead (r : re).                      (* (?=r) *)

Record Flags := { ignoreCase : bool; multiline : bool }.

Definition noFlags := {| ignoreCase := false; multiline := false |}.
Definition flagI := {| ignoreCase := true; multiline := false |}.
Definition flagM := {| ignoreCase := false; multiline := true |}.
Definition flagIM := {| ignoreCase := true; multiline := true |}.

(** Derived forms *)
Definition Plus (greedy : bool) (r : re) : re := Seq r (Star greedy r).
Definition Opt (r : re) : re := Alt r Empty.

Fixpoint Lit (l : list ascii) : re :=
  match l with
  | [] => Empty
  | c :: t => Seq (Char c) (Lit t)
  end.
Definition Str (s : string) : re := Lit (Js.chars s).

Fixpoint Seqs (l : list re) : re :=
  match l with
  | [] => Empty
  | [r] => r
  | r :: t => Seq r (Seqs t)
  end.

Fixpoint Alts (l : list re) : re :=
  match l with
  | [] => Empty
  | [r] => r
  | r :: t => Alt r (Alts t)
  end.

Definition oneOf (s : string) (c : ascii) : bool :=
  existsb (Ascii.eqb c) (Js.chars s).

(** A matcher state: the input before the cursor (nearest first), the input
    after it, and the captures made so far. *)
Record MState := {
  before : list ascii;
  after : list ascii;
  caps : list (nat * string)
}.

Definition pos (s : MState) : nat := length (before s).

Definition atBol (fl : Flags) (s : MState) : bool :=
  match before s with
  | [] => true
  | c :: _ => multiline fl && Js.isLineTerminator c
  end.

Definition atEol (fl : Flags) (s : MState) : bool :=
  match after s with
  | [] => true
  | c :: _ => multiline fl && Js.isLineTerminator c
  end.

Definition atWordB (s : MState) : bool :=
  let a := match before s with [] => false | c :: _ => Js.isWordChar c end in
  let b := match after s with [] => false | c :: _ => Js.isWordChar c end in
  negb (Bool.eqb a b).

Definition charEq (fl : Flags) (p c : ascii) : bool :=
  if ignoreCase fl then Ascii.eqb (Js.upperChar p) (Js.upperChar c)
  else Ascii.eqb p c.

Definition step (ok : ascii -> bool) (k : MState -> option MState) (s : MState)
  : option MState :=
  match after s with
  | c :: t =>
      if ok c then k {| before := c :: before s; after := t; caps := caps s |}
      else None
  | [] => None
  end.

Definition orElse {A} (a b : option A) : option A :=
  match a with Some _ => a | None => b end.

Definition setCap (i : nat) (v : string) (l : list (nat * string)) :=
  (i, v) :: filter (fun p => negb (fst p =? i)) l.

(** The text between two cursors of the same input. *)
Definition between (s s' : MState) : string :=
  Js.str (firstn (length (after s) - length (after s')) (after s)).

(** [m fl r k s]: match [r] at [s], then the continuation [k]; alternatives
    are tried in the order of the backtracking semantics.  An iteration of a
    star that consumes nothing is rejected, so the number of characters
    left bounds the iterations. *)
Fixpoint m (fl : Flags) (r : re) (k : MState -> option MState) (s : MState)
  : option MState :=
  match r with
  | Empty => k s
  | Char p => step (charEq fl p) k s
  | Class ok => step ok k s
  | Seq r1 r2 => m fl r1 (m fl r2 k) s
  | Alt r1 r2 => orElse (m fl r1 k s) (m fl r2 k s)
  | Star greedy r1 =>
      (fix loop (n : nat) (s : MState) {struct n} : option MState :=
         match n with
         | O => k s
         | S n' =>
             let again :=
               m fl r1 (fun s' => if length (after s') <? length (after s)
                                  then loop n' s' else None) s in
             if greedy then orElse again (k s) else orElse (k s) again
         end) (length (after s)) s
  | Group i r1 =>
      m fl r1 (fun s' => k {| before := before s'; after := after s';
                              caps := setCap i (between s s') (caps s') |}) s
  | Bol => if atBol fl s then k s else None
  | Eol => if atEol fl s then k s else None
  | WordB => if atWordB s then k s else None
  | Ahead r1 =>
      match m fl r1 Some s with
      | Some s' => k {| before := before s; after := after s; caps := caps s' |}
      | None => None
      end
  end.

(** A successful match: where it starts, what it covers, its captures. *)
Record Match := {
  index : nat;
  matched : string;
  groups : list (nat * string);
  rest : list ascii            (* the input after the match *)
}.

Definition matchAt (fl : Flags) (r : re) (s : MState) : option Match :=
  match m fl r Some {| before := before s; after := after s; caps := [] |} with
  | Some s' => Some {| index := pos s; matched := between s s';
                       groups := caps s'; rest := after s' |}
  | None => None
  end.

(** Try every start position from the cursor on, leftmost first. *)
Fixpoint search (fl : Flags) (r : re) (n : nat) (s : MState) : option Match :=
  match matchAt fl r s with
  | Some mt => Some mt
  | None =>
      match n, after s with
      | S n', c :: t =>
          search fl r n' {| before := c :: before s; after := t; caps := [] |}
      | _, _ => None
      end
  end.

Definition start (text : string) : MState :=
  {| before := []; after := Js.chars text; caps := [] |}.

(** [text.match(re)] / [re.exec(text)] without the [g] flag. *)
Definition exec (fl : Flags) (r : re) (text : string) : option Match :=
  search fl r (String.length text) (start text).

(** [re.test(text)] *)
Definition test (fl : Flags) (r : re) (text : string) : bool :=
  match exec fl r text with Some _ => true | None => false end.

(** Capture [i] of a match; a group that did not take part is [undefined]. *)
Definition group (i : nat) (mt : Match) : option string :=
  match find (fun p => fst p =? i) (groups mt) with
  | Some p => Some (snd p)
  | None => None
  end.

Definition group' (i : nat) (mt : Match) : string :=
  match group i mt with Some v => v | None => "" end.

(** [text.replace(re, by)] without the [g] flag, [by] free of [$]. *)
Definition replaceFirst (fl : Flags) (r : re) (by_ : string) (text : string) : string :=
  match exec fl r text with
  | Some mt =>
      Js.str (firstn (index mt) (Js.chars text)) ++ by_ ++ Js.str (rest mt)
  | None => text
  end.

(** [text.replace(re, by)] with the [g] flag: matches are taken left to
    right; after an empty match the cursor advances by one unit. *)
Fixpoint replaceAllFrom (fl : Flags) (r : re) (by_ : list ascii) (n : nat)
         (s : MState) : list ascii :=
  match n with
  | O => after s
  | S n' =>
      match m fl r Some {| before := before s; after := after s; caps := [] |} with
      | Some s' =>
          if length (after s') <? length (after s)
          then by_ ++ replaceAllFrom fl r by_ n'
                 {| before := before s'; after := after s'; caps := [] |}
          else
            match after s with
            | c :: t => by_ ++ c :: replaceAllFrom fl r by_ n'
                          {| before := c :: before s; after := t; caps := [] |}
            | [] => by_
            end
      | None =>
          match after s with
          | c :: t => c :: replaceAllFrom fl r by_ n'
                        {| before := c :: before s; after := t; caps := [] |}
          | [] => []
          end
      end
  end.

Definition replaceAll (fl : Flags) (r : re) (by_ : string) (text : string) : string :=
  Js.str (replaceAllFrom fl r (Js.chars by_) (S (String.length text)) (start text)).

(** All the matches of a [g] regular expression ([while (re.exec(text))]). *)
Fixpoint execAllFrom (fl : Flags) (r : re) (n : nat) (s : MState) : list Match :=
  match n with
  | O => []
  | S n' =>
      match search fl r (length (after s)) s with
      | None => []
      | Some mt =>
          let consumed := index mt + String.length (matched mt) - pos s in
          let s1 := {| before := rev (firstn consumed (after s)) ++ before s;
                       after := rest mt; caps := [] |} in
          if String.length (matched mt) =? 0 then
            match after s1 with
            | c :: t => mt :: execAllFrom fl r n'
                          {| before := c :: before s1; after := t; caps := [] |}
            | [] => [mt]
            end
          else mt :: execAllFrom fl r n' s1
      end
  end.

Definition execAll (fl : Flags) (r : re) (text : string) : list Match :=
  execAllFrom fl r (S (String.length text)) (start text).

End Regex.

(* ================================================================== *)
(** * Output parsers ([src/utils/parser.js])                            *)
(* ================================================================== *)

Module Parser.
Import Regex.

Definition nl : ascii := ascii_of_nat 10.

Definition ws : re := Class Js.isWhiteSpace.              (* \s *)
Definition word : re := Class Js.isWordChar.              (* \w *)
Definition digit : re := Class Js.isDigit.                (* \d *)
Definition dot : re := Class Js.isDot.                    (* .  *)
Definition any : re := Class (fun _ => true).             (* [\s\S] *)

(** A nullable string in a boolean context: [null] and [""] are falsy. *)
Definition falsy (a : option string) : bool :=
  match a with
  | None => true
  | Some s => negb (Js.truthy s)
  end.

(** [a || null] *)
Definition orNull (s : string) : option string :=
  if Js.truthy s then Some s else None.

(** JS: "/[Tt]he answer is\s+(.+?)\.?\s*$/m" *)
Definition reAnswerIs : re :=
  Seqs [Class (oneOf "Tt"); Str "he answer is"; Plus true ws;
        Group 1 (Plus false dot); Opt (Char "."); Star true ws; Eol].

(** JS: "/####\s*(.+)/" *)
Definition reHash : re :=
  Seqs [Str "####"; Star true ws; Group 1 (Plus true dot)].

(** JS: "/(?:therefore|thus|so|hence),?\s+(?:the answer is\s+)?(.+?)\.?\s*$/im" *)
Definition reConclusion : re :=
  Seqs [Alts [Str "therefore"; Str "thus"; Str "so"; Str "hence"];
        Opt (Char ","); Plus true ws;
        Opt (Seq (Str "the answer is") (Plus true ws));
        Group 1 (Plus false dot); Opt (Char "."); Star true ws; Eol].

(** JS: "/(?:final\s+)?answer:\s*(.+?)\.?\s*$/im" *)
Definition reAnswerLabel : re :=
  Seqs [Opt (Seq (Str "final") (Plus true ws)); Str "answer:"; Star true ws;
        Group 1 (Plus false dot); Opt (Char "."); Star true ws; Eol].

(** JS: "/\.?\s*[Tt]he answer is\s+.*$/" *)
Definition reEmbedded : re :=
  Seqs [Opt (Char "."); Star true ws; Class (oneOf "Tt"); Str "he answer is";
        Plus true ws; Star true dot; Eol].

(** JS: "/[.]+$/" *)
Definition reTrailingDots : re := Seq (Plus true (Class (oneOf "."))) Eol.

(** The four extraction attempts of [extractAnswer], in source order. *)
Definition matchAnswerIs (text : string) : option string :=
  match exec flagM reAnswerIs text with
  | Some mt => Some (Js.trim (replaceAll noFlags (Char ",") "" (group' 1 mt)))
  | None => None
  end.

Definition matchHash (text : string) : option string :=
  match exec noFlags reHash text with
  | Some mt => Some (Js.trim (group' 1 mt))
  | None => None
  end.

Definition matchConclusion (text : string) : option string :=
  match exec flagIM reConclusion text with
  | Some mt => Some (Js.trim (group' 1 mt))
  | None => None
  end.

Definition matchAnswerLabel (text : string) : option string :=
  match exec flagIM reAnswerLabel text with
  | Some mt => Some (Js.trim (group' 1 mt))
  | None => None
  end.

(** [if (!answer) { const m = ...; if (m) answer = ... }] *)
Definition unlessSet (answer : option string) (attempt : option string) : option string :=
  if falsy answer then
    match attempt with
    | Some a => Some a
    | None => answer
    end
  else answer.

(** The clean-up that ends [extractAnswer]. *)
Definition cleanAnswer (answer : string) : option string :=
  let answer := Js.trim (replaceFirst noFlags reEmbedded "" answer) in
  let answer := Js.trim (replaceFirst noFlags reTrailingDots "" answer) in
  orNull answer.

Definition extractAnswer (text : string) : option string :=
  if negb (Js.truthy text) then None
  else
    let answer := None in
    let answer := match matchAnswerIs text with Some a => Some a | None => answer end in
    let answer := unlessSet answer (matchHash text) in
    let answer := unlessSet answer (matchConclusion text) in
    let answer := unlessSet answer (matchAnswerLabel text) in
    match answer with
    | None => None
    | Some a => if Js.truthy a then cleanAnswer a else None
    end.

Record Action := { actionName : string; actionInput : string }.

(** JS: "/^Action:\s*(\w+):\s*([\s\S]*?)(?=\nPAUSE|\n*$)/m" *)
Definition reAction : re :=
  Seqs [Bol; Str "Action:"; Star true ws; Group 1 (Plus true word); Char ":";
        Star true ws; Group 2 (Star false any);
        Ahead (Alt (Seq (Char nl) (Str "PAUSE")) (Seq (Star true (Char nl)) Eol))].

Definition parseReActAction (text : string) : option Action :=
  match exec flagM reAction text with
  | Some mt => Some {| actionName := Js.trim (group' 1 mt);
                       actionInput := Js.trim (group' 2 mt) |}
  | None => None
  end.

(** JS: "/Answer:\s*([\s\S]* )/" (no blank in the source) *)
Definition reReActAnswer : re :=
  Seqs [Str "Answer:"; Star true ws; Group 1 (Star true any)].

Definition parseReActAnswer (text : string) : option string :=
  match exec noFlags reReActAnswer text with
  | Some mt => Some (Js.trim (group' 1 mt))
  | None => None
  end.

Record PlanStep := {
  description : string;
  variable : string;
  tool : string;
  toolInput : string
}.

(** JS: "/Plan:\s*(.+?)\s*(#E\d+)\s*=\s*(\w+)\s*\[([^\]]+)\]/g" *)
Definition reStrictPlan : re :=
  Seqs [Str "Plan:"; Star true ws; Group 1 (Plus false dot); Star true ws;
        Group 2 (Seq (Str "#E") (Plus true digit)); Star true ws; Char "=";
        Star true ws; Group 3 (Plus true word); Star true ws; Char "[";
        Group 4 (Plus true (Class (fun c => negb (oneOf "]" c)))); Char "]"].

(** JS: "/(#E\d+)\s*=\s*(\w+)\s*\[([^\]]+)\]/g" *)
Definition reLoosePlan : re :=
  Seqs [Group 1 (Seq (Str "#E") (Plus true digit)); Star true ws; Char "=";
        Star true ws; Group 2 (Plus true word); Star true ws; Char "[";
        Group 3 (Plus true (Class (fun c => negb (oneOf "]" c)))); Char "]"].

(** JS: "/^(?:Plan:|Step\s*\d+[.):]* )\s*/i" (no blank in the source) *)
Definition reStepMarker : re :=
  Seqs [Bol;
        Alt (Str "Plan:")
            (Seqs [Str "Step"; Star true ws; Plus true digit;
                   Star true (Class (oneOf ".):"))]);
        Star true ws].

(** [before.split('\n').pop()] *)
Definition lastLine (s : string) : string := last (Js.splitLines s) "".

Definition looseDescription (text : string) (mt : Match) : string :=
  let before := Js.str (firstn (index mt) (Js.chars text)) in
  let lastLine := Js.trim (lastLine before) in
  let desc := Js.trim (replaceFirst flagI reStepMarker "" lastLine) in
  if Js.truthy desc then desc else "Step".

Definition parseReWOOPlan (text : string) : list PlanStep :=
  let steps :=
    map (fun mt => {| description := Js.trim (group' 1 mt);
                      variable := group' 2 mt;
                      tool := group' 3 mt;
                      toolInput := group' 4 mt |})
        (execAll noFlags reStrictPlan text) in
  if 0 <? length steps then steps
  else
    map (fun mt => {| description := looseDescription text mt;
                      variable := group' 1 mt;
                      tool := group' 2 mt;
                      toolInput := group' 3 mt |})
        (execAll noFlags reLoosePlan text).

(** JS: "/^\s*\d+[.)]\s*(.+)/" *)
Definition reNumbered : re :=
  Seqs [Bol; Star true ws; Plus true digit; Class (oneOf ".)"); Star true ws;
        Group 1 (Plus true dot)].

(** JS: "/^\s*[-*]\s+(.+)/" *)
Definition reBullet : re :=
  Seqs [Bol; Star true ws; Class (oneOf "-*"); Plus true ws; Group 1 (Plus true dot)].

(** [for (const line of lines) { const m = line.match(re); if (m) steps.push(m[1].trim()) }] *)
Fixpoint collectSteps (r : re) (lines : list string) : list string :=
  match lines with
  | [] => []
  | line :: t =>
      match exec noFlags r line with
      | Some mt => Js.trim (group' 1 mt) :: collectSteps r t
      | None => collectSteps r t
      end
  end.

Definition parsePlanSteps (text : string) : list string :=
  let lines := Js.splitLines text in
  let steps := collectSteps reNumbered lines in
  if 0 <? length steps then steps
  else collectSteps reBullet lines.

(** JS: "/Thought:\s*(.+)/" *)
Definition reThought : re :=
  Seqs [Str "Thought:"; Star true ws; Group 1 (Plus true dot)].

Definition parseReActThought (text : string) : option string :=
  match exec noFlags reThought text with
  | Some mt => Some (Js.trim (group' 1 mt))
  | None => None
  end.

End Parser.

(* ================================================================== *)
(** * Effects: thrown values, the network, virtual time                *)
(* ================================================================== *)

Module Eff.

(** A thrown value, seen through its [name] and [message]. *)
Inductive Exn : Type :=
| JsError (name message : string)
| ThrownUndefined.

Definition Error (msg : string) : Exn := JsError "Error" msg.
Definition TypeError (msg : string) : Exn := JsError "TypeError" msg.
Definition SyntaxError (msg : string) : Exn := JsError "SyntaxError" msg.
(** [new DOMException('The operation was aborted.', 'AbortError')] *)
Definition AbortError : Exn := JsError "AbortError" "The operation was aborted.".

(** [e.name] and [e.message] of an error object.  The value [undefined]
    has no fields: the code throws a TypeError where it reads one of them, and
    the empty string only stands in for it here. *)
Definition exnName (e : Exn) : string :=
  match e with JsError n _ => n | ThrownUndefined => "" end.
Definition exnMessage (e : Exn) : string :=
  match e with JsError _ m => m | ThrownUndefined => "" end.

(** An [AbortSignal]: the instant (in virtual milliseconds) at which its
    controller aborts, if it ever does. *)
Record AbortSignal := { abortsAt : option Z }.

Record Usage := { prompt_tokens : Z; completion_tokens : Z; total_tokens : Z }.

Record Message := { role : string; content : string }.

(** The body posted to [/api/chat]. *)
Record ChatRequest := {
  reqApiKey : string;
  reqModel : string;
  reqMessages : list Message;
  reqTemperature : Q;
  reqMaxTokens : Z
}.

(** The parsed body of a chat completion, as far as [callLLM] reads it:
    [data.choices?.[0]], its [message], and [data.usage]. *)
Record ChatMessage := { msgContent : string }.
Record ChatChoice := { message : option ChatMessage; finish_reason : string }.
Record ChatData := { choice0 : option ChatChoice; data_usage : option Usage }.

(** What [response.json()] yields. *)
Inductive Payload (B : Type) : Type :=
| Parsed (b : B)                          (* a body of the expected shape *)
| ErrorBody (msg : option string)         (* [{error: {message}}] or an object without the fields read *)
| Unparseable.                            (* [json()] rejects *)
Arguments Parsed {B} b.
Arguments ErrorBody {B} msg.
Arguments Unparseable {B}.

Record Response (B : Type) := { ok : bool; status : Z; payload : Payload B }.
Arguments ok {B} r.
Arguments status {B} r.
Arguments payload {B} r.

Inductive FetchOutcome (B : Type) : Type :=
| Rejects (e : Exn)                       (* [fetch] throws *)
| Responds (r : Response B).
Arguments Rejects {B} e.
Arguments Responds {B} r.

(** One scripted network exchange: how long it takes and how it ends. *)
Record NetReply (B : Type) := { took : Z; outcome : FetchOutcome B }.
Arguments took {B} n.
Arguments outcome {B} n.

Record WikiHit := { title : string; snippet : string }.

(** What [new Function(src)()] does, stringified: a value or a throw. *)
Inductive Completion : Type :=
| Returns (shown : string)                (* [String(result)] *)
| Throws (msg : string).                  (* [e.message] *)

Inductive Event : Type :=
| Requested (n : nat) (what : string)     (* the n-th network request was issued *)
| Slept (asked actual : Z)                (* a back-off wait *)
| Warned (msg : string)                   (* console.warn *)
| Progress (phase : string) (data : list string).  (* onStep / onProgress *)

(** The scripted environment of a run: what the network peers answer to
    the n-th request, what evaluating a function body gives, how a date
    prints. *)
Record Env := {
  chatApi : nat -> ChatRequest -> NetReply ChatData;
  wikiSearchApi : nat -> string -> NetReply (list WikiHit);
  wikiSummaryApi : nat -> string -> NetReply (option string);
  webSearchApi : nat -> string -> string -> NetReply (option string);
  evalFunction : string -> Completion;
  dateText : Z -> string
}.

(** The state of a run: virtual time in ms, requests issued, what was
    observable. *)
Record State := {
  now : Z;
  fetches : nat;
  log : list Event
}.

Inductive Outcome (A : Type) : Type :=
| Ok (a : A)
| Throw (e : Exn).
Arguments Ok {A} a.
Arguments Throw {A} e.

(** Asynchronous code run to completion: a resolved or rejected promise and
    the state it leaves. *)
Definition M (A : Type) : Type := Env -> State -> Outcome A * State.

Definition ret {A} (a : A) : M A := fun _ s => (Ok a, s).
Definition throw {A} (e : Exn) : M A := fun _ s => (Throw e, s).
Definition bind {A B} (c : M A) (k : A -> M B) : M B :=
  fun env s => match c env s with
               | (Ok a, s') => k a env s'
               | (Throw e, s') => (Throw e, s')
               end.
(** The completion of [c] as a value: what a [catch] clause receives. *)
Definition caught {A} (c : M A) : M (Exn + A) :=
  fun env s => match c env s with
               | (Ok a, s') => (Ok (inr a), s')
               | (Throw e, s') => (Ok (inl e), s')
               end.

(** [Date.now()] *)
Definition dateNow : M Z := fun _ s => (Ok (now s), s).

Definition emit (e : Event) : M unit :=
  fun _ s => (Ok tt, {| now := now s; fetches := fetches s; log := log s ++ [e] |}).
Definition warn (msg : string) : M unit := emit (Warned msg).
Definition onStep (phase : string) (data : list string) : M unit :=
  emit (Progress phase data).

(** [signal?.aborted] *)
Definition abortedAt (signal : option AbortSignal) (t0 : Z) : bool :=
  match signal with
  | Some sg => match abortsAt sg with
               | Some t => (t <=? t0)%Z
               | None => false
               end
  | None => false
  end.

Definition aborted (signal : option AbortSignal) : M bool :=
  fun _ s => (Ok (abortedAt signal (now s)), s).

(** A network exchange with the scripted peer [api]. *)
Definition exchange {R B} (api : Env -> nat -> R -> NetReply B) (what : string)
           (req : R) : M (Response B) :=
  fun env s =>
    let r := api env (fetches s) req in
    let s' := {| now := (now s + took r)%Z; fetches := S (fetches s);
                 log := log s ++ [Requested (fetches s) what] |} in
    match outcome r with
    | Rejects e => (Throw e, s')
    | Responds resp => (Ok resp, s')
    end.

End Eff.

Notation "x <- c ;; k" := (Eff.bind c (fun x => k))
  (at level 61, c at next level, right associativity).
Notation "c ;;; k" := (Eff.bind c (fun _ => k))
  (at level 61, right associativity).

(* ================================================================== *)
(** * The LLM client ([src/frameworks/llm.js], [callLLM])               *)
(* ================================================================== *)

Module Llm.
Import Eff.

Definition RETRYABLE_STATUSES : list Z := [429; 500; 502; 503; 504]%Z.
Definition MAX_RETRIES : nat := 3.
Definition BASE_DELAY_MS : Z := 1000.

Record Options := {
  apiKey : string;                 (* [""] stands for a missing key *)
  model : string;
  temperature : Q;
  maxTokens : Z;
  signal : option AbortSignal
}.

Record LLMResult := {
  content : string;
  finishReason : string;
  usage : Usage
}.

Definition zeroUsage : Usage :=
  {| prompt_tokens := 0; completion_tokens := 0; total_tokens := 0 |}.

Definition retryable (st : Z) : bool := existsb (Z.eqb st) RETRYABLE_STATUSES.

(** [BASE_DELAY_MS * Math.pow(2, attempt - 1)] *)
Definition backoffDelay (attempt : nat) : Z :=
  (BASE_DELAY_MS * 2 ^ (Z.of_nat attempt - 1))%Z.

(** The promise of the back-off: a timer of [delay] ms that an abort of the
    signal resolves early. *)
Definition wakeTime (signal : option AbortSignal) (t0 delay : Z) : Z :=
  let due := (t0 + delay)%Z in
  match signal with
  | Some sg =>
      match abortsAt sg with
      | Some t => if ((t0 <? t) && (t <? due))%Z then t else due
      | None => due
      end
  | None => due
  end.

Definition backoffWait (signal : option AbortSignal) (delay : Z) : M unit :=
  fun _ s =>
    let wake := wakeTime signal (now s) delay in
    (Ok tt, {| now := wake; fetches := fetches s;
               log := log s ++ [Slept delay (wake - now s)%Z] |}).

Definition chatRequest (messages : list Message) (o : Options) : ChatRequest :=
  {| reqApiKey := apiKey o; reqModel := model o; reqMessages := messages;
     reqTemperature := temperature o; reqMaxTokens := maxTokens o |}.

(** [if (response.ok) { ... }] *)
Definition readCompletion (o : Options) (response : Response ChatData) : M LLMResult :=
  match payload response with
  | Unparseable => throw (SyntaxError "Unexpected token in JSON")
  | ErrorBody _ => throw (Error "No completion returned from API")
  | Parsed data =>
      match choice0 data with
      | None => throw (Error "No completion returned from API")
      | Some choice =>
          match message choice with
          | None => throw (Error "No completion returned from API")
          | Some msg =>
              (if String.eqb (finish_reason choice) "length"
               then warn ("LLM response truncated (finish_reason=length) for model "
                            ++ model o)
               else ret tt) ;;;
              ret {| content := msgContent msg;
                     finishReason := finish_reason choice;
                     usage := match data_usage data with
                              | Some u => u
                              | None => zeroUsage
                              end |}
          end
      end
  end.

(** [err.error?.message || `LLM API error: ${response.status}`] *)
Definition apiErrorMessage (response : Response ChatData) : string :=
  let generic := "LLM API error: " ++ Js.intToString (status response) in
  match payload response with
  | ErrorBody (Some msg) => if Js.truthy msg then msg else generic
  | _ => generic
  end.

Definition retryError (st : Z) (attempt : nat) : Exn :=
  Error ("LLM API error: " ++ Js.intToString st ++ " (attempt "
           ++ Js.natToString (attempt + 1) ++ "/" ++ Js.natToString (MAX_RETRIES + 1) ++ ")").

(** The [for] loop of [callLLM], entered at iteration [attempt] with [left]
    iterations to go ([left = MAX_RETRIES + 1 - attempt]). *)
Fixpoint attemptsFrom (left attempt : nat) (lastError : Exn)
         (messages : list Message) (o : Options) {struct left} : M LLMResult :=
  match left with
  | O => throw lastError
  | S left' =>
      a <- aborted (signal o) ;;
      if a : bool then throw AbortError
      else
        (if 0 <? attempt then
           backoffWait (signal o) (backoffDelay attempt) ;;;
           a <- aborted (signal o) ;;
           if a : bool then throw AbortError else ret tt
         else ret tt) ;;;
        r <- caught (exchange chatApi "/api/chat" (chatRequest messages o)) ;;
        match r with
        | inl fetchErr =>
            if String.eqb (exnName fetchErr) "AbortError" then throw fetchErr
            else if attempt <? MAX_RETRIES
                 then attemptsFrom left' (S attempt) fetchErr messages o
                 else throw fetchErr
        | inr response =>
            if ok response then readCompletion o response
            else if negb (retryable (status response))
                 then throw (Error (apiErrorMessage response))
                 else
                   let lastError := retryError (status response) attempt in
                   (if attempt <? MAX_RETRIES then
                      warn ("LLM call failed (" ++ Js.intToString (status response)
                              ++ "), retrying in "
                              ++ Js.intToString (BASE_DELAY_MS * 2 ^ Z.of_nat attempt)%Z
                              ++ "ms...")
                    else ret tt) ;;;
                   attemptsFrom left' (S attempt) lastError messages o
        end
  end.

Definition callLLM (messages : list Message) (o : Options) : M LLMResult :=
  attemptsFrom (MAX_RETRIES + 1) 0 ThrownUndefined messages o.

End Llm.

(* ================================================================== *)
(** * Ordinary objects used as maps                                     *)
(* ================================================================== *)

Module JsObj.

(** The property names every object literal inherits from
    [Object.prototype]. *)
Definition protoKeys : list string :=
  ["constructor"; "__defineGetter__"; "__defineSetter__"; "hasOwnProperty";
   "__lookupGetter__"; "__lookupSetter__"; "isPrototypeOf";
   "propertyIsEnumerable"; "toString"; "valueOf"; "__proto__"; "toLocaleString"].

Definition inherited (k : string) : bool := existsb (String.eqb k) protoKeys.

(** [String(x)] of a member of Object.prototype. *)
Definition inheritedText (k : string) : string :=
  if String.eqb k "__proto__" then "[object Object]"
  else if String.eqb k "constructor" then "function Object() { [native code] }"
  else "function " ++ k ++ "() { [native code] }".

(** The own properties, in the order of their creation. *)
Definition t (V : Type) : Type := list (string * V).

Inductive Lookup (V : Type) : Type :=
| Own (v : V)          (* an own property *)
| Inherited            (* a member of Object.prototype: truthy, not a [V] *)
| Undefined.
Arguments Own {V} v.
Arguments Inherited {V}.
Arguments Undefined {V}.

Fixpoint own {V} (o : t V) (k : string) : option V :=
  match o with
  | [] => None
  | (k', v) :: r => if String.eqb k k' then Some v else own r k
  end.

(** [o[k]] *)
Definition get {V} (o : t V) (k : string) : Lookup V :=
  match own o k with
  | Some v => Own v
  | None => if inherited k then Inherited else Undefined
  end.

Fixpoint update {V} (o : t V) (k : string) (v : V) : t V :=
  match o with
  | [] => [(k, v)]
  | (k', v') :: r => if String.eqb k k' then (k', v) :: r else (k', v') :: update r k v
  end.

(** [o[k] = v]: the name [__proto__] is an accessor and makes no own property. *)
Definition set {V} (o : t V) (k : string) (v : V) : t V :=
  if String.eqb k "__proto__" then o else update o k v.

Fixpoint digitsValue (l : list ascii) (acc : N) : N :=
  match l with
  | [] => acc
  | c :: r => digitsValue r (acc * 10 + N.of_nat (Js.code c - 48))%N
  end.

(** An array index: a canonical decimal numeral below [2^32 - 1]. *)
Definition arrayIndex (k : string) : option N :=
  match Js.chars k with
  | [] => None
  | c :: r =>
      if forallb Js.isDigit (c :: r)
         && (negb (Js.code c =? 48) || (length r =? 0))
         && (length (c :: r) <=? 10)
      then let n := digitsValue (c :: r) 0 in
           if (n <? 4294967295)%N then Some n else None
      else None
  end.

Fixpoint insertByIndex {V} (n : N) (e : string * V) (l : list (N * (string * V)))
  : list (N * (string * V)) :=
  match l with
  | [] => [(n, e)]
  | (n', e') :: r => if (n <? n')%N then (n, e) :: l else (n', e') :: insertByIndex n e r
  end.

Fixpoint indexed {V} (o : t V) : list (N * (string * V)) :=
  match o with
  | [] => []
  | (k, v) :: r =>
      match arrayIndex k with
      | Some n => insertByIndex n (k, v) (indexed r)
      | None => indexed r
      end
  end.

Definition named {V} (o : t V) : t V :=
  filter (fun e => match arrayIndex (fst e) with Some _ => false | None => true end) o.

(** [Object.entries(o)]: array indices in ascending order, then the other
    names in creation order. *)
Definition entries {V} (o : t V) : list (string * V) :=
  map snd (indexed o) ++ named o.

(** [Object.keys(o)] *)
Definition keys {V} (o : t V) : list string := map fst (entries o).

End JsObj.

(* ================================================================== *)
(** * The tool registry ([src/frameworks/tools.js])                     *)
(* ================================================================== *)

Module Tools.
Import Eff.

(** The double-quote character. *)
Definition dq : string := String (ascii_of_nat 34) "".
Definition nl : string := String (ascii_of_nat 10) "".

(** JS: "/<[^>]*>/g" *)
Definition reTag : Regex.re :=
  Regex.Seqs [Regex.Char "<";
              Regex.Star true (Regex.Class (fun c => negb (Regex.oneOf ">" c)));
              Regex.Char ">"].

Definition slice0 (n : nat) (s : string) : string := Js.str (firstn n (Js.chars s)).

Definition wikipedia (query : string) : M string :=
  res <- exchange wikiSearchApi "wikipedia search" query ;;
  data <- match payload res with
          | Parsed hits => ret hits
          | ErrorBody _ => ret []
          | Unparseable => throw (SyntaxError "Unexpected token in JSON")
          end ;;
  let results : list WikiHit := data in
  match results with
  | [] => ret "No Wikipedia results found."
  | top :: _ =>
      let snippets :=
        Js.join (nl ++ nl)
                (map (fun r => Regex.replaceAll Regex.noFlags reTag "" (snippet r)) results) in
      let topTitle := title top in
      r <- caught
             (sumRes <- exchange wikiSummaryApi "wikipedia summary" topTitle ;;
              match payload sumRes with
              | Parsed extract => ret extract
              | ErrorBody _ => ret None
              | Unparseable => throw (SyntaxError "Unexpected token in JSON")
              end) ;;
      match r with
      | inr (Some extract) =>
          if Js.truthy extract && (20 <? String.length extract)
          then ret ("Summary of " ++ dq ++ topTitle ++ dq ++ ":" ++ nl
                      ++ slice0 800 extract ++ nl ++ nl ++ "---" ++ nl
                      ++ "Search snippets:" ++ nl ++ snippets)
          else ret snippets
      | inr None => ret snippets
      | inl err =>
          warn ("Wikipedia summary fetch failed: " ++ exnMessage err) ;;;
          ret snippets
      end
  end.

(** A [return wikipedia(query)] inside the [try] hands the promise over
    without awaiting it, so its rejection is not caught there: the fall-backs
    are taken after the protected part. *)
Definition openaiWebSearch (query apiKey : string) : M string :=
  if negb (Js.truthy apiKey) then
    warn "openaiWebSearch called without apiKey, falling back to Wikipedia" ;;;
    wikipedia query
  else
    r <- caught
           (response <- exchange (fun env n q => webSearchApi env n apiKey q)
                                 "openai web search" query ;;
            if negb (ok response) then
              warn ("OpenAI web search failed (" ++ Js.intToString (status response)
                      ++ "): "
                      ++ match payload response with
                         | ErrorBody (Some msg) =>
                             if Js.truthy msg then msg else "Unknown error"
                         | _ => "Unknown error"
                         end) ;;;
              ret None
            else
              match payload response with
              | Unparseable => throw (SyntaxError "Unexpected token in JSON")
              | ErrorBody _ => ret None
              | Parsed None => ret None
              | Parsed (Some content) =>
                  if Js.truthy content then ret (Some content) else ret None
              end) ;;
    match r with
    | inr (Some content) => ret content
    | inr None => wikipedia query
    | inl err =>
        warn ("OpenAI web search failed: " ++ exnMessage err) ;;;
        wikipedia query
    end.

(** The class [0-9+\-*/().%\s] of the calculator. *)
Definition allowedChar (c : ascii) : bool :=
  Js.isDigit c || Regex.oneOf "+-*/().%" c || Js.isWhiteSpace c.

Definition disallowedMessage : string :=
  "Error: expression contains disallowed characters. Only numbers and +-*/().% are allowed.".

(** [evalFunction] stands for [new Function(src)()] followed by [String]. *)
Definition calculate (evalFunction : string -> Completion) (expression : string) : string :=
  let sanitized :=
    Regex.replaceAll Regex.noFlags (Regex.Class (fun c => negb (allowedChar c))) ""
                     expression in
  if negb (String.eqb sanitized (Js.trim expression)) then disallowedMessage
  else
    match evalFunction (dq ++ "use strict" ++ dq ++ "; return (" ++ sanitized ++ ")") with
    | Returns result => result
    | Throws msg => "Calculation error: " ++ msg
    end.

Definition currentDatetime : M string := fun env s => (Ok (dateText env (now s)), s).

Record Tool := {
  name : string;
  description : string;
  execute : string -> string -> M string     (* input, apiKey *)
}.

Definition webSearchDescription : string :=
  "Search the web for current, real-world information. Returns comprehensive results from across the internet. Input: a search query string.".

Definition datetimeDescription : string :=
  "Get the current date and time (UTC and local). Input: ignored (no input required).".

Definition toolRegistry : JsObj.t Tool :=
  [ ("wikipedia",
     {| name := "wikipedia";
        description := "Search Wikipedia for information with article summaries. Input: a search query string.";
        execute := fun input _ => wikipedia input |});
    ("search",
     {| name := "search"; description := webSearchDescription;
        execute := fun input apiKey => openaiWebSearch input apiKey |});
    ("websearch",
     {| name := "websearch"; description := webSearchDescription;
        execute := fun input apiKey => openaiWebSearch input apiKey |});
    ("calculate",
     {| name := "calculate";
        description := "Evaluate a math expression. Input: a math expression like "
                         ++ dq ++ "4 * 7 / 3" ++ dq
                         ++ ". Only numbers and basic operators allowed.";
        execute := fun input _ => fun env s => (Ok (calculate (evalFunction env) input), s) |});
    ("current_datetime",
     {| name := "current_datetime"; description := datetimeDescription;
        execute := fun _ _ => currentDatetime |});
    ("datetime",
     {| name := "datetime"; description := datetimeDescription;
        execute := fun _ _ => currentDatetime |}) ].

(** [Object.values(toolRegistry).filter(unseen description)] *)
Fixpoint uniqueTools (seen : list string) (l : list Tool) : list Tool :=
  match l with
  | [] => []
  | t :: r =>
      if existsb (String.eqb (description t)) seen then uniqueTools seen r
      else t :: uniqueTools (description t :: seen) r
  end.

Definition getToolDescriptions : string :=
  Js.join nl (map (fun t => name t ++ ": " ++ description t)
                  (uniqueTools [] (map snd (JsObj.entries toolRegistry)))).

Definition unknownToolMessage (name : string) : string :=
  "Error: Unknown tool " ++ dq ++ name ++ dq ++ ". Available tools: "
    ++ Js.join ", " (JsObj.keys toolRegistry).

Definition executeTool (name input apiKey : string) : M string :=
  match JsObj.get toolRegistry (Js.toLowerCase name) with
  | JsObj.Undefined => ret (unknownToolMessage name)
  | JsObj.Inherited => throw (TypeError "tool.execute is not a function")
  | JsObj.Own tool => execute tool input apiKey
  end.

End Tools.

(* ================================================================== *)
(** * Usage aggregation ([src/utils/tokenCounter.js])                   *)
(* ================================================================== *)

Module TokenCounter.
Import Eff.

(** [usageArray.reduce(...)].  The counts are added as integers, an absent
    count being 0, as [|| 0] reads it; the additions of the code, made on
    doubles, give the same sums as long as these stay within 2^53. *)
Definition sumUsage (usageArray : list Usage) : Usage :=
  fold_left
    (fun acc u =>
       {| prompt_tokens := (prompt_tokens acc + prompt_tokens u)%Z;
          completion_tokens := (completion_tokens acc + completion_tokens u)%Z;
          total_tokens := (total_tokens acc + total_tokens u)%Z |})
    usageArray
    {| prompt_tokens := 0; completion_tokens := 0; total_tokens := 0 |}.

(** [if (!text) return 0; return Math.ceil(text.length / 4)] *)
Definition estimateTokens (text : string) : nat :=
  if negb (Js.truthy text) then 0 else (String.length text + 3) / 4.

End TokenCounter.

(* ================================================================== *)
(** * The question classifier ([src/utils/questionClassifier.js])       *)
(* ================================================================== *)

Module Classifier.
Import Eff.
Import Regex.

Inductive QuestionType : Type := Factual | OpenEnded.

Definition ws : re := Class Js.isWhiteSpace.
Definition word : re := Class Js.isWordChar.
Definition digit : re := Class Js.isDigit.
Definition dot : re := Class Js.isDot.
Definition words (l : list string) : re := Alts (map Str l).

Definition reImperative : re :=
  Seqs [Bol;
        Group 1 (words ["plan"; "design"; "create"; "write"; "draft"; "compose";
                        "build"; "develop"; "outline"; "suggest"; "recommend";
                        "describe"; "explain"; "compare"; "analyze"; "evaluate";
                        "propose"; "brainstorm"; "generate"; "list"; "organize";
                        "prepare"; "arrange"; "schedule"; "help"; "give"; "tell";
                        "show"; "make"; "provide"]);
        WordB].

Definition reFactualRequest : re :=
  Seqs [Bol; Group 1 (words ["give"; "tell"; "show"; "provide"]); WordB;
        Star true dot; WordB;
        Group 2 (words ["number"; "count"; "name"; "date"; "year"; "capital";
                        "population"; "answer"; "result"; "value"; "price";
                        "cost of"]);
        WordB].

Definition openKeywords : re :=
  Seqs [WordB;
        Group 1 (words ["plan"; "itinerary"; "budget plan"; "trip plan"; "roadmap";
                        "strategy"; "strategies"; "guide"; "tutorial"; "advice";
                        "tips"; "ideas"; "suggestions"; "recommendations";
                        "ways to"; "steps to"; "how to"; "pros and cons";
                        "advantages"; "disadvantages"; "opportunities";
                        "checklist"; "schedule"; "agenda"; "recipe"; "workout";
                        "routine"; "curriculum"; "syllabus"]);
        WordB].

Definition reHowCan : re :=
  Seqs [WordB; Str "how "; words ["can"; "do"; "should"; "would"; "could"; "to"]; WordB].

Definition reWhatBest : re :=
  Seqs [WordB; Str "what "; words ["are"; "would be"]; Char " ";
        Alts [Str "the "; Str "some "; Empty];
        words ["best"; "top"; "good"; "great"; "popular"; "common"; "effective";
               "important"; "key"; "main"; "major"];
        WordB].

Definition reBudget : re :=
  Seqs [words ["under"; "within"; "on a"; "for a"; "in a"]; Plus true ws;
        Opt (Seq (Plus true word) (Plus true ws)); Str "budget"; WordB].

Definition reDirect : re :=
  Seqs [Bol;
        Group 1 (words ["what is"; "what was"; "what's"; "who is"; "who was";
                        "who's"; "when did"; "when was"; "when is"; "where is";
                        "where was"; "where did"]);
        WordB].

Definition reQuantity : re :=
  Seqs [Bol; Str "how ";
        Group 1 (words ["many"; "much"; "old"; "tall"; "long"; "far"; "fast";
                        "heavy"; "deep"; "wide"]);
        WordB].

Definition reMath : re :=
  Seqs [Plus true digit; Star true ws; Class (oneOf "+-*/^"); Star true ws;
        Plus true digit].

Definition reCompute : re :=
  Seqs [Bol; Group 1 (words ["calculate"; "compute"; "solve"; "find the value"]); WordB].

Definition reYesNo : re :=
  Seqs [Bol;
        Group 1 (words ["true or false"; "is it true"; "did"; "does"; "is"; "was";
                        "are"; "were"]);
        WordB].

Definition classifyQuestionHeuristic (question : string) : option QuestionType :=
  let q := Js.trim (Js.toLowerCase question) in
  if test noFlags reImperative q then
    if test noFlags reFactualRequest q then Some Factual else Some OpenEnded
  else if test noFlags openKeywords q then Some OpenEnded
  else if test noFlags reHowCan q then Some OpenEnded
  else if test noFlags reWhatBest q then Some OpenEnded
  else if test noFlags reBudget q then Some OpenEnded
  else if test noFlags reDirect q then Some Factual
  else if test noFlags reQuantity q then Some Factual
  else if test noFlags reMath q then Some Factual
  else if test noFlags reCompute q then Some Factual
  else if test noFlags reYesNo q then Some Factual
  else None.

Record Classification := { type : QuestionType; usage : option Usage }.

Definition classifyPrompt (question : string) : string :=
  "Classify this question as either " ++ Tools.dq ++ "factual" ++ Tools.dq ++ " or "
    ++ Tools.dq ++ "open-ended" ++ Tools.dq ++ ".

Factual = has ONE correct answer (a number, name, date, fact, yes/no)
Open-ended = creative, planning, opinions, lists of ideas, strategies, subjective, or can have many valid different answers

Question: " ++ Tools.dq ++ question ++ Tools.dq ++ "

Reply with ONLY one word: factual or open-ended".

Definition classifyQuestionWithLLM (question apiKey model : string)
           (signal : option AbortSignal) : M Classification :=
  result <- Llm.callLLM
              [{| role := "user"; content := classifyPrompt question |}]
              {| Llm.apiKey := apiKey; Llm.model := model; Llm.temperature := 0%Q;
                 Llm.maxTokens := 10; Llm.signal := signal |} ;;
  let answer := Js.toLowerCase (Js.trim (Llm.content result)) in
  ret {| type := if Js.includes answer "open" then OpenEnded else Factual;
         usage := Some (Llm.usage result) |}.

Definition classifyQuestionSmart (question apiKey model : string)
           (signal : option AbortSignal) : M Classification :=
  match classifyQuestionHeuristic question with
  | Some heuristic => ret {| type := heuristic; usage := None |}
  | None =>
      if Js.truthy apiKey then
        r <- caught (classifyQuestionWithLLM question apiKey model signal) ;;
        match r with
        | inr c => ret c
        | inl err =>
            warn ("LLM classification failed, defaulting to factual: " ++ exnMessage err) ;;;
            ret {| type := Factual; usage := None |}
        end
      else ret {| type := Factual; usage := None |}
  end.

End Classifier.

(* ================================================================== *)
(** * Chain-of-Thought with self-consistency ([src/frameworks/llm.js]) *)
(* ================================================================== *)

Module CoT.
Import Eff.
Import Regex.

Definition ws : re := Class Js.isWhiteSpace.
Definition digit : re := Class Js.isDigit.
Definition dot : re := Class Js.isDot.

(** The class of [\s], of [.,;:!?()] and of the two quote characters. *)
Definition edgeChar (c : ascii) : bool :=
  Js.isWhiteSpace c || oneOf (".,;:!?'()" ++ Tools.dq) c.

(** JS: "/\.?\s*the answer is\b.*$/gi" *)
Definition reTrailingAnswerIs : re :=
  Seqs [Opt (Char "."); Star true ws; Str "the answer is"; WordB; Star true dot; Eol].

(** JS: "/^(the|a|an)\s+/i" *)
Definition reArticle : re :=
  Seqs [Bol; Group 1 (Alts [Str "the"; Str "a"; Str "an"]); Plus true ws].

(** JS: /^E+|E+$/g with E the class [edgeChar] *)
Definition reEdges : re :=
  Alt (Seq Bol (Plus true (Class edgeChar))) (Seq (Plus true (Class edgeChar)) Eol).

(** What [basicNormalize] does after [String(raw).trim().toLowerCase()]. *)
Definition normalizeLowered (s : string) : string :=
  let s := replaceAll flagI reTrailingAnswerIs "" s in
  let s := replaceFirst flagI reArticle "" s in
  let s := replaceAll noFlags reEdges "" s in
  let s := replaceAll noFlags (Plus true ws) " " s in
  Js.trim s.

Definition lowered (raw : string) : string := Js.toLowerCase (Js.trim raw).

Definition basicNormalize (raw : string) : string := normalizeLowered (lowered raw).

(** [str.replace(/[.*+?^${}()|[\]\\]/g, '\\$&')] *)
Definition escapeRegex (s : string) : string :=
  Js.str (flat_map (fun c => if oneOf ".*+?^${}()|[]\" c then ["\"%char; c] else [c])
                   (Js.chars s)).

(** The pattern [new RegExp] reads from an escaped literal: a backslash makes
    the next character a pattern character. *)
Fixpoint parseEscaped (l : list ascii) : re :=
  match l with
  | [] => Empty
  | c :: r =>
      if Ascii.eqb c "\" then
        match r with
        | c' :: r' => Seq (Char c') (parseEscaped r')
        | [] => Char c
        end
      else Seq (Char c) (parseEscaped r)
  end.

Definition areSimilar (a b : string) : bool :=
  if String.eqb a b then true
  else if (String.length a <? 2) || (String.length b <? 2) then false
  else
    let shorter := if String.length a <=? String.length b then a else b in
    let longer := if String.length a <=? String.length b then b else a in
    test noFlags
         (Seqs [Alt Bol WordB; parseEscaped (Js.chars (escapeRegex shorter)); Alt WordB Eol])
         longer.

(** The value of a tally property: a number, or the text that adding a
    number to a member of Object.prototype leaves behind. *)
Inductive Tally : Type :=
| Num (z : Z)
| Text.

(** [(o[k] || 0) + n] *)
Definition tallyPlus (l : JsObj.Lookup Tally) (n : Tally) : Tally :=
  match l, n with
  | JsObj.Own (Num z), Num z' => Num (z + z')
  | JsObj.Undefined, Num z' => Num z'
  | _, _ => Text
  end.

(** [cnt > max] *)
Definition tallyGt (cnt : Tally) (max : Z) : bool :=
  match cnt with
  | Num z => (max <? z)%Z
  | Text => false
  end.

Record VoteGroup := { count : Z; originals : JsObj.t Tally }.

Record Entry := { original : string; normalized : string }.

Definition groupKey (e : Entry) : string :=
  if Js.truthy (normalized e) then normalized e else original e.

(** One round of the grouping loop, shared by steps 2 and 4:
    [if (!g[key]) g[key] = {count: 0, originals: {}}; g[key].count++;
     g[key].originals[original] = (g[key].originals[original] || 0) + 1]. *)
Definition tallyInto (groups : JsObj.t VoteGroup) (key original : string)
  : Outcome (JsObj.t VoteGroup) :=
  match JsObj.get groups key with
  | JsObj.Inherited =>
      Throw (TypeError "Cannot read properties of undefined")
  | JsObj.Own g =>
      Ok (JsObj.set groups key
            {| count := count g + 1;
               originals := JsObj.set (originals g) original
                              (tallyPlus (JsObj.get (originals g) original) (Num 1)) |})
  | JsObj.Undefined =>
      Ok (JsObj.set groups key
            {| count := 1;
               originals := JsObj.set [] original
                              (tallyPlus (JsObj.get [] original) (Num 1)) |})
  end.

Fixpoint groupEntries (keyOf : Entry -> string) (entries : list Entry)
         (groups : JsObj.t VoteGroup) : Outcome (JsObj.t VoteGroup) :=
  match entries with
  | [] => Ok groups
  | e :: r =>
      match tallyInto groups (keyOf e) (original e) with
      | Ok groups' => groupEntries keyOf r groups'
      | Throw err => Throw err
      end
  end.

(** [sort((a, b) => groups[b].count - groups[a].count)]; the sort is stable. *)
Definition byCountDesc (a b : string * VoteGroup) : Z := (count (snd b) - count (snd a))%Z.

(** [e] stood before every element of [l] in the array. *)
Fixpoint insertByCount (e : string * VoteGroup) (l : list (string * VoteGroup))
  : list (string * VoteGroup) :=
  match l with
  | [] => [e]
  | e' :: r =>
      if (byCountDesc e e' <=? 0)%Z then e :: l
      else e' :: insertByCount e r
  end.

Definition sortByCount (l : list (string * VoteGroup)) : list (string * VoteGroup) :=
  fold_right insertByCount [] l.

(** [for ([orig, cnt] of Object.entries(from)) into[orig] = (into[orig] || 0) + cnt] *)
Definition addOriginals (into : JsObj.t Tally) (from : JsObj.t Tally) : JsObj.t Tally :=
  fold_left (fun acc e => JsObj.set acc (fst e) (tallyPlus (JsObj.get acc (fst e)) (snd e)))
            (JsObj.entries from) into.

(** Step 3: one sorted key against the groups kept so far. *)
Definition mergeOne (merged : JsObj.t VoteGroup) (e : string * VoteGroup) : JsObj.t VoteGroup :=
  let key := fst e in
  let mergedInto := find (fun canonical => areSimilar key canonical) (JsObj.keys merged) in
  match mergedInto with
  | Some canonical =>
      if Js.truthy canonical then
        match JsObj.own merged canonical with
        | Some g =>
            JsObj.set merged canonical
                      {| count := count g + count (snd e);
                         originals := addOriginals (originals g) (originals (snd e)) |}
        | None => merged
        end
      else JsObj.set merged key (snd e)
  | None => JsObj.set merged key (snd e)
  end.

Definition mergeGroups (normGroups : JsObj.t VoteGroup) : JsObj.t VoteGroup :=
  fold_left mergeOne (sortByCount (JsObj.entries normGroups)) [].

Record VoteResult := {
  vAnswer : option string;
  vCount : Z;
  distribution : JsObj.t Z;
  extraUsage : option Usage
}.

(** The most frequent original of a group: the first entry whose tally
    exceeds all the earlier ones. *)
Definition displayOf (originals : JsObj.t Tally) : option string * Z :=
  fold_left (fun acc e =>
               match snd e with
               | Num cnt => if tallyGt (snd e) (snd acc) then (Some (fst e), cnt) else acc
               | Text => acc
               end)
            (JsObj.entries originals) (None, 0%Z).

(** A property name made from a nullable string. *)
Definition keyText (k : option string) : string :=
  match k with Some s => s | None => "null" end.

Definition buildVoteResult (groups : JsObj.t VoteGroup) (totalAnswers : nat)
           (extraUsage : option Usage) : VoteResult :=
  let '(bestKey, bestCount, distribution) :=
    fold_left (fun (acc : option string * Z * JsObj.t Z) e =>
                 let '(bestKey, bestCount, distribution) := acc in
                 let group := snd e in
                 let displayKey := fst (displayOf (originals group)) in
                 let distribution := JsObj.set distribution (keyText displayKey) (count group) in
                 if (bestCount <? count group)%Z
                 then (displayKey, count group, distribution)
                 else (bestKey, bestCount, distribution))
              (JsObj.entries groups) (None, 0%Z, []) in
  {| vAnswer := bestKey; vCount := bestCount; distribution := distribution;
     extraUsage := extraUsage |}.

Definition canonicalizePrompt (uniqueAnswers : list string) : string :=
  "I have these answers to the same question from multiple reasoning paths. Group answers that mean the same thing (even if worded differently, or one is more detailed) and assign each the same short canonical form.

Answers:
" ++ Js.join Tools.nl
       (map (fun p => Js.natToString (fst p + 1) ++ ". " ++ Tools.dq ++ snd p ++ Tools.dq)
            (combine (seq 0 (length uniqueAnswers)) uniqueAnswers)) ++ "

For EACH number, output its canonical form using EXACTLY this format (one per line):
1 -> canonical form
2 -> canonical form

Rules:
- If answers mean the same thing, give them the SAME canonical form
- Use the simplest, shortest correct form as canonical
- Preserve key details (e.g. " ++ Tools.dq ++ "Belgrade, Serbia" ++ Tools.dq ++ " and "
  ++ Tools.dq ++ "Belgrade" ++ Tools.dq ++ " are the same " ++ Js.str (map ascii_of_nat [226; 134; 146])
  ++ " use " ++ Tools.dq ++ "Belgrade, Serbia" ++ Tools.dq ++ ")
- Do NOT add information not present in any answer".

(** JS: "/(\d+)\s*->\s*(.+)/" *)
Definition reMapping : re :=
  Seqs [Group 1 (Plus true digit); Star true ws; Str "->"; Star true ws;
        Group 2 (Plus true dot)].

Definition readMapping (uniqueAnswers : list string) (content : string) : JsObj.t string :=
  fold_left
    (fun mapping line =>
       match exec noFlags reMapping line with
       | Some mt =>
           let n := JsObj.digitsValue (Js.chars (group' 1 mt)) 0 in
           if (1 <=? n)%N then
             match nth_error uniqueAnswers (N.to_nat n - 1) with
             | Some a => JsObj.set mapping a (Js.toLowerCase (Js.trim (group' 2 mt)))
             | None => mapping
             end
           else mapping
       | None => mapping
       end)
    (Js.splitLines content) [].

Definition canonicalizeWithLLM (uniqueAnswers : list string) (apiKey model : string)
           (signal : option AbortSignal) : M (JsObj.t string * Usage) :=
  result <- Llm.callLLM
              [{| role := "user"; content := canonicalizePrompt uniqueAnswers |}]
              {| Llm.apiKey := apiKey; Llm.model := model; Llm.temperature := 0%Q;
                 Llm.maxTokens := 300; Llm.signal := signal |} ;;
  ret (readMapping uniqueAnswers (Llm.content result), Llm.usage result).

(** [mapping[original] || original], as a property name. *)
Definition canonicalOf (mapping : JsObj.t string) (e : Entry) : string :=
  match JsObj.get mapping (original e) with
  | JsObj.Own v => if Js.truthy v then v else original e
  | JsObj.Inherited => JsObj.inheritedText (original e)
  | JsObj.Undefined => original e
  end.

(** [[...new Set(l)]] *)
Fixpoint unique (seen : list string) (l : list string) : list string :=
  match l with
  | [] => []
  | x :: r => if existsb (String.eqb x) seen then unique seen r
              else x :: unique (x :: seen) r
  end.

Fixpoint validOnly (answers : list (option string)) : list string :=
  match answers with
  | [] => []
  | Some a :: r => a :: validOnly r
  | None :: r => validOnly r
  end.

Definition noVote : VoteResult :=
  {| vAnswer := None; vCount := 0; distribution := []; extraUsage := None |}.

Definition entriesOf (validAnswers : list string) : list Entry :=
  map (fun a => {| original := lowered a; normalized := basicNormalize a |}) validAnswers.

Definition smartMajorityVote (answers : list (option string)) (apiKey model : string)
           (signal : option AbortSignal) : M VoteResult :=
  if length answers =? 0 then ret noVote
  else
    let validAnswers := validOnly answers in
    if length validAnswers =? 0 then ret noVote
    else
      let entries := entriesOf validAnswers in
      match groupEntries groupKey entries [] with
      | Throw err => throw err
      | Ok normGroups =>
          let merged := mergeGroups normGroups in
          let groupKeys := JsObj.keys merged in
          if (1 <? length groupKeys) && Js.truthy apiKey then
            let uniqueOriginals := unique [] (map original entries) in
            r <- caught (canonicalizeWithLLM uniqueOriginals apiKey model signal) ;;
            match r with
            | inl err =>
                warn ("LLM canonicalization failed, using basic grouping: " ++ exnMessage err) ;;;
                ret (buildVoteResult merged (length validAnswers) None)
            | inr (mapping, usage) =>
                match groupEntries (canonicalOf mapping) entries [] with
                | Ok llmGroups =>
                    ret (buildVoteResult llmGroups (length validAnswers) (Some usage))
                | Throw err =>
                    warn ("LLM canonicalization failed, using basic grouping: "
                            ++ exnMessage err) ;;;
                    ret (buildVoteResult merged (length validAnswers) (Some usage))
                end
            end
          else ret (buildVoteResult merged (length validAnswers) None)
      end.

Definition synthesisPrompt (question : string) (paths : list string) : string :=
  let pathSummaries :=
    Js.join (Tools.nl ++ Tools.nl)
            (map (fun p => "--- Path " ++ Js.natToString (fst p + 1) ++ " ---" ++ Tools.nl ++ snd p)
                 (combine (seq 0 (length paths)) paths)) in
  "You were asked this question: " ++ Tools.dq ++ question ++ Tools.dq ++ "

Multiple reasoning paths explored different angles. Here they are:

" ++ pathSummaries ++ "

Now synthesize the BEST comprehensive answer by:
1. Identifying the strongest ideas and insights across all paths
2. Noting where multiple paths agree (higher confidence points)
3. Combining complementary ideas into one cohesive response
4. Dropping weak, redundant, or contradictory points

Write ONE clear, well-structured final answer using markdown formatting (headings, bold, lists, tables as appropriate). Do not reference the individual paths " ++ Js.str (map ascii_of_nat [226; 128; 148]) ++ " just give the best synthesized answer.".

Definition synthesizePaths (question : string) (paths : list string)
           (apiKey model : string) (signal : option AbortSignal) : M (string * Usage) :=
  result <- Llm.callLLM
              [{| role := "user"; content := synthesisPrompt question paths |}]
              {| Llm.apiKey := apiKey; Llm.model := model; Llm.temperature := 0%Q;
                 Llm.maxTokens := 1500; Llm.signal := signal |} ;;
  ret (Llm.content result, Llm.usage result).

Definition FEW_SHOT_EXEMPLARS : string :=
  "Q: Roger has 5 tennis balls. He buys 2 more cans of tennis balls. Each can has 3 tennis balls. How many tennis balls does he have now?
A: Roger started with 5 balls. 2 cans of 3 tennis balls each is 2 * 3 = 6 tennis balls. 5 + 6 = 11. The answer is 11.

Q: The cafeteria had 23 apples. If they used 20 to make lunch and bought 6 more, how many apples do they have?
A: The cafeteria had 23 apples originally. They used 20 to make lunch. So they had 23 - 20 = 3. They bought 6 more apples, so they have 3 + 6 = 9. The answer is 9.

Q: Shawn has five toys. For Christmas, he got two toys each from his mom and dad. How many toys does he have now?
A: Shawn started with 5 toys. He got 2 from mom and 2 from dad, that is 2 + 2 = 4 more toys. 5 + 4 = 9. The answer is 9.

Q: There were nine computers in the server room. Five more computers were installed each day, from monday to thursday. How many computers are now in the server room?
A: There are 4 days from monday to thursday. 5 computers were added each day, so 5 * 4 = 20 computers were added. 9 + 20 = 29. The answer is 29.".

Definition buildPrompt (question mode : string) : string :=
  if String.eqb mode "zero-shot"
  then "Q: " ++ question ++ Tools.nl ++ "A: Let's think step by step."
  else FEW_SHOT_EXEMPLARS ++ Tools.nl ++ Tools.nl ++ "Q: " ++ question ++ Tools.nl
         ++ "A: Let's think step by step.".

Record Options := {
  apiKey : string;
  model : string;
  nSamples : nat;
  temperature : Q;
  mode : string;
  signal : option AbortSignal
}.

Record CoTResult := {
  framework : string;
  questionType : string;
  paths : list string;
  answers : list (option string);
  voteCounts : option (JsObj.t Z);
  synthesizedAnswer : option string;
  finalAnswer : option string;
  answer : option string;
  confidence : option Q;
  extractionFailures : nat;
  usage : Usage;
  llmCalls : nat;
  timeMs : Z
}.

Definition systemMessage : Message :=
  {| role := "system";
     content := "You are a helpful assistant that solves problems step by step. Always end your reasoning with "
                  ++ Tools.dq ++ "The answer is <your answer>." ++ Tools.dq |}.

(** The [nSamples] sampling calls.  The code fires them together and awaits
    them all; here they run one after the other, in submission order.  Each
    call is given the requests it issues in the code as long as no call is
    retried: the requests of a retried call would rank after the first
    requests of the calls behind it. *)
Fixpoint sample (messages : list Message) (o : Options) (n i : nat)
  : M (list Llm.LLMResult) :=
  match n with
  | O => ret []
  | S n' =>
      result <- Llm.callLLM messages
                  {| Llm.apiKey := apiKey o; Llm.model := model o;
                     Llm.temperature := temperature o; Llm.maxTokens := 512;
                     Llm.signal := signal o |} ;;
      onStep "path" [Js.natToString i; Llm.content result] ;;;
      results <- sample messages o n' (S i) ;;
      ret (result :: results)
  end.

Definition isNone {A} (a : option A) : bool := match a with None => true | Some _ => false end.

Definition placeholder : string :=
  "[Extraction failed " ++ Js.str (map ascii_of_nat [226; 128; 148]) ++ " see reasoning paths]".

(** [vote.count / nSamples] *)
Definition ratio (count : Z) (nSamples : nat) : Q :=
  match nSamples with
  | O => 0%Q
  | S _ => Qmake count (Pos.of_nat nSamples)
  end.

Definition runCoT (question : string) (o : Options) : M CoTResult :=
  startTime <- dateNow ;;
  let prompt := buildPrompt question (mode o) in
  let messages := [systemMessage; {| role := "user"; content := prompt |}] in
  results <- sample messages o (nSamples o) 0 ;;
  let paths := map Llm.content results in
  let usages := map Llm.usage results in
  classification <- Classifier.classifyQuestionSmart question (apiKey o) (model o) (signal o) ;;
  let usages := match Classifier.usage classification with
                | Some u => (usages ++ [u])%list
                | None => usages
                end in
  let classifierCalls := if isNone (Classifier.usage classification) then 0 else 1 in
  match Classifier.type classification with
  | Classifier.OpenEnded =>
      synthesis <- synthesizePaths question paths (apiKey o) (model o) (signal o) ;;
      let usages := (usages ++ [snd synthesis])%list in
      endTime <- dateNow ;;
      ret {| framework := "CoT"; questionType := "open-ended"; paths := paths;
             answers := map (fun _ => None) paths;
             voteCounts := None;
             synthesizedAnswer := Some (fst synthesis);
             finalAnswer := Some (fst synthesis);
             answer := Some (fst synthesis);
             confidence := None;
             extractionFailures := 0;
             usage := TokenCounter.sumUsage usages;
             llmCalls := nSamples o + 1 + classifierCalls;
             timeMs := (endTime - startTime)%Z |}
  | Classifier.Factual =>
      let answers := map Parser.extractAnswer paths in
      let extractionFailures := length (filter isNone answers) in
      vote <- smartMajorityVote answers (apiKey o) (model o) (signal o) ;;
      let usages := match extraUsage vote with
                    | Some u => (usages ++ [u])%list
                    | None => usages
                    end in
      let validCount := length (filter (fun a => negb (isNone a)) answers) in
      let finalAnswer := if 0 <? validCount then vAnswer vote else Some placeholder in
      endTime <- dateNow ;;
      ret {| framework := "CoT"; questionType := "factual"; paths := paths;
             answers := answers;
             voteCounts := Some (distribution vote);
             synthesizedAnswer := None;
             finalAnswer := finalAnswer;
             answer := finalAnswer;
             confidence := Some (if 0 <? validCount then ratio (vCount vote) (nSamples o)
                                 else 0%Q);
             extractionFailures := extractionFailures;
             usage := TokenCounter.sumUsage usages;
             llmCalls := nSamples o + (if isNone (extraUsage vote) then 0 else 1)
                         + classifierCalls;
             timeMs := (endTime - startTime)%Z |}
  end.

End CoT.

(* ================================================================== *)
(** * The ReAct engine ([src/frameworks/llm.js], [runReAct])            *)
(* ================================================================== *)

Module ReAct.
Import Eff.

Definition buildSystemPrompt : string :=
  "You run in a loop of Thought, Action, PAUSE, Observation.
At the end of the loop you output an Answer.

Use Thought to describe your reasoning about the question.
Use Action to run one of the available tools - then return PAUSE.
Observation will be the result of running that action.

Your available tools are:

" ++ Tools.getToolDescriptions ++ "

To use a tool, respond with EXACTLY this format:

Thought: <your reasoning about what to do next>
Action: <tool_name>: <tool_input>
PAUSE

You will be called again with:
Observation: <result of the action>

When you have enough information to answer, respond with:

Thought: <your final reasoning>
Answer: <your final answer>

Important rules:
- Always start with a Thought before taking an Action.
- Only use ONE Action per turn.
- After Action, write PAUSE and stop.
- If an action returns an error, reason about it and try differently.
- Do not make up information. Use tools to find facts.".

Record Options := {
  apiKey : string;
  model : string;
  maxTurns : nat;
  signal : option AbortSignal
}.

Record Entry := { role : string; content : string; turn : nat }.

Record ReActResult := {
  framework : string;
  answer : option string;
  error : option string;
  truncated : bool;
  trajectory : list Entry;
  turns : nat;
  usage : Usage;
  llmCalls : nat;
  timeMs : Z
}.

Definition nudge : string :=
  "Please respond with either:
Thought: <reasoning>
Action: <tool>: <input>
PAUSE

Or:
Answer: <final answer>".

(** [partialAnswer || null] *)
Definition orNull (a : option string) : option string :=
  if Parser.falsy a then None else a.

(** What [runReAct] returns once [turn < maxTurns] fails. *)
Definition exceeded (o : Options) (startTime : Z) (turn : nat)
           (trajectory : list Entry) (usages : list Usage) : M ReActResult :=
  let lastContent :=
    match trajectory with
    | [] => ""
    | e :: r => content (last r e)
    end in
  let partialAnswer := Parser.parseReActAnswer lastContent in
  endTime <- dateNow ;;
  ret {| framework := "ReAct";
         answer := orNull partialAnswer;
         error := Some ("Exceeded maximum turns (" ++ Js.natToString (maxTurns o)
                          ++ "). The agent did not converge on a final answer.");
         truncated := true;
         trajectory := trajectory;
         turns := turn;
         usage := TokenCounter.sumUsage usages;
         llmCalls := turn;
         timeMs := (endTime - startTime)%Z |}.

(** The [while (turn < maxTurns)] loop with [left = maxTurns - turn]
    iterations to go. *)
Fixpoint turnsFrom (left : nat) (o : Options) (startTime : Z) (turn : nat)
         (messages : list Message) (trajectory : list Entry) (usages : list Usage)
         {struct left} : M ReActResult :=
  match left with
  | O => exceeded o startTime turn trajectory usages
  | S left' =>
      let turn := S turn in
      result <- Llm.callLLM messages
                  {| Llm.apiKey := apiKey o; Llm.model := model o;
                     Llm.temperature := 0%Q; Llm.maxTokens := 1024;
                     Llm.signal := signal o |} ;;
      let usages := (usages ++ [Llm.usage result])%list in
      let response := Llm.content result in
      let trajectory :=
        (trajectory ++ [{| role := "assistant"; content := response; turn := turn |}])%list in
      onStep "llm" [response; Js.natToString turn] ;;;
      let answer := Parser.parseReActAnswer response in
      if negb (Parser.falsy answer) then
        endTime <- dateNow ;;
        ret {| framework := "ReAct"; answer := answer; error := None; truncated := false;
               trajectory := trajectory; turns := turn;
               usage := TokenCounter.sumUsage usages; llmCalls := turn;
               timeMs := (endTime - startTime)%Z |}
      else
        match Parser.parseReActAction response with
        | Some action =>
            onStep "action" [Parser.actionName action ++ ": " ++ Parser.actionInput action;
                             Js.natToString turn] ;;;
            observation <- Tools.executeTool (Parser.actionName action)
                                             (Parser.actionInput action) (apiKey o) ;;
            let trajectory :=
              (trajectory ++ [{| role := "observation"; content := observation;
                                 turn := turn |}])%list in
            onStep "observation" [observation; Js.natToString turn] ;;;
            let messages :=
              (messages ++ [{| Eff.role := "assistant"; Eff.content := response |};
                            {| Eff.role := "user";
                               Eff.content := "Observation: " ++ observation |}])%list in
            turnsFrom left' o startTime turn messages trajectory usages
        | None =>
            let messages :=
              (messages ++ [{| Eff.role := "assistant"; Eff.content := response |};
                            {| Eff.role := "user"; Eff.content := nudge |}])%list in
            turnsFrom left' o startTime turn messages trajectory usages
        end
  end.

Definition runReAct (question : string) (o : Options) : M ReActResult :=
  startTime <- dateNow ;;
  let systemPrompt := buildSystemPrompt in
  let messages := [{| Eff.role := "system"; Eff.content := systemPrompt |};
                   {| Eff.role := "user"; Eff.content := question |}] in
  turnsFrom (maxTurns o) o startTime 0 messages [] [].

End ReAct.

(* ================================================================== *)
(** * The ReWOO engine ([src/frameworks/rewoo.js])                      *)
(* ================================================================== *)

Module ReWOO.
Import Eff.

Definition buildPlannerPrompt (task : string) : string :=
  "For the following task, make plans that can solve the problem step by step. For each plan, indicate which external tool together with tool input to retrieve evidence. You can store the evidence into a variable #E that can be called by later tools. (Plan, #E1, Plan, #E2, Plan, ...)

Tools can be one of the following:
(1) wikipedia[input]: Search Wikipedia for information. Useful for finding facts about people, places, events, etc.
(2) search[input]: Search the web for information. Useful for finding current or specific information.
(3) calculate[input]: Evaluate a math expression. Input should be a numeric expression like "
  ++ Tools.dq ++ "2 * 3 + 4" ++ Tools.dq ++ ".
(4) current_datetime[] or datetime[]: Get the current date and time (UTC and local). No input required.
(5) LLM[input]: A language model like yourself. Useful when you need to reason with general knowledge. Input can be any instruction.

For example,
Task: What is the population of the capital of France?
Plan: Search for the capital of France. #E1 = wikipedia[capital of France]
Plan: Find the population of the capital found. #E2 = search[population of #E1]
Plan: State the final answer. #E3 = LLM[Based on #E1 and #E2, what is the population of the capital of France?]

Begin! Describe your plans with rich details. Each Plan should be followed by only one #E.

Task: " ++ task.

Definition buildSolverPrompt (task planWithEvidence : string) : string :=
  "Solve the following task or problem. To solve the problem, we have made step-by-step Plan and retrieved corresponding Evidence to each Plan. Use them with caution since long evidence might contain irrelevant information.

" ++ planWithEvidence ++ "

Now solve the question or task according to provided Evidence above. Respond with the answer directly with no extra words.

Task: " ++ task ++ "
Response:".

(** The replacement text of [replaceAll] with a string pattern: [$$], [$&],
    [$`] and [$'] are expanded; there are no captures to refer to. *)
Fixpoint expand (rep matched before after : list ascii) : list ascii :=
  match rep with
  | [] => []
  | c :: r =>
      if Ascii.eqb c "$" then
        match r with
        | c' :: r' =>
            if Ascii.eqb c' "$" then ("$"%char :: expand r' matched before after)
            else if Ascii.eqb c' "&" then (matched ++ expand r' matched before after)%list
            else if Ascii.eqb c' "`" then (before ++ expand r' matched before after)%list
            else if Ascii.eqb c' "'" then (after ++ expand r' matched before after)%list
            else c :: expand r matched before after
        | [] => [c]
        end
      else c :: expand r matched before after
  end.

(** [s.replaceAll(pat, rep)] for a string [pat]: [before] is the text already
    passed (nearest first), [rest] the text to scan. *)
Fixpoint replaceAllFrom (pat rep : list ascii) (n : nat) (before rest : list ascii)
  : list ascii :=
  match n with
  | O => rest
  | S n' =>
      if Js.startsWithL pat rest then
        let after := skipn (length pat) rest in
        (expand rep pat (rev before) after ++
           match pat, rest with
           | [], c :: t => c :: replaceAllFrom pat rep n' (c :: before) t
           | [], [] => []
           | _ :: _, _ => replaceAllFrom pat rep n' (rev pat ++ before) after
           end)%list
      else
        match rest with
        | c :: t => c :: replaceAllFrom pat rep n' (c :: before) t
        | [] => []
        end
  end.

Definition replaceAll (pat rep s : string) : string :=
  Js.str (replaceAllFrom (Js.chars pat) (Js.chars rep) (S (String.length s)) [] (Js.chars s)).

(** [for ([varName, value] of Object.entries(evidence)) input = input.replaceAll(varName, String(value))] *)
Definition substitute (evidence : JsObj.t string) (input : string) : string :=
  fold_left (fun input e => replaceAll (fst e) (snd e) input) (JsObj.entries evidence) input.

Record Options := {
  apiKey : string;
  model : string;
  signal : option AbortSignal
}.

Definition isLlmTool (step : Parser.PlanStep) : bool :=
  String.eqb (Js.toLowerCase (Parser.tool step)) "llm".

(** What the worker stores for a result. *)
Definition stored (isError : bool) (result : string) : string :=
  if isError then "[FAILED: " ++ result ++ "]" else result.

(** One round of the worker loop. *)
Definition workStep (o : Options) (step : Parser.PlanStep)
           (st : JsObj.t string * list Usage) : M (JsObj.t string * list Usage) :=
  let '(evidence, usages) := st in
  let input := substitute evidence (Parser.toolInput step) in
  r <- (if isLlmTool step then
          llmResult <- Llm.callLLM [{| role := "user"; content := input |}]
                         {| Llm.apiKey := apiKey o; Llm.model := model o;
                            Llm.temperature := 0%Q; Llm.maxTokens := 512;
                            Llm.signal := signal o |} ;;
          ret (Llm.content llmResult, false, (usages ++ [Llm.usage llmResult])%list)
        else
          result <- Tools.executeTool (Parser.tool step) input (apiKey o) ;;
          ret (result, Js.startsWith result "Error:", usages)) ;;
  let '(result, isError, usages) := r in
  let evidence := JsObj.set evidence (Parser.variable step) (stored isError result) in
  onStep "evidence" [Parser.variable step; input; result;
                     if isError then "true" else "false"] ;;;
  ret (evidence, usages).

Fixpoint work (o : Options) (steps : list Parser.PlanStep)
         (st : JsObj.t string * list Usage) : M (JsObj.t string * list Usage) :=
  match steps with
  | [] => ret st
  | step :: r => st' <- workStep o step st ;; work o r st'
  end.

(** [evidence[step.variable] || 'N/A'] *)
Definition evidenceOrNA (evidence : JsObj.t string) (v : string) : string :=
  match JsObj.get evidence v with
  | JsObj.Own e => if Js.truthy e then e else "N/A"
  | JsObj.Inherited => JsObj.inheritedText v
  | JsObj.Undefined => "N/A"
  end.

Definition planWithEvidence (steps : list Parser.PlanStep) (evidence : JsObj.t string)
  : string :=
  fold_left
    (fun acc step =>
       let input := substitute evidence (Parser.toolInput step) in
       acc ++ "Plan: " ++ Parser.description step ++ Tools.nl
           ++ Parser.variable step ++ " = " ++ Parser.tool step ++ "[" ++ input ++ "]"
           ++ Tools.nl ++ "Evidence: " ++ evidenceOrNA evidence (Parser.variable step)
           ++ Tools.nl ++ Tools.nl)
    steps "".

Record ReWOOResult := {
  framework : string;
  planText : string;
  steps : list Parser.PlanStep;
  evidence : JsObj.t string;
  answer : string;
  usage : Usage;
  llmCalls : nat;
  timeMs : Z
}.

Definition runReWOO (question : string) (o : Options) : M ReWOOResult :=
  startTime <- dateNow ;;
  let plannerPrompt := buildPlannerPrompt question in
  planResult <- Llm.callLLM [{| role := "user"; content := plannerPrompt |}]
                  {| Llm.apiKey := apiKey o; Llm.model := model o;
                     Llm.temperature := 0%Q; Llm.maxTokens := 1024;
                     Llm.signal := signal o |} ;;
  let usages := [Llm.usage planResult] in
  let planText := Llm.content planResult in
  let steps := Parser.parseReWOOPlan planText in
  onStep "plan" (planText :: map Parser.variable steps) ;;;
  st <- work o steps ([], usages) ;;
  let '(evidence, usages) := st in
  let solverPrompt := buildSolverPrompt question (planWithEvidence steps evidence) in
  solverResult <- Llm.callLLM [{| role := "user"; content := solverPrompt |}]
                    {| Llm.apiKey := apiKey o; Llm.model := model o;
                       Llm.temperature := 0%Q; Llm.maxTokens := 512;
                       Llm.signal := signal o |} ;;
  let usages := (usages ++ [Llm.usage solverResult])%list in
  let answer := Js.trim (Llm.content solverResult) in
  onStep "solve" [answer] ;;;
  let llmToolCalls := length (filter isLlmTool steps) in
  endTime <- dateNow ;;
  ret {| framework := "ReWOO"; planText := planText; steps := steps;
         evidence := evidence; answer := answer;
         usage := TokenCounter.sumUsage usages;
         llmCalls := 2 + llmToolCalls;
         timeMs := (endTime - startTime)%Z |}.

End ReWOO.

(* ================================================================== *)
(** * The Plan-and-Execute engine ([src/frameworks/planExecute.js])     *)
(* ================================================================== *)

Module PlanExecute.
Import Eff.

Definition PLANNER_SYSTEM : string :=
  "You are a planning agent. Given an objective, create a simple step-by-step plan.
This plan should involve individual tasks that, if executed correctly, will yield the correct answer.
Do not add superfluous steps. The result of the final step should be the final answer.
Make sure each step has all the information needed. Do not skip steps.

Output a numbered list of steps, one per line. Example:
1. Search for X
2. Calculate Y based on the result
3. Provide the final answer".

Definition getExecutorSystem : string :=
  "You are an execution agent. You execute a single step of a plan using available tools.

Your available tools are:
" ++ Tools.getToolDescriptions ++ "

To use a tool, respond with:
Thought: <your reasoning>
Action: <tool_name>: <tool_input>
PAUSE

When you have the result for this step, respond with:
Answer: <result of this step>

Only execute the specific step you are given. Be concise.".

(** [plan.map((s, i) => `${i + 1}. ${s}`).join('\n')] *)
Definition numbered (plan : list string) : string :=
  Js.join Tools.nl
          (map (fun p => Js.natToString (fst p + 1) ++ ". " ++ snd p)
               (combine (seq 0 (length plan)) plan)).

(** A nullable string in a template. *)
Definition shown (r : option string) : string :=
  match r with Some s => s | None => "null" end.

Definition buildReplannerPrompt (objective : string) (plan : list string)
           (pastSteps : list (string * option string)) : string :=
  let stepsStr :=
    Js.join (Tools.nl ++ Tools.nl)
            (map (fun p => "Step: " ++ fst p ++ Tools.nl ++ "Result: " ++ shown (snd p))
                 pastSteps) in
  "Your objective was:
" ++ objective ++ "

Your original plan was:
" ++ numbered plan ++ "

You have completed these steps:
" ++ stepsStr ++ "

Based on the results so far, decide:
- If the objective is fully achieved, respond with: DONE: <final answer>
- If more steps are needed, respond with an updated numbered plan (only remaining steps).

Do not repeat completed steps. Be concise.".

Record Options := {
  apiKey : string;
  model : string;
  maxReplans : nat;
  signal : option AbortSignal
}.

Record StepResult := {
  result : option string;
  stepError : option string;
  stepUsages : list Usage
}.

(** The [for (turn = 0; turn < 8; turn++)] loop of [executeStep]. *)
Fixpoint stepTurns (left : nat) (o : Options) (messages : list Message)
         (usages : list Usage) : M StepResult :=
  match left with
  | O => ret {| result := None; stepError := Some "Step execution exceeded max turns.";
                stepUsages := usages |}
  | S left' =>
      r <- Llm.callLLM messages
             {| Llm.apiKey := apiKey o; Llm.model := model o; Llm.temperature := 0%Q;
                Llm.maxTokens := 512; Llm.signal := signal o |} ;;
      let usages := (usages ++ [Llm.usage r])%list in
      let response := Llm.content r in
      let answer := Parser.parseReActAnswer response in
      if negb (Parser.falsy answer) then
        ret {| result := answer; stepError := None; stepUsages := usages |}
      else
        match Parser.parseReActAction response with
        | Some action =>
            observation <- Tools.executeTool (Parser.actionName action)
                                             (Parser.actionInput action) (apiKey o) ;;
            let messages :=
              (messages ++ [{| role := "assistant"; content := response |};
                            {| role := "user"; content := "Observation: " ++ observation |}])%list in
            stepTurns left' o messages usages
        | None =>
            ret {| result := Some response; stepError := None; stepUsages := usages |}
        end
  end.

Definition executeStep (stepText fullPlan : string) (o : Options) : M StepResult :=
  let messages :=
    [{| role := "system"; content := getExecutorSystem |};
     {| role := "user";
        content := "For the following plan:" ++ Tools.nl ++ fullPlan ++ Tools.nl ++ Tools.nl
                     ++ "Execute this step: " ++ stepText |}] in
  stepTurns 8 o messages [].

(** JS: "/DONE:\s*([\s\S]* )/" (no blank in the source) *)
Definition reDone : Regex.re :=
  Regex.Seqs [Regex.Str "DONE:"; Regex.Star true Parser.ws;
              Regex.Group 1 (Regex.Star true Parser.any)].

(** The plan the engine starts from. *)
Definition initialPlan (content : string) : list string :=
  let plan := Parser.parsePlanSteps content in
  if length plan =? 0 then [Js.trim content] else plan.

(** [result && !result.startsWith('[Error:')] *)
Definition usable (result : option string) : bool :=
  match result with
  | Some r => Js.truthy r && negb (Js.startsWith r "[Error:")
  | None => false
  end.

(** The last usable result, scanning from the most recent step. *)
Definition lastUsable (pastSteps : list (string * option string)) : option string :=
  match find (fun p => usable (snd p)) (rev pastSteps) with
  | Some p => snd p
  | None => None
  end.

Record Loop := {
  pastSteps : list (string * option string);
  replanCount : nat;
  finalAnswer : option string;
  usages : list Usage;
  llmCalls : nat
}.

(** The [while (plan.length > 0 && replanCount <= maxReplans)] loop, with
    [left = maxReplans + 1 - replanCount]. *)
Fixpoint planLoop (left : nat) (question planText : string) (o : Options)
         (plan : list string) (st : Loop) {struct left} : M Loop :=
  match left, plan with
  | O, _ => ret st
  | _, [] => ret st
  | S left', currentStep :: plan =>
      onStep "execute-start" [currentStep; Js.natToString (length (pastSteps st))] ;;;
      let fullPlanStr := numbered plan in
      execResult <- executeStep currentStep fullPlanStr o ;;
      let usages := (usages st ++ stepUsages execResult)%list in
      let llmCalls := llmCalls st + length (stepUsages execResult) in
      let stepOutput :=
        match stepError execResult with
        | Some err => if Js.truthy err then Some ("[Error: " ++ err ++ "]")
                      else result execResult
        | None => result execResult
        end in
      let pastSteps := (pastSteps st ++ [(currentStep, stepOutput)])%list in
      onStep "execute-done" [currentStep; shown stepOutput] ;;;
      let originalPlan := Parser.parsePlanSteps planText in
      let replanPrompt :=
        buildReplannerPrompt question
          (if 0 <? length originalPlan then originalPlan else [Js.trim planText])
          pastSteps in
      replanResult <- Llm.callLLM
                        [{| role := "system";
                            content := "You are a replanning agent. Evaluate progress and decide if the task is complete or needs more steps." |};
                         {| role := "user"; content := replanPrompt |}]
                        {| Llm.apiKey := apiKey o; Llm.model := model o;
                           Llm.temperature := 0%Q; Llm.maxTokens := 512;
                           Llm.signal := signal o |} ;;
      let usages := (usages ++ [Llm.usage replanResult])%list in
      let llmCalls := llmCalls + 1 in
      let replanResponse := Llm.content replanResult in
      match Regex.exec Regex.noFlags reDone replanResponse with
      | Some doneMatch =>
          let finalAnswer := Js.trim (Regex.group' 1 doneMatch) in
          onStep "done" [finalAnswer] ;;;
          ret {| pastSteps := pastSteps; replanCount := replanCount st;
                 finalAnswer := Some finalAnswer; usages := usages; llmCalls := llmCalls |}
      | None =>
          let newSteps := Parser.parsePlanSteps replanResponse in
          if 0 <? length newSteps then
            let replanCount := replanCount st + 1 in
            onStep "replan" (Js.natToString replanCount :: newSteps) ;;;
            planLoop left' question planText o newSteps
                     {| pastSteps := pastSteps; replanCount := replanCount;
                        finalAnswer := finalAnswer st; usages := usages;
                        llmCalls := llmCalls |}
          else
            let lastResult := stepOutput in
            let finalAnswer := if usable lastResult then lastResult else None in
            onStep "done" [shown finalAnswer] ;;;
            ret {| pastSteps := pastSteps; replanCount := replanCount st;
                   finalAnswer := finalAnswer; usages := usages; llmCalls := llmCalls |}
      end
  end.

Record PlanExecuteResult := {
  framework : string;
  planText : string;
  resultPastSteps : list (string * option string);
  replans : nat;
  answer : option string;
  error : option string;
  usage : Usage;
  resultLlmCalls : nat;
  timeMs : Z
}.

Definition noAnswerError : string :=
  "Plan-Execute did not produce a final answer within the allowed steps.".

Definition runPlanExecute (question : string) (o : Options) : M PlanExecuteResult :=
  startTime <- dateNow ;;
  planResult <- Llm.callLLM
                  [{| role := "system"; content := PLANNER_SYSTEM |};
                   {| role := "user"; content := question |}]
                  {| Llm.apiKey := apiKey o; Llm.model := model o;
                     Llm.temperature := 0%Q; Llm.maxTokens := 512;
                     Llm.signal := signal o |} ;;
  let plan := initialPlan (Llm.content planResult) in
  let planText := Llm.content planResult in
  onStep "plan" (planText :: plan) ;;;
  st <- planLoop (maxReplans o + 1) question planText o plan
          {| pastSteps := []; replanCount := 0; finalAnswer := None;
             usages := [Llm.usage planResult]; llmCalls := 1 |} ;;
  let finalAnswer :=
    if Parser.falsy (finalAnswer st) then
      match lastUsable (pastSteps st) with
      | Some r => Some r
      | None => finalAnswer st
      end
    else finalAnswer st in
  endTime <- dateNow ;;
  ret {| framework := "Plan-Execute"; planText := planText;
         resultPastSteps := pastSteps st; replans := replanCount st;
         answer := finalAnswer;
         error := if Parser.falsy finalAnswer then Some noAnswerError else None;
         usage := TokenCounter.sumUsage (usages st);
         resultLlmCalls := llmCalls st;
         timeMs := (endTime - startTime)%Z |}.

End PlanExecute.

(* ================================================================== *)
(** * The chat proxy ([api/chat.js])                                    *)
(* ================================================================== *)

Module ChatProxy.

(** A JSON value. *)
#[warnings="-register-all"]
Inductive Json : Type :=
| JNull
| JBool (b : bool)
| JNum (q : Q)
| JStr (s : string)
| JArr (l : list Json)
| JObj (o : list (string * Json)).

(** A value in a boolean context. *)
Definition truthy (v : Json) : bool :=
  match v with
  | JNull => false
  | JBool b => b
  | JNum q => negb (Qeq_bool q 0)
  | JStr s => Js.truthy s
  | JArr _ => true
  | JObj _ => true
  end.

(** The request as the handler reads it: [req.method] and [req.body]
    ([None] when there is no body). *)
Record Request := { method : string; body : option Json }.

(** What the handler sends back: [res.status(code).json(json)]. *)
Record Reply := { code : Z; json : Json }.

(** The request issued to the completions endpoint: the value put after
    "Bearer " in the Authorization header and the object serialized as
    the body. *)
Record Forwarded := { key : Json; payload : JsObj.t Json }.

(** How the exchange with the endpoint ends: [fetch] rejects, or it
    responds and [response.json()] gives the data or rejects. *)
Inductive Upstream : Type :=
| Unreachable (message : string)
| Answers (status : Z) (data : Json)
| Garbled (status : Z) (message : string).

Definition errorReply (code : Z) (message : string) : Reply :=
  {| code := code; json := JObj [("error", JObj [("message", JStr message)])] |}.

(** [const { apiKey, ...completionBody } = body] *)
Definition completionBody (o : JsObj.t Json) : JsObj.t Json :=
  filter (fun e => negb (String.eqb (fst e) "apiKey")) o.

(** The handler, with [parse] for [JSON.parse] ([None] when it throws) and
    [fetch] for the exchange with the endpoint; the second component lists the
    requests issued. *)
Definition handler (parse : string -> option Json) (fetch : Forwarded -> Upstream)
           (req : Request) : Reply * list Forwarded :=
  if negb (String.eqb (method req) "POST")
  then (errorReply 405 "Method not allowed", [])
  else
    let parsed :=
      match body req with
      | Some (JStr text) =>
          match parse text with
          | Some v => inr (Some v)
          | None => inl tt
          end
      | b => inr b
      end in
    match parsed with
    | inl _ => (errorReply 400 "Invalid JSON body", [])
    | inr body =>
        let object :=
          match body with
          | Some (JObj o) => Some o
          | Some (JArr _) => Some []        (* an array has no [apiKey] *)
          | _ => None
          end in
        match object with
        | None => (errorReply 400 "Missing request body", [])
        | Some o =>
            match JsObj.own o "apiKey" with
            | None => (errorReply 400 "API key is required", [])   (* [undefined] *)
            | Some apiKey =>
                if negb (truthy apiKey) then (errorReply 400 "API key is required", [])
                else
                  let request := {| key := apiKey; payload := completionBody o |} in
                  (match fetch request with
                   | Answers status data => {| code := status; json := data |}
                   | Unreachable message => errorReply 500 message
                   | Garbled _ message => errorReply 500 message
                   end, [request])
            end
        end
    end.

End ChatProxy.

(* ================================================================== *)
(** * Vocabulary of the statements                                      *)
(* ================================================================== *)

Module Spec.
Import Eff.

(** The signal is absent or its controller never aborts. *)
Definition NeverAborts (sg : option AbortSignal) : Prop :=
  forall t, abortedAt sg t = false.


(** The delays asked of the back-off waits recorded in a log. *)
Definition sleeps (l : list Event) : list Z :=
  flat_map (fun e => match e with Slept asked _ => [asked] | _ => [] end) l.

(** The options [runReAct] passes to [callLLM]. *)
Definition reactLlm (o : ReAct.Options) : Llm.Options :=
  {| Llm.apiKey := ReAct.apiKey o; Llm.model := ReAct.model o;
     Llm.temperature := 0%Q; Llm.maxTokens := 1024; Llm.signal := ReAct.signal o |}.

(** Every LLM call of the run resolves with a reply that holds a well-formed
    action and no "Answer:", and running that action returns. *)
Definition AlwaysActs (env : Env) (o : ReAct.Options) : Prop :=
  forall messages s,
  exists r s' a,
    Llm.callLLM messages (reactLlm o) env s = (Ok r, s')
    /\ Parser.parseReActAnswer (Llm.content r) = None
    /\ Parser.parseReActAction (Llm.content r) = Some a
    /\ forall s1, exists obs s2,
         Tools.executeTool (Parser.actionName a) (Parser.actionInput a)
                           (ReAct.apiKey o) env s1 = (Ok obs, s2).

(** A trajectory of acting turns, numbered from [turn + 1] on: for each
    turn the assistant entry with the reply, then the observation entry with
    the result of the tool. *)
Fixpoint ActingTurns (turn : nat) (trajectory : list ReAct.Entry) : Prop :=
  match trajectory with
  | [] => True
  | a :: ob :: rest =>
      ReAct.role a = "assistant" /\ ReAct.turn a = S turn
      /\ Parser.parseReActAction (ReAct.content a) <> None
      /\ ReAct.role ob = "observation" /\ ReAct.turn ob = S turn
      /\ ActingTurns (S turn) rest
  | [_] => False
  end.

(** One round of tallying an original form:
    [originals[x] = (originals[x] || 0) + 1]. *)
Definition tallyStep (o : JsObj.t CoT.Tally) (x : string) : JsObj.t CoT.Tally :=
  JsObj.set o x (CoT.tallyPlus (JsObj.get o x) (CoT.Num 1)).

(** The tally of a property, read as a number. *)
Definition tallyOf (o : JsObj.t CoT.Tally) (x : string) : Z :=
  match JsObj.own o x with
  | Some (CoT.Num c) => c
  | _ => 0%Z
  end.

Definition Counted (o : JsObj.t CoT.Tally) : Prop :=
  NoDup (map fst o)
  /\ forall x v, JsObj.own o x = Some v -> exists c, v = CoT.Num c /\ (0 < c)%Z.

(** [d] is one of the most frequent members of [l]. *)
Definition MostFrequent (d : string) (l : list string) : Prop :=
  In d l /\ forall x, count_occ string_dec l x <= count_occ string_dec l d.

(** The options [runCoT] passes to [callLLM] for a sample. *)
Definition sampleLlm (o : CoT.Options) : Llm.Options :=
  {| Llm.apiKey := CoT.apiKey o; Llm.model := CoT.model o;
     Llm.temperature := CoT.temperature o; Llm.maxTokens := 512;
     Llm.signal := CoT.signal o |}.

(** The messages of a sampling call. *)
Definition sampleMessages (question : string) (o : CoT.Options) : list Message :=
  [CoT.systemMessage;
   {| role := "user"; content := CoT.buildPrompt question (CoT.mode o) |}].

(** A path whose extracted answer is non-null and normalizes to [nk]. *)
Definition PathAgrees (nk : string) (path : string) : Prop :=
  exists a, Parser.extractAnswer path = Some a /\ CoT.basicNormalize a = nk.

(** Every sampling request, whatever its rank among the requests, is
    answered at once by a completion whose text is such a path.  No sampling
    call is then retried, and the calls, which the code fires together, each
    issue one request, in the order of the samples. *)
Definition Unanimous (env : Env) (o : CoT.Options) (question nk : string) : Prop :=
  forall n,
  exists tk st data choice msg,
    chatApi env n (Llm.chatRequest (sampleMessages question o) (sampleLlm o))
    = {| took := tk;
         outcome := Responds {| ok := true; status := st; payload := Parsed data |} |}
    /\ choice0 data = Some choice /\ message choice = Some msg
    /\ PathAgrees nk (msgContent msg).

(** The classifier finds the question factual whenever it is asked: by its
    heuristic, by the LLM it falls back to, or by default. *)
Definition ClassifiedFactual (env : Env) (question : string) (o : CoT.Options) : Prop :=
  forall s c s',
    Classifier.classifyQuestionSmart question (CoT.apiKey o) (CoT.model o) (CoT.signal o)
                                     env s = (Ok c, s') ->
    Classifier.type c = Classifier.Factual.

(** The options [runPlanExecute] passes to [callLLM]. *)
Definition planExecLlm (o : PlanExecute.Options) : Llm.Options :=
  {| Llm.apiKey := PlanExecute.apiKey o; Llm.model := PlanExecute.model o;
     Llm.temperature := 0%Q; Llm.maxTokens := 512;
     Llm.signal := PlanExecute.signal o |}.

(** Every LLM call of the run resolves, and an action found in a reply
    names a tool that returns. *)
Definition Responsive (env : Env) (o : PlanExecute.Options) : Prop :=
  forall messages s,
  exists r s',
    Llm.callLLM messages (planExecLlm o) env s = (Ok r, s')
    /\ forall a, Parser.parseReActAction (Llm.content r) = Some a ->
                 forall s1, exists obs s2,
                   Tools.executeTool (Parser.actionName a) (Parser.actionInput a)
                                     (PlanExecute.apiKey o) env s1 = (Ok obs, s2).

(** The guard of [calculate]: [sanitized !== expression.trim()]. *)
Definition rejected (expression : string) : bool :=
  negb (String.eqb
          (Regex.replaceAll Regex.noFlags
             (Regex.Class (fun c => negb (Tools.allowedChar c))) "" expression)
          (Js.trim expression)).

(** The first pattern of [extractAnswer] as the specification words it:
    case-insensitive as a whole. *)
Definition matchAnswerIsSpec (text : string) : option string :=
  match Regex.exec Regex.flagIM Parser.reAnswerIs text with
  | Some mt =>
      Some (Js.trim (Regex.replaceAll Regex.noFlags (Regex.Char ",") ""
                                      (Regex.group' 1 mt)))
  | None => None
  end.

(** [extractAnswer] with that reading of its first pattern. *)
Definition extractAnswerSpec (text : string) : option string :=
  if negb (Js.truthy text) then None
  else
    let answer := matchAnswerIsSpec text in
    let answer := Parser.unlessSet answer (Parser.matchHash text) in
    let answer := Parser.unlessSet answer (Parser.matchConclusion text) in
    let answer := Parser.unlessSet answer (Parser.matchAnswerLabel text) in
    match answer with
    | None => None
    | Some a => if Js.truthy a then Parser.cleanAnswer a else None
    end.

(** The options the ReWOO worker passes to [callLLM] for an LLM step. *)
Definition workerLlm (o : ReWOO.Options) : Llm.Options :=
  {| Llm.apiKey := ReWOO.apiKey o; Llm.model := ReWOO.model o;
     Llm.temperature := 0%Q; Llm.maxTokens := 512; Llm.signal := ReWOO.signal o |}.

(** [t] is what is left of [l] after a prefix. *)
Definition Suffix (t l : list ascii) : Prop := exists pre, l = (pre ++ t)%list.

(** The matcher state reached from [s] by passing the characters [l],
    which [rest] follows. *)
Definition advance (s : Regex.MState) (l rest : list ascii) : Regex.MState :=
  {| Regex.before := (rev l ++ Regex.before s)%list; Regex.after := rest;
     Regex.caps := Regex.caps s |}.

(** [Matches fl r s s']: the pattern [r] can take the matcher from [s] to
    [s'], whatever the order in which alternatives are tried. *)
Inductive Matches (fl : Regex.Flags) : Regex.re -> Regex.MState -> Regex.MState -> Prop :=
| MEmpty s : Matches fl Regex.Empty s s
| MChar p c t s :
    Regex.after s = c :: t -> Regex.charEq fl p c = true ->
    Matches fl (Regex.Char p) s (advance s [c] t)
| MClass ok c t s :
    Regex.after s = c :: t -> ok c = true ->
    Matches fl (Regex.Class ok) s (advance s [c] t)
| MSeq r1 r2 s s1 s2 :
    Matches fl r1 s s1 -> Matches fl r2 s1 s2 -> Matches fl (Regex.Seq r1 r2) s s2
| MAltL r1 r2 s s' : Matches fl r1 s s' -> Matches fl (Regex.Alt r1 r2) s s'
| MAltR r1 r2 s s' : Matches fl r2 s s' -> Matches fl (Regex.Alt r1 r2) s s'
| MStarEnd g r s : Matches fl (Regex.Star g r) s s
| MStarMore g r s s1 s2 :
    Matches fl r s s1 -> Matches fl (Regex.Star g r) s1 s2 ->
    Matches fl (Regex.Star g r) s s2
| MGroup i r s s' :
    Matches fl r s s' ->
    Matches fl (Regex.Group i r) s
            {| Regex.before := Regex.before s'; Regex.after := Regex.after s';
               Regex.caps := Regex.setCap i (Regex.between s s') (Regex.caps s') |}
| MBol s : Regex.atBol fl s = true -> Matches fl Regex.Bol s s
| MEol s : Regex.atEol fl s = true -> Matches fl Regex.Eol s s
| MWordB s : Regex.atWordB s = true -> Matches fl Regex.WordB s s
| MAhead r s s' :
    Matches fl r s s' ->
    Matches fl (Regex.Ahead r) s
            {| Regex.before := Regex.before s; Regex.after := Regex.after s;
               Regex.caps := Regex.caps s' |}.

(** A pattern without capturing groups. *)
Fixpoint groupFree (r : Regex.re) : bool :=
  match r with
  | Regex.Seq r1 r2 | Regex.Alt r1 r2 => groupFree r1 && groupFree r2
  | Regex.Star _ r1 | Regex.Ahead r1 => groupFree r1
  | Regex.Group _ _ => false
  | _ => true
  end.

(** The text that follows the first occurrence of [pat] in [l]. *)
Fixpoint afterFirst (pat l : list ascii) : option (list ascii) :=
  if Js.startsWithL pat l then Some (skipn (length pat) l)
  else match l with
       | [] => None
       | _ :: t => afterFirst pat t
       end.




(** A body from which [callLLM] reads no completion:
    [!data.choices?.[0]?.message]. *)
Definition noCompletion (p : Payload ChatData) : bool :=
  match p with
  | Parsed data =>
      match choice0 data with
      | Some choice => match message choice with Some _ => false | None => true end
      | None => true
      end
  | ErrorBody _ => true
  | Unparseable => false
  end.

(** The answer of the web search endpoint that [openaiWebSearch] returns
    as it is: a success response whose first choice has a non-empty content. *)
Definition webContent (out : FetchOutcome (option string)) : option string :=
  match out with
  | Responds r =>
      if ok r then
        match payload r with
        | Parsed (Some content) => if Js.truthy content then Some content else None
        | _ => None
        end
      else None
  | Rejects _ => None
  end.

(** The extract that the Wikipedia tool puts before the snippets: the one
    of the summary response, when it has more than 20 characters. *)
Definition summaryExtract (out : FetchOutcome (option string)) : option string :=
  match out with
  | Responds r =>
      match payload r with
      | Parsed (Some extract) =>
          if Js.truthy extract && (20 <? String.length extract) then Some extract else None
      | _ => None
      end
  | Rejects _ => None
  end.

(** The largest count up to which the additions of the code, made on
    doubles, are exact: 2^53. *)
Definition MAX_EXACT : Z := 2 ^ 53.

(** Usage records the integer model is exact for: every count is a natural
    number (an absent count being 0, as [|| 0] reads it) and the counts of
    each kind add up to at most 2^53. *)
Definition Countable (l : list Usage) : Prop :=
  Forall (fun u => (0 <= prompt_tokens u)%Z /\ (0 <= completion_tokens u)%Z
                   /\ (0 <= total_tokens u)%Z) l
  /\ (fold_right Z.add 0 (map prompt_tokens l) <= MAX_EXACT)%Z
  /\ (fold_right Z.add 0 (map completion_tokens l) <= MAX_EXACT)%Z
  /\ (fold_right Z.add 0 (map total_tokens l) <= MAX_EXACT)%Z.

(** A usage whose counts are between 0 and 2^53. *)
Definition inRange (u : Usage) : Prop :=
  (0 <= prompt_tokens u <= MAX_EXACT)%Z
  /\ (0 <= completion_tokens u <= MAX_EXACT)%Z
  /\ (0 <= total_tokens u <= MAX_EXACT)%Z.

(** The votes held by a table of groups. *)
Definition votes (groups : JsObj.t CoT.VoteGroup) : Z :=
  fold_right (fun e acc => (CoT.count (snd e) + acc)%Z) 0%Z groups.

(** A table of groups that holds [n] votes, at least one in each group. *)
Definition Tallied (groups : JsObj.t CoT.VoteGroup) (n : Z) : Prop :=
  votes groups = n
  /\ Forall (fun e => (1 <= CoT.count (snd e))%Z) groups
  /\ ~ In "__proto__" (map fst groups).

(** A trajectory that is empty or ends with an observation or with a reply
    in which no answer was found. *)
Definition Unanswered (trajectory : list ReAct.Entry) : Prop :=
  trajectory = []
  \/ exists pre e,
       trajectory = (pre ++ [e])%list
       /\ (ReAct.role e = "observation"
           \/ Parser.falsy (Parser.parseReActAnswer (ReAct.content e)) = true).

(** Every LLM call of the run resolves with a reply that holds neither an
    answer nor a well-formed action. *)
Definition NeverFormats (env : Env) (o : ReAct.Options) : Prop :=
  forall messages s,
  exists r s',
    Llm.callLLM messages (reactLlm o) env s = (Ok r, s')
    /\ Parser.falsy (Parser.parseReActAnswer (Llm.content r)) = true
    /\ Parser.parseReActAction (Llm.content r) = None.

(** What an executed step contributes to the list of past steps: the error
    of the step in brackets, or its result. *)
Definition outputOf (r : PlanExecute.StepResult) : option string :=
  match PlanExecute.stepError r with
  | Some err => if Js.truthy err then Some ("[Error: " ++ err ++ "]")
                else PlanExecute.result r
  | None => PlanExecute.result r
  end.

End Spec.

(* ================================================================== *)
(** * Concrete runs                                                     *)
(* ================================================================== *)

Module Scenario.
Import Eff.

Definition s0 : State := {| now := 0; fetches := 0; log := [] |}.

(** A peer that cannot be reached. *)
Definition unreachable {B} : NetReply B :=
  {| took := 1; outcome := Rejects (TypeError "Failed to fetch") |}.

(** A chat completion with the given content. *)
Definition completes (content : string) : NetReply ChatData :=
  {| took := 5;
     outcome :=
       Responds {| ok := true; status := 200;
                   payload := Parsed {| choice0 := Some {| message := Some {| msgContent := content |};
                                                           finish_reason := "stop" |};
                                        data_usage := None |} |} |}.


(** An evaluator that knows one expression and finds a syntax error in
    every other text. *)
Definition demoEval (src : string) : Completion :=
  if String.eqb src (Tools.dq ++ "use strict" ++ Tools.dq ++ "; return (2 * 3 + 4)")
  then Returns "10"
  else Throws "Unexpected token ')'".

Definition envWith (chat : nat -> ChatRequest -> NetReply ChatData) : Env :=
  {| chatApi := chat;
     wikiSearchApi := fun _ _ => unreachable;
     wikiSummaryApi := fun _ _ => unreachable;
     webSearchApi := fun _ _ _ => unreachable;
     evalFunction := demoEval;
     dateText := fun _ => "2026-01-01T00:00:00.000Z" |}.

Definition offline : Env := envWith (fun _ _ => unreachable).

Definition llmOptions (signal : option AbortSignal) : Llm.Options :=
  {| Llm.apiKey := "sk-demo"; Llm.model := "gpt-4o-mini"; Llm.temperature := 0%Q;
     Llm.maxTokens := 1024; Llm.signal := signal |}.


(** A model that always asks for the calculator. *)
Definition actionReply : string :=
  "Thought: I should compute." ++ Tools.nl ++ "Action: calculate: 2 * 3 + 4"
    ++ Tools.nl ++ "PAUSE".
Definition acting : Env := envWith (fun _ _ => completes actionReply).

Definition reactOptions (maxTurns : nat) : ReAct.Options :=
  {| ReAct.apiKey := "sk-demo"; ReAct.model := "gpt-4o-mini";
     ReAct.maxTurns := maxTurns; ReAct.signal := None |}.

(** Paths that agree on "paris", and paths that end in a bare mark. *)
Definition agreeing : Env :=
  envWith (fun n _ => completes (if n =? 0 then "Paris is the capital. The answer is Paris."
                                 else "The answer is paris")).
Definition marks : Env :=
  envWith (fun n _ => completes (if n =? 0 then "The answer is !" else "The answer is ?")).

Definition cotOptions (nSamples : nat) : CoT.Options :=
  {| CoT.apiKey := "sk-demo"; CoT.model := "gpt-4o-mini"; CoT.nSamples := nSamples;
     CoT.temperature := (7 # 10)%Q; CoT.mode := "few-shot"; CoT.signal := None |}.

(** A planner that writes prose. *)
Definition musing : Env := envWith (fun _ _ => completes "  think it through  ").
(** A model that says nothing. *)
Definition silent : Env := envWith (fun _ _ => completes "").

Definition planOptions : PlanExecute.Options :=
  {| PlanExecute.apiKey := "sk-demo"; PlanExecute.model := "gpt-4o-mini";
     PlanExecute.maxReplans := 20; PlanExecute.signal := None |}.

Definition rewooOptions : ReWOO.Options :=
  {| ReWOO.apiKey := "sk-demo"; ReWOO.model := "gpt-4o-mini"; ReWOO.signal := None |}.

Definition brokenSum : Parser.PlanStep :=
  {| Parser.description := "Add the numbers."; Parser.variable := "#E1";
     Parser.tool := "calculate"; Parser.toolInput := "2 +" |}.


(** A success response that holds no completion. *)
Definition hollow : Env :=
  envWith (fun _ _ =>
             {| took := 5;
                outcome := Responds {| ok := true; status := 200;
                                       payload := Parsed {| choice0 := None;
                                                            data_usage := None |} |} |}).

(** A Wikipedia whose search finds one page and whose summaries cannot
    be fetched. *)
Definition hit : WikiHit :=
  {| title := "Paris"; snippet := "<span>Paris</span> is the capital of France." |}.
Definition encyclopedic : Env :=
  {| chatApi := fun _ _ => unreachable;
     wikiSearchApi := fun _ _ =>
                        {| took := 3;
                           outcome := Responds {| ok := true; status := 200;
                                                  payload := Parsed [hit] |} |};
     wikiSummaryApi := fun _ _ => unreachable;
     webSearchApi := fun _ _ _ => unreachable;
     evalFunction := demoEval;
     dateText := fun _ => "2026-01-01T00:00:00.000Z" |}.

(** A planner that asks for one calculation, then a solver. *)
Definition rewooPlan : string :=
  "Plan: Compute the product and the sum. #E1 = calculate[2 * 3 + 4]".



(** A planner that uses one variable for two steps. *)
Definition repeatedPlan : string :=
  "Plan: Compute the product and the sum. #E1 = calculate[2 * 3 + 4]" ++ Tools.nl
    ++ "Plan: Add the rest. #E1 = calculate[2 +]".
Definition repeating : Env :=
  envWith (fun n _ => completes (if n =? 0 then repeatedPlan else "10")).

(** A Wikipedia whose search finds one page and whose summaries carry an
    extract. *)
Definition parisExtract : string :=
  "Paris is the capital and most populous city of France.".
Definition summarized : Env :=
  {| chatApi := fun _ _ => unreachable;
     wikiSearchApi := fun _ _ =>
                        {| took := 3;
                           outcome := Responds {| ok := true; status := 200;
                                                  payload := Parsed [hit] |} |};
     wikiSummaryApi := fun _ _ =>
                         {| took := 2;
                            outcome := Responds {| ok := true; status := 200;
                                                   payload := Parsed (Some parisExtract) |} |};
     webSearchApi := fun _ _ _ => unreachable;
     evalFunction := demoEval;
     dateText := fun _ => "2026-01-01T00:00:00.000Z" |}.

End Scenario.

(* ================================================================== *)
(** * Properties of the LLM client                                      *)
(* ================================================================== *)

Section LlmClient.
Import Eff.
Import Llm.
Import Spec.

Lemma sleeps_app (l1 l2 : list Event) : sleeps (l1 ++ l2) = (sleeps l1 ++ sleeps l2)%list.
Proof. unfold sleeps. now rewrite flat_map_app. Qed.

Lemma wakeTime_never (sg : option AbortSignal) (t d : Z) :
  NeverAborts sg -> (0 <= d)%Z -> wakeTime sg t d = (t + d)%Z.
Proof.
  intros Hn Hd. unfold wakeTime.
  destruct sg as [[[t0|]]|]; auto.
  specialize (Hn t0). cbn in Hn. apply Z.leb_gt in Hn. lia.
Qed.

Lemma backoffDelay_pos (attempt : nat) : 0 < attempt -> (0 < backoffDelay attempt)%Z.
Proof.
  intros H. unfold backoffDelay, BASE_DELAY_MS.
  assert (0 < 2 ^ (Z.of_nat attempt - 1))%Z by (apply Z.pow_pos_nonneg; lia). lia.
Qed.

(** A call whose first request is answered by a completion returns it. *)
Lemma callLLM_first_reply (env : Env) (s : State) (messages : list Message)
      (o : Options) (text : string) (tk : Z) :
  abortedAt (signal o) (now s) = false ->
  chatApi env (fetches s) (chatRequest messages o)
  = {| took := tk;
       outcome :=
         Responds {| ok := true; status := 200;
                     payload := Parsed {| choice0 := Some {| message := Some {| msgContent := text |};
                                                             finish_reason := "stop" |};
                                          data_usage := None |} |} |} ->
  callLLM messages o env s
  = (Ok {| content := text; finishReason := "stop"; usage := zeroUsage |},
     {| now := (now s + tk)%Z; fetches := S (fetches s);
        log := (log s ++ [Requested (fetches s) "/api/chat"])%list |}).
Proof.
  intros Ha Hr. unfold callLLM. change (MAX_RETRIES + 1) with (S MAX_RETRIES).
  cbn [attemptsFrom].
  generalize (attemptsFrom MAX_RETRIES 1); intros next.
  unfold bind at 1. unfold aborted at 1. rewrite Ha.
  change (0 <? 0) with false. cbv iota.
  unfold bind, ret, caught, exchange. rewrite Hr.
  cbn [outcome took ok payload]. unfold readCompletion.
  cbn [payload choice0 message finish_reason data_usage msgContent].
  reflexivity.
Qed.






(** C8. An iteration of [callLLM] that finds the signal aborted when it
    starts, or whose back-off wait the abort falls into, throws the
    AbortError without issuing a request: the wait ends at the abort and
    no later attempt is made. *)
Theorem callLLM_cancellation
        (left attempt : nat) (lastError : Exn) (messages : list Message)
        (o : Options) (env : Env) (s : State) :
  abortedAt (signal o) (now s) = true
  \/ (0 < attempt /\ abortedAt (signal o) (now s + backoffDelay attempt) = true) ->
  exists s',
    attemptsFrom (S left) attempt lastError messages o env s = (Throw AbortError, s')
    /\ fetches s' = fetches s
    /\ (log s' = log s \/ exists asked actual, log s' = (log s ++ [Slept asked actual])%list)
    /\ abortedAt (signal o) (now s') = true
    /\ (forall t, signal o = Some {| abortsAt := Some t |} -> now s' = Z.max (now s) t).
Proof.
  intros H. cbn [attemptsFrom].
  generalize (attemptsFrom left (S attempt)); intros next.
  unfold bind at 1. unfold aborted at 1.
  destruct (abortedAt (signal o) (now s)) eqn:Hnow.
  - exists s. unfold throw. repeat split; auto.
    intros t Hs. rewrite Hs in Hnow. cbn in Hnow. apply Z.leb_le in Hnow. lia.
  - destruct H as [H|[Ha Hdue]]; [discriminate|].
    pose proof (backoffDelay_pos attempt Ha) as Hpos.
    apply Nat.ltb_lt in Ha. rewrite Ha.
    unfold bind, backoffWait, aborted, throw; cbn -[backoffDelay].
    destruct (signal o) as [[[t|]]|] eqn:Hs; cbn -[backoffDelay] in Hnow, Hdue;
      try discriminate.
    apply Z.leb_gt in Hnow. apply Z.leb_le in Hdue.
    unfold wakeTime; cbn -[backoffDelay].
    destruct ((now s <? t)%Z && (t <? now s + backoffDelay attempt)%Z) eqn:Hw;
      cbn -[backoffDelay].
    + rewrite Z.leb_refl. eexists; split; [reflexivity|]. cbn -[backoffDelay].
      repeat split; eauto.
      * now rewrite Z.leb_refl.
      * intros t' Ht'. inversion Ht'; subst t'.
        apply andb_true_iff in Hw. destruct Hw as [Hw _]. apply Z.ltb_lt in Hw.
        lia.
    + assert (t = now s + backoffDelay attempt)%Z as Ht.
      { apply andb_false_iff in Hw. destruct Hw as [Hw|Hw];
          [apply Z.ltb_ge in Hw | apply Z.ltb_ge in Hw]; lia. }
      assert ((t <=? now s + backoffDelay attempt)%Z = true) as Hle by (apply Z.leb_le; lia).
      rewrite Hle. eexists; split; [reflexivity|]. cbn -[backoffDelay].
      repeat split; eauto.
      intros t' Ht'. inversion Ht'; subst t'. lia.
Qed.

End LlmClient.

(* ================================================================== *)
(** * Properties of the ReAct engine                                    *)
(* ================================================================== *)

Section ReActEngine.
Import Eff.
Import Spec.

Lemma bind_ok {A B} (c : M A) (k : A -> M B) (env : Env) (s s' : State) (a : A) :
  c env s = (Ok a, s') -> bind c k env s = k a env s'.
Proof. intros H. unfold bind. now rewrite H. Qed.

Lemma bind_onStep {B} (phase : string) (data : list string) (k : unit -> M B)
      (env : Env) (s : State) :
  bind (onStep phase data) k env s
  = k tt env {| now := now s; fetches := fetches s;
                log := log s ++ [Progress phase data] |}.
Proof. reflexivity. Qed.

Lemma turnsFrom_always_acts (env : Env) (o : ReAct.Options) (startTime : Z) :
  AlwaysActs env o ->
  forall (left turn : nat) (messages : list Message) (trajectory : list ReAct.Entry)
         (usages : list Usage) (s : State),
  exists r s',
    ReAct.turnsFrom left o startTime turn messages trajectory usages env s = (Ok r, s')
    /\ ReAct.truncated r = true
    /\ ReAct.turns r = turn + left
    /\ ReAct.llmCalls r = turn + left
    /\ length (ReAct.trajectory r) = length trajectory + 2 * left
    /\ exists more, ReAct.trajectory r = (trajectory ++ more)%list /\ ActingTurns turn more.
Proof.
  intros H. induction left as [|left IH]; intros turn messages trajectory usages s.
  - cbn [ReAct.turnsFrom]. unfold ReAct.exceeded, bind, dateNow, ret.
    do 2 eexists. split; [reflexivity|]. cbn [ReAct.truncated ReAct.turns ReAct.llmCalls
                                               ReAct.trajectory].
    split; [reflexivity|]. split; [lia|]. split; [lia|]. split; [lia|].
    exists []. rewrite app_nil_r. split; [reflexivity|exact I].
  - cbn [ReAct.turnsFrom].
    destruct (H messages s) as (r & s1 & a & Hcall & Hans & Hact & Htool).
    unfold reactLlm in Hcall. rewrite (bind_ok _ _ _ _ _ _ Hcall).
    rewrite bind_onStep, Hans. cbn [Parser.falsy negb]. rewrite Hact.
    rewrite bind_onStep.
    match goal with
    | |- context [Tools.executeTool _ _ _] =>
        match goal with
        | |- exists r s', bind _ _ _ ?s2 = _ /\ _ =>
            destruct (Htool s2) as (obs & s3 & Hobs)
        end
    end.
    rewrite (bind_ok _ _ _ _ _ _ Hobs). rewrite bind_onStep.
    match goal with
    | |- exists r s', ReAct.turnsFrom _ _ _ _ ?m ?t ?u _ ?s4 = _ /\ _ =>
        destruct (IH (S turn) m t u s4) as (r' & s' & E & T & N & C & L & more & Et & A)
    end.
    exists r', s'. rewrite E.
    split; [reflexivity|]. split; [exact T|]. split; [lia|]. split; [lia|]. split.
    + rewrite L, !length_app. cbn. lia.
    + eexists. split; [rewrite Et, <- !app_assoc; reflexivity|].
      cbn [app ActingTurns ReAct.role ReAct.turn ReAct.content].
      rewrite Hact. repeat split; auto. discriminate.
Qed.

(** C2 (amended). When every LLM reply carries a well-formed action and no
    "Answer:", and the tool it names returns, [runReAct] ends after
    exactly [maxTurns] turns with [truncated: true], [llmCalls = maxTurns]
    and a trajectory of [2 * maxTurns] events: for each turn, in order, one
    assistant entry that holds the action and one observation entry, both
    numbered with the turn. *)
Theorem runReAct_always_acting
        (env : Env) (question : string) (o : ReAct.Options) (s : State) :
  AlwaysActs env o ->
  exists r s',
    ReAct.runReAct question o env s = (Ok r, s')
    /\ ReAct.truncated r = true
    /\ ReAct.turns r = ReAct.maxTurns o
    /\ ReAct.llmCalls r = ReAct.maxTurns o
    /\ length (ReAct.trajectory r) = 2 * ReAct.maxTurns o
    /\ ActingTurns 0 (ReAct.trajectory r).
Proof.
  intros H. unfold ReAct.runReAct, bind at 1, dateNow.
  destruct (turnsFrom_always_acts env o (now s) H (ReAct.maxTurns o) 0
              [{| role := "system"; content := ReAct.buildSystemPrompt |};
               {| role := "user"; content := question |}] [] [] s)
    as (r & s' & E & T & N & C & L & more & Et & A).
  exists r, s'. rewrite E. cbn [app] in Et. rewrite Et.
  split; [reflexivity|]. split; [exact T|]. split; [exact N|]. split; [exact C|].
  split; [rewrite <- Et; exact L|exact A].
Qed.

End ReActEngine.

(* ================================================================== *)
(** * Facts about objects used as maps                                  *)
(* ================================================================== *)

Section ObjectFacts.
Import JsObj.
Context {V : Type}.
Implicit Types (o : JsObj.t V) (k : string) (v : V).

Lemma own_update_same o k v : own (update o k v) k = Some v.
Proof.
  induction o as [|[k' v'] r IH]; cbn.
  - now rewrite String.eqb_refl.
  - destruct (String.eqb k k') eqn:E; cbn; rewrite E; auto.
Qed.

Lemma own_update_other o k k' v : k <> k' -> own (update o k' v) k = own o k.
Proof.
  intros Hk. induction o as [|[k0 v0] r IH]; cbn.
  - apply String.eqb_neq in Hk. now rewrite Hk.
  - destruct (String.eqb k' k0) eqn:E; cbn.
    + apply String.eqb_eq in E. subst k0.
      apply String.eqb_neq in Hk. now rewrite Hk.
    + now rewrite IH.
Qed.

Lemma keys_update o k v x :
  In x (map fst (update o k v)) <-> x = k \/ In x (map fst o).
Proof.
  induction o as [|[k0 v0] r IH]; cbn.
  - intuition.
  - destruct (String.eqb k k0) eqn:E; cbn.
    + apply String.eqb_eq in E. subst k0. intuition.
    + rewrite IH. intuition.
Qed.

Lemma NoDup_update o k v : NoDup (map fst o) -> NoDup (map fst (update o k v)).
Proof.
  induction o as [|[k0 v0] r IH]; cbn; intros H.
  - constructor; [intros []|constructor].
  - inversion H; subst. destruct (String.eqb k k0) eqn:E; cbn.
    + now constructor.
    + constructor; auto. rewrite keys_update. intros [->|Hin]; auto.
      now rewrite String.eqb_refl in E.
Qed.

Lemma NoDup_set o k v : NoDup (map fst o) -> NoDup (map fst (set o k v)).
Proof. unfold set. destruct (String.eqb k "__proto__"); auto using NoDup_update. Qed.

Lemma own_set_other o k k' v : k <> k' -> own (set o k' v) k = own o k.
Proof.
  unfold set. destruct (String.eqb k' "__proto__"); auto using own_update_other.
Qed.

Lemma own_set_same o k v : k <> "__proto__" -> own (set o k v) k = Some v.
Proof.
  intros H. unfold set. apply String.eqb_neq in H. rewrite H. apply own_update_same.
Qed.

Lemma keys_set o k v x :
  In x (map fst (set o k v)) -> x = k \/ In x (map fst o).
Proof.
  unfold set. destruct (String.eqb k "__proto__"); auto. apply keys_update.
Qed.

Lemma own_In o k v : own o k = Some v -> In (k, v) o.
Proof.
  induction o as [|[k0 v0] r IH]; cbn; [discriminate|].
  destruct (String.eqb k k0) eqn:E.
  - apply String.eqb_eq in E. subst. intros [= ->]. now left.
  - intros H. right. auto.
Qed.

Lemma In_own o k v : NoDup (map fst o) -> In (k, v) o -> own o k = Some v.
Proof.
  induction o as [|[k0 v0] r IH]; cbn; intros Hn Hin; [contradiction|].
  inversion Hn; subst. destruct Hin as [[= -> ->]|Hin].
  - now rewrite String.eqb_refl.
  - destruct (String.eqb k k0) eqn:E; auto.
    apply String.eqb_eq in E. subst. exfalso. apply H1.
    change k0 with (fst (k0, v)). now apply in_map.
Qed.

Lemma own_key o k v : own o k = Some v -> In k (map fst o).
Proof. intros H. apply own_In in H. change k with (fst (k, v)). now apply in_map. Qed.

Lemma insertByIndex_perm n (e : string * V) l :
  Permutation (insertByIndex n e l) ((n, e) :: l).
Proof.
  induction l as [|[n' e'] r IH]; cbn; auto.
  destruct (n <? n')%N; auto.
  rewrite IH. apply perm_swap.
Qed.

Lemma entries_perm o : Permutation (entries o) o.
Proof.
  unfold entries. induction o as [|[k v] r IH]; cbn; auto.
  destruct (arrayIndex k) as [n|]; cbn.
  - rewrite insertByIndex_perm. cbn. now constructor.
  - rewrite <- Permutation_middle. now constructor.
Qed.

Lemma keys_In o k : In k (keys o) <-> In k (map fst o).
Proof.
  unfold keys. split; apply Permutation_in; [|symmetry];
    apply Permutation_map, entries_perm.
Qed.

End ObjectFacts.

(* ================================================================== *)
(** * Properties of the answer aggregator                               *)
(* ================================================================== *)

Section Aggregator.
Import Eff.
Import CoT.
Import Spec.

Lemma areSimilar_short (a b : string) :
  a <> b -> String.length a < 2 \/ String.length b < 2 -> areSimilar a b = false.
Proof.
  intros Hne Hlen. unfold areSimilar.
  apply String.eqb_neq in Hne. rewrite Hne.
  destruct Hlen as [H|H]; apply Nat.ltb_lt in H; rewrite H, ?orb_true_r; reflexivity.
Qed.

Lemma insertByCount_perm e l : Permutation (insertByCount e l) (e :: l).
Proof.
  induction l as [|e' r IH]; cbn; auto.
  destruct (byCountDesc e e' <=? 0)%Z; auto.
  rewrite IH. apply perm_swap.
Qed.

Lemma sortByCount_perm l : Permutation (sortByCount l) l.
Proof.
  unfold sortByCount. induction l as [|e r IH]; cbn; auto.
  rewrite insertByCount_perm. now constructor.
Qed.

Lemma tallyInto_NoDup groups key original groups' :
  tallyInto groups key original = Ok groups' ->
  NoDup (map fst groups) -> NoDup (map fst groups').
Proof.
  unfold tallyInto. destruct (JsObj.get groups key); intros [= <-] H;
    now apply NoDup_set.
Qed.

Lemma groupEntries_NoDup keyOf entries :
  forall groups groups',
    groupEntries keyOf entries groups = Ok groups' ->
    NoDup (map fst groups) -> NoDup (map fst groups').
Proof.
  induction entries as [|e r IH]; cbn; intros groups groups' H Hn.
  - now injection H as <-.
  - destruct (tallyInto groups (keyOf e) (original e)) as [g1|] eqn:E; [|discriminate].
    eapply IH; eauto. eapply tallyInto_NoDup; eauto.
Qed.

(** The keys kept by a merge round are old keys or the key at hand. *)
Lemma mergeOne_keys merged e x :
  In x (map fst (mergeOne merged e)) -> x = fst e \/ In x (map fst merged).
Proof.
  unfold mergeOne.
  destruct (find _ (JsObj.keys merged)) as [c|] eqn:F.
  - destruct (Js.truthy c).
    + destruct (JsObj.own merged c) as [g|] eqn:O; auto.
      intros H. apply keys_set in H. destruct H as [->|H]; auto.
      right. eapply own_key; eauto.
    + apply keys_set.
  - apply keys_set.
Qed.

(** A key of fewer than two characters that is new starts a group of its own. *)
Lemma mergeOne_short_new merged k g :
  String.length k < 2 -> ~ In k (map fst merged) ->
  JsObj.own (mergeOne merged (k, g)) k = Some g.
Proof.
  intros Hlen Hnew. unfold mergeOne. cbn [fst snd].
  assert (Hp : k <> "__proto__") by (intros ->; cbn in Hlen; lia).
  destruct (find _ (JsObj.keys merged)) as [c|] eqn:F.
  - apply find_some in F. destruct F as [Hin Hsim].
    apply (proj1 (keys_In _ _)) in Hin.
    destruct (string_dec k c) as [E|Hne]; [subst c; contradiction|].
    rewrite areSimilar_short in Hsim by auto. discriminate.
  - now apply own_set_same.
Qed.

(** Nothing merges into a kept key of fewer than two characters. *)
Lemma mergeOne_short_kept merged e k g :
  String.length k < 2 -> fst e <> k ->
  JsObj.own merged k = Some g ->
  JsObj.own (mergeOne merged e) k = Some g.
Proof.
  intros Hlen Hne Hown. unfold mergeOne.
  destruct (find _ (JsObj.keys merged)) as [c|] eqn:F.
  - apply find_some in F. destruct F as [Hin Hsim].
    assert (c <> k).
    { intros ->. rewrite areSimilar_short in Hsim by auto. discriminate. }
    destruct (Js.truthy c).
    + destruct (JsObj.own merged c); auto.
      rewrite own_set_other; auto.
    + rewrite own_set_other; auto.
  - rewrite own_set_other; auto.
Qed.

Lemma fold_mergeOne_keys l :
  forall merged x,
    In x (map fst (fold_left mergeOne l merged)) ->
    In x (map fst l) \/ In x (map fst merged).
Proof.
  induction l as [|e r IH]; cbn; intros merged x H; auto.
  apply IH in H. destruct H as [H|H]; auto.
  apply mergeOne_keys in H. intuition.
Qed.

Lemma fold_mergeOne_short_kept l :
  forall merged k g,
    String.length k < 2 -> ~ In k (map fst l) ->
    JsObj.own merged k = Some g ->
    JsObj.own (fold_left mergeOne l merged) k = Some g.
Proof.
  induction l as [|e r IH]; cbn; intros merged k g Hlen Hnot Hown; auto.
  apply IH; auto. apply mergeOne_short_kept; auto.
Qed.

(** C9. Two different keys of which one has fewer than two characters are
    never similar, and in the substring-merge step a group whose key has
    fewer than two characters comes out as it went in: nothing is merged
    into it and it is merged into nothing. *)
Theorem short_keys_never_merge
        (entries : list Entry) (normGroups : JsObj.t VoteGroup)
        (k : string) (g : VoteGroup) :
  groupEntries groupKey entries [] = Ok normGroups ->
  JsObj.own normGroups k = Some g ->
  String.length k < 2 ->
  JsObj.own (mergeGroups normGroups) k = Some g
  /\ forall k', k' <> k -> areSimilar k k' = false /\ areSimilar k' k = false.
Proof.
  intros Hgroups Hown Hlen. split.
  - assert (Hnd : NoDup (map fst normGroups)).
    { eapply groupEntries_NoDup; eauto. constructor. }
    unfold mergeGroups.
    set (L := sortByCount (JsObj.entries normGroups)).
    assert (HP : Permutation L normGroups).
    { unfold L. rewrite sortByCount_perm. apply entries_perm. }
    assert (HndL : NoDup (map fst L)).
    { eapply Permutation_NoDup; [|exact Hnd]. symmetry. now apply Permutation_map. }
    assert (HinL : In (k, g) L).
    { eapply Permutation_in; [symmetry; exact HP|]. now apply own_In. }
    apply in_split in HinL. destruct HinL as (L1 & L2 & EL).
    rewrite EL in HndL |- *. rewrite map_app in HndL. cbn in HndL.
    apply NoDup_remove_2 in HndL.
    rewrite fold_left_app. cbn [fold_left].
    apply fold_mergeOne_short_kept; auto.
    + intros H. apply HndL, in_or_app. now right.
    + apply mergeOne_short_new; auto.
      intros H. apply fold_mergeOne_keys in H. cbn in H.
      destruct H as [H|[]]. apply HndL, in_or_app. now left.
  - intros k' Hne. split; apply areSimilar_short; auto.
Qed.


(** ** Unanimous votes *)

Lemma lowerChar_not_upper (c : ascii) : Js.isUpper (Js.lowerChar c) = false.
Proof. destruct c as [[] [] [] [] [] [] [] []]; reflexivity. Qed.

Lemma toLowerCase_no_upper (s : string) :
  forallb (fun c => negb (Js.isUpper c)) (Js.chars (Js.toLowerCase s)) = true.
Proof.
  unfold Js.toLowerCase, Js.chars, Js.str.
  rewrite list_ascii_of_string_of_list_ascii.
  induction (list_ascii_of_string s) as [|c r IH]; cbn [map forallb]; auto.
  now rewrite lowerChar_not_upper, IH.
Qed.

(** A lower-cased answer that names a member of Object.prototype is one of
    two names, and normalization leaves both as they are. *)
Lemma inherited_lowered (a : string) :
  JsObj.inherited (lowered a) = true -> basicNormalize a = lowered a.
Proof.
  unfold basicNormalize. intros H.
  pose proof (toLowerCase_no_upper (Js.trim a)) as Hu. fold (lowered a) in Hu.
  unfold JsObj.inherited in H. apply existsb_exists in H.
  destruct H as (key & Hin & E). apply String.eqb_eq in E. rewrite E in Hu |- *.
  cbn in Hin.
  repeat (destruct Hin as [<-|Hin]; [first [discriminate Hu | reflexivity]|]).
  contradiction.
Qed.

Lemma not_inherited_original (a nk : string) :
  basicNormalize a = nk -> JsObj.inherited nk = false ->
  JsObj.inherited (lowered a) = false.
Proof.
  intros Hn Hi. destruct (JsObj.inherited (lowered a)) eqn:E; auto.
  rewrite (inherited_lowered a E) in Hn. congruence.
Qed.

Lemma inherited_proto : forall k, JsObj.inherited k = false -> k <> "__proto__".
Proof. intros k H ->. discriminate. Qed.

Lemma Counted_nil : Counted [].
Proof. split; [constructor|]. intros x v. discriminate. Qed.

Lemma tally_step (o : JsObj.t Tally) (x : string) :
  JsObj.inherited x = false -> Counted o ->
  Counted (tallyStep o x)
  /\ (forall y, tallyOf (tallyStep o x) y
                = (tallyOf o y + if string_dec x y then 1 else 0)%Z)
  /\ (forall y, In y (map fst (tallyStep o x)) <-> y = x \/ In y (map fst o)).
Proof.
  intros Hi [Hnd Hnum]. pose proof (inherited_proto x Hi) as Hp.
  unfold tallyStep, JsObj.get. rewrite Hi.
  assert (Hset : forall v, JsObj.set o x v = JsObj.update o x v).
  { intros v. unfold JsObj.set. apply String.eqb_neq in Hp. now rewrite Hp. }
  rewrite Hset.
  split; [split|split].
  - now apply NoDup_update.
  - intros y v. destruct (string_dec y x) as [->|Hne].
    + rewrite own_update_same. intros [= <-].
      destruct (JsObj.own o x) as [t|] eqn:O; cbn.
      * destruct (Hnum x t O) as (c & -> & Hc). exists (c + 1)%Z. split; auto. lia.
      * exists 1%Z. split; auto. lia.
    + rewrite own_update_other by auto. apply Hnum.
  - intros y. unfold tallyOf. destruct (string_dec x y) as [<-|Hne].
    + rewrite own_update_same.
      destruct (JsObj.own o x) as [t|] eqn:O; cbn; auto.
      destruct (Hnum x t O) as (c & -> & Hc). reflexivity.
    + rewrite own_update_other by auto. lia.
  - intros y. apply keys_update.
Qed.

Lemma tallied_spec (origs : list string) :
  forall o,
    Forall (fun x => JsObj.inherited x = false) origs -> Counted o ->
    Counted (fold_left tallyStep origs o)
    /\ (forall y, tallyOf (fold_left tallyStep origs o) y
                  = (tallyOf o y + Z.of_nat (count_occ string_dec origs y))%Z)
    /\ (forall y, In y (map fst (fold_left tallyStep origs o))
                  <-> In y origs \/ In y (map fst o)).
Proof.
  induction origs as [|x r IH]; intros o Hf Hc; cbn [fold_left].
  - split; auto. split; intros y; cbn; [lia|intuition].
  - inversion Hf; subst.
    destruct (tally_step o x H1 Hc) as (Hc1 & Hv1 & Hk1).
    destruct (IH (tallyStep o x) H2 Hc1) as (Hc2 & Hv2 & Hk2).
    split; auto. split; intros y.
    + rewrite Hv2, Hv1. cbn [count_occ]. destruct (string_dec x y); lia.
    + rewrite Hk2, Hk1. cbn. intuition.
Qed.


Lemma entries_singleton {V} (k : string) (v : V) : JsObj.entries [(k, v)] = [(k, v)].
Proof. unfold JsObj.entries, JsObj.named. cbn. destruct (JsObj.arrayIndex k); reflexivity. Qed.

Lemma set_nil {V} (k : string) (v : V) :
  JsObj.inherited k = false -> JsObj.set [] k v = [(k, v)].
Proof.
  intros H. unfold JsObj.set. apply inherited_proto, String.eqb_neq in H. now rewrite H.
Qed.

Lemma set_singleton {V} (k : string) (v v' : V) :
  JsObj.inherited k = false -> JsObj.set [(k, v)] k v' = [(k, v')].
Proof.
  intros H. unfold JsObj.set. apply inherited_proto, String.eqb_neq in H. rewrite H.
  cbn. now rewrite String.eqb_refl.
Qed.

Lemma groupEntries_same_key (keyOf : Entry -> string) (nk : string) (entries : list Entry) :
  JsObj.inherited nk = false ->
  Forall (fun e => keyOf e = nk) entries ->
  forall g0,
    groupEntries keyOf entries [(nk, g0)]
    = Ok [(nk, {| count := count g0 + Z.of_nat (length entries);
                  originals := fold_left tallyStep (map original entries) (originals g0) |})].
Proof.
  intros Hi. induction entries as [|e r IH]; intros Hf g0.
  - cbn. destruct g0 as [c o]. cbn. now rewrite Z.add_0_r.
  - apply Forall_cons_iff in Hf. destruct Hf as [Hk Hr].
    cbn [groupEntries]. rewrite Hk.
    unfold tallyInto, JsObj.get. cbn [JsObj.own]. rewrite String.eqb_refl.
    rewrite set_singleton by auto. rewrite (IH Hr). cbn [count originals map fold_left length].
    replace (count g0 + 1 + Z.of_nat (length r))%Z
      with (count g0 + Z.of_nat (S (length r)))%Z by lia.
    reflexivity.
Qed.

Lemma groupEntries_unanimous (keyOf : Entry -> string) (nk : string) (e : Entry)
      (entries : list Entry) :
  JsObj.inherited nk = false ->
  Forall (fun e => keyOf e = nk) (e :: entries) ->
  groupEntries keyOf (e :: entries) []
  = Ok [(nk, {| count := Z.of_nat (length (e :: entries));
                originals := fold_left tallyStep (map original (e :: entries)) [] |})].
Proof.
  intros Hi Hf. apply Forall_cons_iff in Hf. destruct Hf as [Hk Hr].
  cbn [groupEntries]. rewrite Hk.
  unfold tallyInto, JsObj.get. cbn [JsObj.own]. rewrite Hi.
  rewrite set_nil by auto. rewrite groupEntries_same_key by auto.
  cbn [count originals map fold_left length].
  replace (1 + Z.of_nat (length entries))%Z
    with (Z.of_nat (S (length entries)))%Z by lia.
  reflexivity.
Qed.

Lemma displayOf_fold (l : list (string * Tally)) :
  (forall e, In e l -> exists c, snd e = Num c) ->
  forall dk mx,
    let r := fold_left
               (fun acc e =>
                  match snd e with
                  | Num cnt => if tallyGt (snd e) (snd acc) then (Some (fst e), cnt) else acc
                  | Text => acc
                  end) l (dk, mx) in
    (mx <= snd r)%Z
    /\ (forall x c, In (x, Num c) l -> (c <= snd r)%Z)
    /\ (r = (dk, mx) \/ exists d, fst r = Some d /\ In (d, Num (snd r)) l).
Proof.
  induction l as [|[x t] l IH]; intros Hnum dk mx; cbn [fold_left].
  - cbn. split; [lia|]. split; [intros ? ? []|now left].
  - destruct (Hnum (x, t) (or_introl eq_refl)) as (c & Hc). cbn in Hc. subst t.
    cbn [snd fst tallyGt].
    assert (Hnum' : forall e, In e l -> exists c, snd e = Num c)
      by (intros e He; apply Hnum; now right).
    destruct (mx <? c)%Z eqn:E.
    + apply Z.ltb_lt in E.
      destruct (IH Hnum' (Some x) c) as (Hle & Hall & Hsel).
      split; [lia|]. split.
      * intros y cy [[= <- <-]|Hin]; eauto.
      * right. destruct Hsel as [->|(d & Hd & Hin)].
        -- exists x. cbn. auto.
        -- exists d. cbn. auto.
    + apply Z.ltb_ge in E.
      destruct (IH Hnum' dk mx) as (Hle & Hall & Hsel).
      split; [lia|]. split.
      * intros y cy [[= <- <-]|Hin]; eauto. lia.
      * destruct Hsel as [->|(d & Hd & Hin)]; [now left|].
        right. exists d. cbn. auto.
Qed.

(** The display form of a tallied group is one of its most frequent
    original forms. *)
Lemma displayOf_tallied (origs : list string) :
  origs <> [] ->
  Forall (fun x => JsObj.inherited x = false) origs ->
  exists d,
    fst (displayOf (fold_left tallyStep origs [])) = Some d /\ MostFrequent d origs.
Proof.
  intros Hne Hf.
  destruct (tallied_spec origs [] Hf Counted_nil) as ([Hnd Hnum] & Hval & Hkeys).
  set (T := fold_left tallyStep origs []) in *.
  assert (HP : Permutation (JsObj.entries T) T) by apply entries_perm.
  assert (Hent : forall x t, In (x, t) (JsObj.entries T) <-> JsObj.own T x = Some t).
  { intros x t. split; intros H.
    - apply In_own; auto. eapply Permutation_in; eauto.
    - eapply Permutation_in; [symmetry; eauto|]. now apply own_In. }
  assert (Hcount : forall x c, JsObj.own T x = Some (Num c)
                               -> c = Z.of_nat (count_occ string_dec origs x)).
  { intros x c H. specialize (Hval x). unfold tallyOf in Hval. rewrite H in Hval.
    cbn in Hval. lia. }
  assert (Hhas : forall x, In x origs -> exists c, JsObj.own T x = Some (Num c) /\ (0 < c)%Z).
  { intros x Hx. assert (In x (map fst T)) as Hk by (apply Hkeys; now left).
    apply in_map_iff in Hk. destruct Hk as ([x' t] & <- & Hin). cbn.
    apply In_own in Hin; auto. destruct (Hnum _ _ Hin) as (c & -> & Hc). eauto. }
  unfold displayOf.
  destruct (displayOf_fold (JsObj.entries T)) with (dk := @None string) (mx := 0%Z)
    as (_ & Hall & Hsel).
  { intros [x t] He. apply Hent in He. destruct (Hnum _ _ He) as (c & -> & _).
    now exists c. }
  destruct Hsel as [E|(d & Hd & Hin)].
  - exfalso. destruct origs as [|x0 r]; [congruence|].
    destruct (Hhas x0 (or_introl eq_refl)) as (c & Hown & Hc).
    apply Hent, Hall in Hown. rewrite E in Hown. cbn in Hown. lia.
  - exists d. split; auto.
    apply Hent in Hin. pose proof (Hcount _ _ Hin) as Hd'.
    split.
    + assert (In d (map fst T)) as Hk by (eapply own_key; eauto).
      apply Hkeys in Hk. destruct Hk as [Hk|[]]. exact Hk.
    + intros x. destruct (in_dec string_dec x origs) as [Hx|Hx].
      * destruct (Hhas x Hx) as (c & Hown & _).
        pose proof (Hcount _ _ Hown) as Hc'. apply Hent, Hall in Hown. lia.
      * apply (count_occ_not_In string_dec) in Hx. rewrite Hx. lia.
Qed.


Lemma validOnly_map_Some (l : list string) : validOnly (map Some l) = l.
Proof. induction l as [|a r IH]; cbn; congruence. Qed.

Lemma mergeGroups_singleton (nk : string) (g : VoteGroup) :
  JsObj.inherited nk = false -> mergeGroups [(nk, g)] = [(nk, g)].
Proof.
  intros Hi. unfold mergeGroups. rewrite entries_singleton.
  cbn [sortByCount fold_right insertByCount fold_left]. unfold mergeOne.
  cbn [JsObj.keys JsObj.entries JsObj.indexed JsObj.named filter map app find fst snd].
  now apply set_nil.
Qed.

Lemma buildVoteResult_singleton (nk : string) (g : VoteGroup) (n : nat) (u : option Usage) :
  (0 < count g)%Z ->
  vAnswer (buildVoteResult [(nk, g)] n u) = fst (displayOf (originals g))
  /\ vCount (buildVoteResult [(nk, g)] n u) = count g
  /\ extraUsage (buildVoteResult [(nk, g)] n u) = u.
Proof.
  intros H. unfold buildVoteResult. rewrite entries_singleton. cbn [fold_left snd].
  apply Z.ltb_lt in H. rewrite H. cbn. auto.
Qed.

(** Candidates that all normalize to one non-empty key, not a name of
    Object.prototype, form one group: the vote needs no canonicalization
    call, counts them all and shows a most frequent original form. *)
Lemma smartMajorityVote_unanimous (candidates : list string) (nk apiKey model : string)
      (signal : option AbortSignal) (env : Env) (s : State) :
  candidates <> [] ->
  Forall (fun a => basicNormalize a = nk) candidates ->
  nk <> "" -> JsObj.inherited nk = false ->
  exists v,
    smartMajorityVote (map Some candidates) apiKey model signal env s = (Ok v, s)
    /\ vCount v = Z.of_nat (length candidates)
    /\ extraUsage v = None
    /\ exists d, vAnswer v = Some d /\ MostFrequent d (map lowered candidates).
Proof.
  intros Hne Hall Hnk Hi. unfold smartMajorityVote.
  rewrite validOnly_map_Some, length_map.
  destruct candidates as [|a0 rest]; [congruence|].
  cbn [length Nat.eqb].
  assert (Hkeys : Forall (fun e => groupKey e = nk) (entriesOf (a0 :: rest))).
  { unfold entriesOf. apply Forall_map. eapply Forall_impl; [|exact Hall].
    intros a Ha. unfold groupKey. cbn [normalized original]. rewrite Ha.
    unfold Js.truthy. apply String.eqb_neq in Hnk. now rewrite Hnk. }
  change (entriesOf (a0 :: rest))
    with ({| original := lowered a0; normalized := basicNormalize a0 |} :: entriesOf rest)
    in Hkeys |- *.
  rewrite (groupEntries_unanimous groupKey nk _ _ Hi Hkeys).
  rewrite mergeGroups_singleton by auto.
  unfold JsObj.keys. rewrite entries_singleton. cbn [map length Nat.ltb Nat.leb andb].
  unfold ret.
  match goal with
  | |- context [buildVoteResult [(nk, ?g)] ?n ?u] =>
      assert (Hpos : (0 < count g)%Z) by (cbn [count length]; lia);
      destruct (buildVoteResult_singleton nk g n u Hpos) as (Ha & Hc & Hu);
      exists (buildVoteResult [(nk, g)] n u)
  end.
  split; [reflexivity|].
  split; [rewrite Hc; cbn [count]; unfold entriesOf; now rewrite length_map|].
  split; [exact Hu|].
  rewrite Ha. cbn [originals original map].
  assert (Hmap : map original (entriesOf rest) = map lowered rest).
  { unfold entriesOf. rewrite map_map. reflexivity. }
  rewrite Hmap. change (lowered a0 :: map lowered rest) with (map lowered (a0 :: rest)).
  apply displayOf_tallied.
  - discriminate.
  - apply Forall_map. eapply Forall_impl; [|exact Hall].
    intros a Ha'. apply (not_inherited_original a nk Ha' Hi).
Qed.


Lemma filter_isNone_map_Some (l : list string) :
  filter isNone (map Some l) = []
  /\ filter (fun a => negb (isNone a)) (map Some l) = map Some l.
Proof. induction l as [|a r [IH1 IH2]]; cbn; auto. now rewrite IH1, IH2. Qed.

Lemma ratio_all (n : nat) : 1 <= n -> (ratio (Z.of_nat n) n == 1)%Q.
Proof.
  intros H. destruct n as [|n]; [lia|].
  assert (E : Zpos (Pos.of_nat (S n)) = Z.of_nat (S n)).
  { rewrite <- (positive_nat_Z (Pos.of_nat (S n))), Nat2Pos.id; auto. }
  unfold ratio, Qeq. cbn -[Pos.of_nat Z.of_nat Z.mul]. rewrite E. lia.
Qed.

End Aggregator.

(* ================================================================== *)
(** * Properties of the Plan-and-Execute engine                         *)
(* ================================================================== *)

Section PlanExecuteEngine.
Import Eff.
Import Spec.
Import PlanExecute.

Lemma initialPlan_nonempty (content : string) : initialPlan content <> [].
Proof.
  unfold initialPlan. destruct (Parser.parsePlanSteps content) eqn:E; cbn; discriminate.
Qed.

Lemma initialPlan_fallback (content : string) :
  Parser.parsePlanSteps content = [] -> initialPlan content = [Js.trim content].
Proof. intros H. unfold initialPlan. now rewrite H. Qed.

Lemma stepTurns_returns (env : Env) (o : Options) :
  Responsive env o ->
  forall left messages usages s,
  exists sr s', stepTurns left o messages usages env s = (Ok sr, s').
Proof.
  intros H. induction left as [|left IH]; intros messages usages s.
  - cbn. unfold ret. eauto.
  - cbn [stepTurns].
    destruct (H messages s) as (r & s1 & Hcall & Htool).
    unfold planExecLlm in Hcall. rewrite (bind_ok _ _ _ _ _ _ Hcall).
    destruct (negb (Parser.falsy (Parser.parseReActAnswer (Llm.content r)))).
    + unfold ret. eauto.
    + destruct (Parser.parseReActAction (Llm.content r)) as [a|] eqn:Ea.
      * destruct (Htool a eq_refl s1) as (obs & s2 & Hobs).
        rewrite (bind_ok _ _ _ _ _ _ Hobs). apply IH.
      * unfold ret. eauto.
Qed.

(** The loop returns, and the first step of a plan it is given is the next
    step recorded. *)
Lemma planLoop_returns (env : Env) (o : Options) (question planText : string) :
  Responsive env o ->
  forall left plan st s,
  exists st' s' more,
    planLoop left question planText o plan st env s = (Ok st', s')
    /\ pastSteps st' = (pastSteps st ++ more)%list
    /\ forall step rest, plan = step :: rest -> 0 < left ->
                         exists out more', more = (step, out) :: more'.
Proof.
  intros H. induction left as [|left IH]; intros plan st s.
  - exists st, s, []. destruct plan; cbn; unfold ret; rewrite app_nil_r;
      (split; [reflexivity|split; [reflexivity|intros; lia]]).
  - destruct plan as [|currentStep plan].
    + exists st, s, []. cbn. unfold ret. rewrite app_nil_r.
      split; [reflexivity|split; [reflexivity|intros; discriminate]].
    + cbn [planLoop]. rewrite bind_onStep. unfold executeStep.
      match goal with
      | |- context [stepTurns 8 o ?m ?u] =>
          match goal with
          | |- exists st' s' more, bind _ _ _ ?s1 = _ /\ _ =>
              destruct (stepTurns_returns env o H 8 m u s1) as (sr & s2 & Hstep)
          end
      end.
      rewrite (bind_ok _ _ _ _ _ _ Hstep). rewrite bind_onStep.
      match goal with
      | |- context [Llm.callLLM ?m _] =>
          match goal with
          | |- exists st' s' more, bind _ _ _ ?s3 = _ /\ _ =>
              destruct (H m s3) as (rr & s4 & Hcall & _)
          end
      end.
      unfold planExecLlm in Hcall. rewrite (bind_ok _ _ _ _ _ _ Hcall).
      destruct (Regex.exec Regex.noFlags reDone (Llm.content rr)) as [doneMatch|].
      * rewrite bind_onStep. unfold ret.
        do 3 eexists. split; [reflexivity|]. cbn [pastSteps].
        split; [reflexivity|]. intros step rest [= <- <-] _. eauto.
      * destruct (0 <? length (Parser.parsePlanSteps (Llm.content rr))).
        -- rewrite bind_onStep.
           match goal with
           | |- exists st' s' more, planLoop _ _ _ _ ?p ?st1 _ ?s5 = _ /\ _ =>
               destruct (IH p st1 s5) as (st' & s' & more & E & P & _)
           end.
           exists st', s'. eexists. split; [exact E|]. rewrite P. cbn [pastSteps].
           rewrite <- app_assoc. split; [reflexivity|].
           intros step rest [= <- <-] _. cbn. eauto.
        -- rewrite bind_onStep. unfold ret.
           do 3 eexists. split; [reflexivity|]. cbn [pastSteps].
           split; [reflexivity|]. intros step rest [= <- <-] _. eauto.
Qed.

End PlanExecuteEngine.

(* ================================================================== *)
(** * Facts about strings and one-character patterns                    *)
(* ================================================================== *)

Section StringFacts.

Lemma chars_str (l : list ascii) : Js.chars (Js.str l) = l.
Proof. apply list_ascii_of_string_of_list_ascii. Qed.

Lemma str_chars (s : string) : Js.str (Js.chars s) = s.
Proof. apply string_of_list_ascii_of_string. Qed.

Lemma chars_app (s t : string) : Js.chars (s ++ t) = (Js.chars s ++ Js.chars t)%list.
Proof. induction s as [|c s IH]; cbn; auto. unfold Js.chars in IH. now rewrite IH. Qed.

Lemma length_chars (s : string) : length (Js.chars s) = String.length s.
Proof. induction s as [|c s IH]; cbn; auto. Qed.

Lemma firstn_incl {A} (n : nat) (l : list A) (x : A) : In x (firstn n l) -> In x l.
Proof.
  revert l. induction n as [|n IH]; intros [|a l]; cbn; auto; try tauto.
  intros [H|H]; auto.
Qed.

Lemma dropWhile_incl {A} (p : A -> bool) (l : list A) (x : A) :
  In x (Js.dropWhile p l) -> In x l.
Proof.
  induction l as [|a r IH]; cbn; auto.
  destruct (p a); cbn; auto.
Qed.

Lemma dropWhile_keeps {A} (p : A -> bool) (l : list A) (x : A) :
  In x l -> p x = false -> In x (Js.dropWhile p l).
Proof.
  induction l as [|a r IH]; cbn; auto.
  intros [->|Hin] Hp.
  - rewrite Hp. now left.
  - destruct (p a); cbn; auto.
Qed.

(** Trimming removes no character that is not white space, and adds none. *)
Lemma trim_incl (s : string) (c : ascii) : In c (Js.chars (Js.trim s)) -> In c (Js.chars s).
Proof.
  unfold Js.trim, Js.trimEnd, Js.trimStart. rewrite !chars_str.
  intros H. apply (proj2 (in_rev _ _)) in H. apply dropWhile_incl in H.
  apply (proj2 (in_rev _ _)) in H. now apply dropWhile_incl in H.
Qed.

Lemma trim_keeps (s : string) (c : ascii) :
  In c (Js.chars s) -> Js.isWhiteSpace c = false -> In c (Js.chars (Js.trim s)).
Proof.
  unfold Js.trim, Js.trimEnd, Js.trimStart. rewrite !chars_str.
  intros H Hw. apply (proj1 (in_rev _ _)). apply dropWhile_keeps; auto.
  apply (proj1 (in_rev _ _)). now apply dropWhile_keeps.
Qed.

(** Replacing every match of a one-character pattern by nothing filters
    the string. *)
Lemma replaceAllFrom_filter (fl : Regex.Flags) (r : Regex.re) (p : ascii -> bool) :
  (forall s, Regex.m fl r Some s = Regex.step p Some s) ->
  forall after n before,
    length after < n ->
    Regex.replaceAllFrom fl r [] n
      {| Regex.before := before; Regex.after := after; Regex.caps := [] |}
    = filter (fun c => negb (p c)) after.
Proof.
  intros Hr. induction after as [|c t IH]; intros n before Hn;
    (destruct n as [|n]; [cbn in Hn; lia|]); cbn [Regex.replaceAllFrom];
    rewrite Hr; unfold Regex.step; cbn [Regex.after Regex.before Regex.caps].
  - reflexivity.
  - cbn [filter]. destruct (p c); cbn [negb].
    + cbn [Regex.after Regex.before].
      assert ((length t <? length (c :: t)) = true) as -> by (apply Nat.ltb_lt; cbn; lia).
      cbn [app]. apply IH. cbn in Hn. lia.
    + f_equal. apply IH. cbn in Hn. lia.
Qed.

Lemma replaceAll_class (p : ascii -> bool) (text : string) :
  Regex.replaceAll Regex.noFlags (Regex.Class p) "" text
  = Js.str (filter (fun c => negb (p c)) (Js.chars text)).
Proof.
  unfold Regex.replaceAll, Regex.start. f_equal.
  apply replaceAllFrom_filter; [reflexivity|]. rewrite length_chars. lia.
Qed.

Lemma replaceAll_char (c0 : ascii) (text : string) :
  Regex.replaceAll Regex.noFlags (Regex.Char c0) "" text
  = Js.str (filter (fun c => negb (Ascii.eqb c0 c)) (Js.chars text)).
Proof.
  unfold Regex.replaceAll, Regex.start. f_equal.
  apply replaceAllFrom_filter; [reflexivity|]. rewrite length_chars. lia.
Qed.

End StringFacts.

(* ================================================================== *)
(** * Properties of the tools                                           *)
(* ================================================================== *)

Section ToolFacts.
Import Eff.
Import Tools.
Import Spec.

Lemma sanitized_filter (expression : string) :
  Regex.replaceAll Regex.noFlags (Regex.Class (fun c => negb (allowedChar c))) "" expression
  = Js.str (filter allowedChar (Js.chars expression)).
Proof.
  rewrite replaceAll_class. f_equal. apply filter_ext. intros c. apply negb_involutive.
Qed.

Lemma filter_all {A} (p : A -> bool) (l : list A) :
  forallb p l = true -> filter p l = l.
Proof.
  induction l as [|a r IH]; cbn; auto.
  intros H. apply andb_true_iff in H. destruct H as [Ha Hr]. rewrite Ha. f_equal. auto.
Qed.

Lemma forallb_false {A} (p : A -> bool) (l : list A) :
  forallb p l = false -> exists a, In a l /\ p a = false.
Proof.
  induction l as [|a r IH]; cbn; [discriminate|].
  destruct (p a) eqn:E; cbn.
  - intros H. destruct (IH H) as (b & Hb & Hp). eauto.
  - intros _. eauto.
Qed.

Lemma allowed_whitespace (c : ascii) : allowedChar c = false -> Js.isWhiteSpace c = false.
Proof.
  unfold allowedChar. intros H. apply orb_false_iff in H. tauto.
Qed.

(** What the guard of [calculate] tests: the expression is turned down
    exactly when it holds a character outside the allowed class or when it
    begins or ends with white space. *)
Lemma calculate_guard (expression : string) :
  rejected expression = true
  <-> (exists c, In c (Js.chars expression) /\ allowedChar c = false)
      \/ Js.trim expression <> expression.
Proof.
  unfold rejected. rewrite sanitized_filter, negb_true_iff, String.eqb_neq.
  split.
  - intros Hne.
    destruct (forallb allowedChar (Js.chars expression)) eqn:Hall.
    + right. intros Htrim. apply Hne. rewrite Htrim, filter_all by auto. apply str_chars.
    + left. apply forallb_false in Hall. destruct Hall as (c & Hin & Hc). eauto.
  - intros [(c & Hin & Hc)|Htrim] Heq.
    + pose proof (trim_keeps expression c Hin (allowed_whitespace c Hc)) as Hk.
      rewrite <- Heq, chars_str in Hk. apply filter_In in Hk. destruct Hk. congruence.
    + destruct (forallb allowedChar (Js.chars expression)) eqn:Hall.
      * rewrite filter_all, str_chars in Heq by auto. congruence.
      * apply forallb_false in Hall. destruct Hall as (c & Hin & Hc).
        pose proof (trim_keeps expression c Hin (allowed_whitespace c Hc)) as Hk.
        rewrite <- Heq, chars_str in Hk. apply filter_In in Hk. destruct Hk. congruence.
Qed.

Lemma calculate_rejected (ev : string -> Completion) (expression : string) :
  rejected expression = true -> calculate ev expression = disallowedMessage.
Proof. unfold calculate, rejected. now intros ->. Qed.

(** C4 (the code departs from the claim). The expression " 1" holds only
    allowed characters, yet [calculate] turns it down with the message about
    disallowed characters, whatever evaluation would give. *)
Theorem calculate_rejects_padded_expression :
  forallb allowedChar (Js.chars " 1") = true
  /\ forall ev, calculate ev " 1" = disallowedMessage.
Proof.
  split; [reflexivity|]. intros ev. apply calculate_rejected. reflexivity.
Qed.

(** The two examples of the calculator: a sanitized expression is handed to
    the evaluator and its result returned; one with a letter or a semicolon
    is turned down without evaluation. *)
Lemma calculate_examples (ev : string -> Completion) :
  (ev (dq ++ "use strict" ++ dq ++ "; return (2 * 3 + 4)") = Returns "10" ->
   calculate ev "2 * 3 + 4" = "10")
  /\ calculate ev "2; drop" = disallowedMessage.
Proof.
  split.
  - intros H. vm_compute in H. unfold calculate. vm_compute. now rewrite H.
  - apply calculate_rejected. reflexivity.
Qed.

(** C5 (the code departs from the claim). When the search request of the
    Wikipedia tool fails, [executeTool] hands back a rejected promise. *)
Theorem executeTool_wikipedia_rejects
        (env : Env) (s : State) (name query apiKey : string) (e : Exn) :
  Js.toLowerCase name = "wikipedia" ->
  outcome (wikiSearchApi env (fetches s) query) = Rejects e ->
  exists s', executeTool name query apiKey env s = (Throw e, s').
Proof.
  intros Hname Hnet. unfold executeTool. rewrite Hname.
  cbn [JsObj.get JsObj.own toolRegistry String.eqb Ascii.eqb Bool.eqb execute].
  unfold wikipedia, bind, exchange. rewrite Hnet. eauto.
Qed.

(** Dispatch by name: an unknown name gives the message that lists the
    registered names; a name found on Object.prototype makes the call throw. *)
Lemma executeTool_dispatch_examples (env : Env) (s : State) :
  executeTool "bing" "x" "" env s
  = (Ok ("Error: Unknown tool " ++ dq ++ "bing" ++ dq
           ++ ". Available tools: wikipedia, search, websearch, calculate, current_datetime, datetime"),
     s)
  /\ executeTool "Constructor" "x" "" env s
     = (Throw (TypeError "tool.execute is not a function"), s).
Proof. split; reflexivity. Qed.

End ToolFacts.

(* ================================================================== *)
(** * Facts about the matcher                                           *)
(* ================================================================== *)

Section MatcherFacts.
Import Regex.
Import Spec.

Lemma Suffix_refl (l : list ascii) : Suffix l l.
Proof. now exists []. Qed.

Lemma Suffix_trans (a b c : list ascii) : Suffix a b -> Suffix b c -> Suffix a c.
Proof. intros [p ->] [q ->]. exists (q ++ p)%list. now rewrite app_assoc. Qed.

Lemma Suffix_cons (c : ascii) (t : list ascii) : Suffix t (c :: t).
Proof. now exists [c]. Qed.

Lemma Suffix_In (t l : list ascii) (c : ascii) : Suffix t l -> In c t -> In c l.
Proof. intros [p ->] H. apply in_or_app. now right. Qed.

(** A successful match hands its continuation a state further on in the
    same input. *)
Lemma m_suffix (fl : Flags) (r : re) :
  forall k s res,
    m fl r k s = Some res ->
    exists s', k s' = Some res /\ Suffix (after s') (after s).
Proof.
  induction r as [|c|p|r1 IH1 r2 IH2|r1 IH1 r2 IH2|g r1 IH1|i r1 IH1| | | |r1 IH1];
    intros k s res H; cbn [m] in H.
  - exists s. auto using Suffix_refl.
  - unfold step in H. destruct (after s) as [|c' t] eqn:E; [discriminate|].
    destruct (charEq fl c c'); [|discriminate].
    eexists. split; [exact H|]. cbn. apply Suffix_cons.
  - unfold step in H. destruct (after s) as [|c' t] eqn:E; [discriminate|].
    destruct (p c'); [|discriminate].
    eexists. split; [exact H|]. cbn. apply Suffix_cons.
  - apply IH1 in H. destruct H as (s1 & H & S1).
    apply IH2 in H. destruct H as (s2 & H & S2).
    exists s2. split; auto. eapply Suffix_trans; eauto.
  - unfold orElse in H. destruct (m fl r1 k s) eqn:E.
    + injection H as <-. now apply IH1.
    + now apply IH2.
  - remember (length (after s)) as n eqn:En in H. clear En. revert s res H.
    match goal with
    | |- forall s res, ?loop n s = _ -> _ => set (L := loop)
    end.
    induction n as [|n IHn]; intros s res H.
    + exists s. auto using Suffix_refl.
    + change (L (S n) s)
        with (let again :=
                m fl r1 (fun s' => if length (after s') <? length (after s)
                                   then L n s' else None) s in
              if g then orElse again (k s) else orElse (k s) again) in H.
      cbv zeta in H.
      assert (Hagain :
                forall res',
                  m fl r1 (fun s' => if length (after s') <? length (after s)
                                     then L n s' else None) s = Some res' ->
                  exists s', k s' = Some res' /\ Suffix (after s') (after s)).
      { intros res' Hr. apply IH1 in Hr. destruct Hr as (s1 & Hr & S1).
        destruct (length (after s1) <? length (after s)); [|discriminate].
        apply IHn in Hr. destruct Hr as (s2 & Hr & S2).
        exists s2. split; auto. eapply Suffix_trans; eauto. }
      unfold orElse in H. destruct g.
      * match type of H with
        | match ?a with _ => _ end = _ => destruct a eqn:E
        end.
        -- injection H as <-. now apply Hagain.
        -- exists s. auto using Suffix_refl.
      * destruct (k s) eqn:E.
        -- injection H as <-. exists s. auto using Suffix_refl.
        -- now apply Hagain.
  - apply IH1 in H. destruct H as (s1 & H & S1).
    eexists. split; [exact H|]. exact S1.
  - destruct (atBol fl s); [|discriminate]. exists s. auto using Suffix_refl.
  - destruct (atEol fl s); [|discriminate]. exists s. auto using Suffix_refl.
  - destruct (atWordB s); [|discriminate]. exists s. auto using Suffix_refl.
  - destruct (m fl r1 Some s) as [s1|]; [|discriminate].
    eexists. split; [exact H|]. cbn. apply Suffix_refl.
Qed.

Lemma matchAt_rest (fl : Flags) (r : re) (s : MState) (mt : Match) :
  matchAt fl r s = Some mt -> Suffix (rest mt) (after s).
Proof.
  unfold matchAt. destruct (m fl r Some _) as [s'|] eqn:E; [|discriminate].
  intros [= <-]. cbn. apply m_suffix in E. destruct E as (s1 & [= ->] & S1). exact S1.
Qed.

(** A search succeeds at some position of the input. *)
Lemma search_found (fl : Flags) (r : re) (n : nat) :
  forall s mt,
    search fl r n s = Some mt ->
    exists s', matchAt fl r s' = Some mt /\ Suffix (after s') (after s).
Proof.
  induction n as [|n IH]; intros s mt H; cbn [search] in H.
  - destruct (matchAt fl r s) eqn:E; [|discriminate].
    injection H as <-. exists s. auto using Suffix_refl.
  - destruct (matchAt fl r s) eqn:E.
    + injection H as <-. exists s. auto using Suffix_refl.
    + destruct (after s) as [|c t] eqn:Ea; [discriminate|].
      apply IH in H. destruct H as (s' & H & S'). exists s'. split; auto.
      cbn in S'. eapply Suffix_trans; [exact S'|apply Suffix_cons].
Qed.

(** Deleting the first match of a pattern adds no character. *)
Lemma replaceFirst_incl (fl : Flags) (r : re) (text : string) (c : ascii) :
  In c (Js.chars (replaceFirst fl r "" text)) -> In c (Js.chars text).
Proof.
  unfold replaceFirst, exec. destruct (search fl r _ _) as [mt|] eqn:E; auto.
  apply search_found in E. destruct E as (s' & E & S'). apply matchAt_rest in E.
  cbn [start after] in S'.
  change (Js.str (firstn (index mt) (Js.chars text)) ++ "" ++ Js.str (rest mt))
    with (Js.str (firstn (index mt) (Js.chars text)) ++ Js.str (rest mt)).
  rewrite chars_app, !chars_str.
  intros H. apply in_app_or in H. destruct H as [H|H].
  - eapply firstn_incl; eauto.
  - eapply Suffix_In; [|exact H]. eapply Suffix_trans; eauto.
Qed.

(** A literal matched case-sensitively stands in the input. *)
Lemma m_Lit (fl : Flags) (l : list ascii) :
  ignoreCase fl = false ->
  forall k s res,
    m fl (Lit l) k s = Some res -> exists t, after s = (l ++ t)%list.
Proof.
  intros Hi. induction l as [|c l IH]; intros k s res H; cbn [Lit m] in H.
  - now exists (after s).
  - unfold step in H. destruct (after s) as [|c' t] eqn:E; [discriminate|].
    unfold charEq in H. rewrite Hi in H.
    destruct (Ascii.eqb c c') eqn:Ec; [|discriminate].
    apply Ascii.eqb_eq in Ec. subst c'.
    apply IH in H. cbn in H. destruct H as (t' & ->). now exists t'.
Qed.

Lemma includesL_found (p pre t : list ascii) : Js.includesL p (pre ++ p ++ t) = true.
Proof.
  induction pre as [|c pre IH]; cbn [app].
  - assert (Js.startsWithL p (p ++ t) = true) as Hs.
    { clear. induction p as [|a p IH]; cbn; auto. now rewrite Ascii.eqb_refl. }
    destruct (p ++ t)%list; cbn [Js.includesL]; now rewrite Hs.
  - cbn [Js.includesL]. rewrite IH. apply orb_true_r.
Qed.

End MatcherFacts.

(* ================================================================== *)
(** * Properties of the answer extraction                               *)
(* ================================================================== *)

Section AnswerExtraction.
Import Spec.
Import Parser.

Lemma unlessSet_kept (a : string) (attempt : option string) :
  Js.truthy a = true -> unlessSet (Some a) attempt = Some a.
Proof. intros H. unfold unlessSet, falsy. now rewrite H. Qed.

Lemma unlessSet_taken (answer : option string) (a : string) :
  falsy answer = true -> unlessSet answer (Some a) = Some a.
Proof. intros H. unfold unlessSet. now rewrite H. Qed.

Lemma unlessSet_falsy (answer attempt : option string) :
  falsy answer = true -> falsy attempt = true -> falsy (unlessSet answer attempt) = true.
Proof. intros H H'. unfold unlessSet. rewrite H. destruct attempt; auto. Qed.

Lemma matchAnswerIs_no_comma (text a : string) :
  matchAnswerIs text = Some a -> ~ In ","%char (Js.chars a).
Proof.
  unfold matchAnswerIs. destruct (Regex.exec Regex.flagM reAnswerIs text); [|discriminate].
  intros [= <-] H. apply trim_incl in H. rewrite replaceAll_char, chars_str in H.
  apply filter_In in H. destruct H as [_ H]. now rewrite Ascii.eqb_refl in H.
Qed.

Lemma cleanAnswer_incl (a r : string) (c : ascii) :
  cleanAnswer a = Some r -> In c (Js.chars r) -> In c (Js.chars a).
Proof.
  unfold cleanAnswer, orNull.
  destruct (Js.truthy _); [|discriminate]. intros [= <-] H.
  apply trim_incl, replaceFirst_incl, trim_incl, replaceFirst_incl in H. exact H.
Qed.

(** The first pattern matches only where the text holds "he answer is" in
    lower case. *)
Lemma matchAnswerIs_literal (text a : string) :
  matchAnswerIs text = Some a -> Js.includes text "he answer is" = true.
Proof.
  unfold matchAnswerIs, Regex.exec.
  destruct (Regex.search _ _ _ _) as [mt|] eqn:E; [|discriminate]. intros _.
  apply search_found in E. destruct E as (s' & E & [pre Hpre]).
  cbn [Regex.start Regex.after] in Hpre.
  unfold Regex.matchAt in E.
  destruct (Regex.m Regex.flagM reAnswerIs Some _) as [res|] eqn:Em; [|discriminate].
  unfold reAnswerIs in Em. cbn [Regex.Seqs Regex.m] in Em.
  unfold Regex.step in Em at 1. cbn [Regex.after] in Em.
  destruct (Regex.after s') as [|c t] eqn:Ea; [discriminate|].
  destruct (Regex.oneOf "Tt" c); [|discriminate].
  apply (m_Lit Regex.flagM (Js.chars "he answer is") eq_refl) in Em.
  cbn [Regex.after] in Em. destruct Em as (t' & ->).
  unfold Js.includes. rewrite Hpre.
  change (pre ++ c :: Js.chars "he answer is" ++ t')%list
    with (pre ++ [c] ++ Js.chars "he answer is" ++ t')%list.
  rewrite app_assoc. apply includesL_found.
Qed.

(** C6 (amended). [extractAnswer] tries "the answer is X" first, with the
    T of "The" in either case and the other letters in lower case, anchored at
    the end of a line; then "#### X", the conclusion connectives and the
    "(final) answer:" label.  Commas are removed in the first case only and
    trailing periods are removed. *)
Theorem extractAnswer_priorities :
  (forall text a,
      matchAnswerIs text = Some a -> Js.truthy a = true ->
      extractAnswer text = cleanAnswer a
      /\ Js.includes text "he answer is" = true
      /\ forall r, extractAnswer text = Some r -> ~ In ","%char (Js.chars r))
  /\ (forall text h,
         Js.truthy text = true -> falsy (matchAnswerIs text) = true ->
         matchHash text = Some h -> Js.truthy h = true ->
         extractAnswer text = cleanAnswer h)
  /\ (forall text c,
         Js.truthy text = true -> falsy (matchAnswerIs text) = true ->
         falsy (matchHash text) = true ->
         matchConclusion text = Some c -> Js.truthy c = true ->
         extractAnswer text = cleanAnswer c)
  /\ (forall text l,
         Js.truthy text = true -> falsy (matchAnswerIs text) = true ->
         falsy (matchHash text) = true -> falsy (matchConclusion text) = true ->
         matchAnswerLabel text = Some l -> Js.truthy l = true ->
         extractAnswer text = cleanAnswer l)
  /\ extractAnswer "The answer is 42." = Some "42"
  /\ extractAnswer "#### 17" = Some "17"
  /\ extractAnswer "no conclusion here" = None
  /\ extractAnswer "the answer is 1,000." = Some "1000"
  /\ extractAnswer "#### 1,000." = Some "1,000"
  /\ extractAnswer "Therefore 1,000." = Some "1,000"
  /\ extractAnswer "Final answer: 1,000." = Some "1,000"
  /\ extractAnswer "THE ANSWER IS 42" = None
  /\ extractAnswer ("#### 17" ++ String nl "The answer is 5." ++ String nl "Done") = Some "5".
Proof.
  split; [|split; [|split; [|split]]].
  - intros text a Hm Ha.
    assert (He : extractAnswer text = cleanAnswer a).
    { unfold extractAnswer.
      destruct text as [|c t]; [discriminate Hm|].
      cbn [Js.truthy String.eqb negb]. rewrite Hm.
      rewrite !unlessSet_kept by auto. now rewrite Ha. }
    split; [exact He|]. split; [now apply matchAnswerIs_literal with a|].
    intros r Hr Hin. rewrite He in Hr.
    apply (matchAnswerIs_no_comma text a Hm). eapply cleanAnswer_incl; eauto.
  - intros text h Ht H1 Hh Hth. unfold extractAnswer. rewrite Ht. cbn [negb].
    replace (match matchAnswerIs text with Some a => Some a | None => None end)
      with (matchAnswerIs text) by (destruct (matchAnswerIs text); auto).
    rewrite Hh, (unlessSet_taken _ _ H1), !unlessSet_kept by auto. now rewrite Hth.
  - intros text c Ht H1 H2 Hc Htc. unfold extractAnswer. rewrite Ht. cbn [negb].
    replace (match matchAnswerIs text with Some a => Some a | None => None end)
      with (matchAnswerIs text) by (destruct (matchAnswerIs text); auto).
    rewrite Hc, (unlessSet_taken _ _ (unlessSet_falsy _ _ H1 H2)), !unlessSet_kept by auto.
    now rewrite Htc.
  - intros text l Ht H1 H2 H3 Hl Htl. unfold extractAnswer. rewrite Ht. cbn [negb].
    replace (match matchAnswerIs text with Some a => Some a | None => None end)
      with (matchAnswerIs text) by (destruct (matchAnswerIs text); auto).
    rewrite Hl, (unlessSet_taken _ _ (unlessSet_falsy _ _ (unlessSet_falsy _ _ H1 H2) H3)).
    now rewrite Htl.
  - repeat split; vm_compute; reflexivity.
Qed.

End AnswerExtraction.

(* ================================================================== *)
(** * Properties of the ReWOO worker                                    *)
(* ================================================================== *)

Section ReWOOWorker.
Import Eff.
Import Spec.
Import ReWOO.

Lemma length_update {V} (o : JsObj.t V) (k : string) (v : V) :
  JsObj.own o k = None -> length (JsObj.update o k v) = S (length o).
Proof.
  induction o as [|[k' v'] r IH]; cbn; auto.
  destruct (String.eqb k k'); [discriminate|]. intros H. cbn. now rewrite IH.
Qed.

Lemma variable_not_proto (v : string) : Js.startsWith v "#E" = true -> v <> "__proto__".
Proof. intros H ->. discriminate. Qed.

Lemma length_update_kept {V} (o : JsObj.t V) (k : string) (v old : V) :
  JsObj.own o k = Some old -> length (JsObj.update o k v) = length o.
Proof.
  induction o as [|[k' v'] r IH]; cbn; [discriminate|].
  destruct (String.eqb k k'); [reflexivity|]. intros H. cbn. now rewrite IH.
Qed.

(** C10 (amended). What a worker step leaves in the evidence map: the reply
    of an LLM step as it is; the result of a tool wrapped as "[FAILED: ...]"
    exactly when it starts with "Error:", so that a "Calculation error: ..."
    string is kept as it is; one assignment under the variable of the step,
    which leaves every other entry alone, adds an entry when the variable is
    new and replaces the entry, adding none, when the plan used the variable
    before. *)
Theorem workStep_evidence
        (o : Options) (step : Parser.PlanStep) (evidence evidence' : JsObj.t string)
        (usages usages' : list Usage) (env : Env) (s s' : State) :
  Js.startsWith (Parser.variable step) "#E" = true ->
  workStep o step (evidence, usages) env s = (Ok (evidence', usages'), s') ->
  let input := substitute evidence (Parser.toolInput step) in
  exists v,
    evidence' = JsObj.set evidence (Parser.variable step) v
    /\ JsObj.own evidence' (Parser.variable step) = Some v
    /\ (forall k, k <> Parser.variable step -> JsObj.own evidence' k = JsObj.own evidence k)
    /\ (JsObj.own evidence (Parser.variable step) = None ->
        length evidence' = S (length evidence))
    /\ (JsObj.own evidence (Parser.variable step) <> None ->
        length evidence' = length evidence)
    /\ (isLlmTool step = true ->
        exists r s1,
          Llm.callLLM [{| role := "user"; content := input |}] (workerLlm o) env s
          = (Ok r, s1)
          /\ v = Llm.content r)
    /\ (isLlmTool step = false ->
        exists result s1,
          Tools.executeTool (Parser.tool step) input (apiKey o) env s = (Ok result, s1)
          /\ v = (if Js.startsWith result "Error:"
                  then "[FAILED: " ++ result ++ "]" else result)
          /\ forall msg, result = "Calculation error: " ++ msg -> v = result).
Proof.
  intros Hvar Hrun input. pose proof (variable_not_proto _ Hvar) as Hp.
  unfold workStep in Hrun. fold input in Hrun.
  assert (Hfacts : forall v,
             JsObj.own (JsObj.set evidence (Parser.variable step) v) (Parser.variable step)
             = Some v
             /\ (forall k, k <> Parser.variable step ->
                           JsObj.own (JsObj.set evidence (Parser.variable step) v) k
                           = JsObj.own evidence k)
             /\ (JsObj.own evidence (Parser.variable step) = None ->
                 length (JsObj.set evidence (Parser.variable step) v)
                 = S (length evidence))
             /\ (JsObj.own evidence (Parser.variable step) <> None ->
                 length (JsObj.set evidence (Parser.variable step) v)
                 = length evidence)).
  { intros v. split; [now apply own_set_same|]. split; [|split].
    - intros k Hk. now apply own_set_other.
    - intros Hnew. unfold JsObj.set. apply String.eqb_neq in Hp. rewrite Hp.
      now apply length_update.
    - intros Hold. unfold JsObj.set. apply String.eqb_neq in Hp. rewrite Hp.
      destruct (JsObj.own evidence (Parser.variable step)) as [old|] eqn:Eo;
        [|contradiction].
      now apply (length_update_kept _ _ _ old). }
  destruct (isLlmTool step) eqn:Hllm.
  - unfold bind at 1 in Hrun. unfold bind at 1 in Hrun.
    fold (workerLlm o) in Hrun.
    destruct (Llm.callLLM [{| role := "user"; content := input |}] (workerLlm o) env s)
      as [[r|e] s1] eqn:Hcall; [|discriminate Hrun].
    unfold ret at 1 in Hrun. cbv beta iota in Hrun.
    rewrite bind_onStep in Hrun. unfold ret in Hrun. injection Hrun as <- <- <-.
    exists (Llm.content r). cbn [stored].
    destruct (Hfacts (Llm.content r)) as (F1 & F2 & F3 & F4).
    repeat split; auto; [|discriminate]. intros _. eauto.
  - unfold bind at 1 in Hrun. unfold bind at 1 in Hrun.
    destruct (Tools.executeTool (Parser.tool step) input (apiKey o) env s)
      as [[result|e] s1] eqn:Hexec; [|discriminate Hrun].
    unfold ret at 1 in Hrun. cbv beta iota in Hrun.
    rewrite bind_onStep in Hrun. unfold ret in Hrun. injection Hrun as <- <- <-.
    exists (stored (Js.startsWith result "Error:") result).
    destruct (Hfacts (stored (Js.startsWith result "Error:") result))
      as (F1 & F2 & F3 & F4).
    repeat split; auto; [discriminate|]. intros _. exists result, s1.
    repeat split; auto. intros msg ->. reflexivity.
Qed.

Lemma update_fresh {V} (o : JsObj.t V) (k : string) (v : V) :
  JsObj.own o k = None -> JsObj.update o k v = (o ++ [(k, v)])%list.
Proof.
  induction o as [|[k' v'] r IH]; cbn; auto.
  destruct (String.eqb k k'); [discriminate|]. intros H. now rewrite IH.
Qed.

Lemma workStep_assigns (o : Options) (step : Parser.PlanStep)
      (evidence evidence' : JsObj.t string) (usages usages' : list Usage)
      (env : Env) (s s' : State) :
  workStep o step (evidence, usages) env s = (Ok (evidence', usages'), s') ->
  exists v, evidence' = JsObj.set evidence (Parser.variable step) v.
Proof.
  unfold workStep. intros Hrun.
  unfold bind at 1 in Hrun.
  match type of Hrun with
  | match ?c env s with _ => _ end = _ => destruct (c env s) as [[[[result isError] us]|e] s1]
  end; [|discriminate Hrun].
  rewrite bind_onStep in Hrun. unfold ret in Hrun. injection Hrun as <- <- <-. eauto.
Qed.

(** With pairwise distinct variables, none of them set before, the worker
    phase leaves one entry per step, in plan order. *)
Lemma work_evidence_keys (o : Options) (steps : list Parser.PlanStep) :
  forall (evidence evidence' : JsObj.t string) (usages usages' : list Usage)
         (env : Env) (s s' : State),
    Forall (fun st => Js.startsWith (Parser.variable st) "#E" = true) steps ->
    NoDup (map Parser.variable steps) ->
    (forall st, In st steps -> JsObj.own evidence (Parser.variable st) = None) ->
    work o steps (evidence, usages) env s = (Ok (evidence', usages'), s') ->
    map fst evidence' = (map fst evidence ++ map Parser.variable steps)%list.
Proof.
  induction steps as [|st r IH];
    intros evidence evidence' usages usages' env s s' Hvars Hnd Hnew Hrun.
  - cbn in Hrun. unfold ret in Hrun. injection Hrun as <- <- <-. cbn.
    now rewrite app_nil_r.
  - cbn [work] in Hrun. unfold bind at 1 in Hrun.
    destruct (workStep o st (evidence, usages) env s) as [[[ev1 us1]|e] s1] eqn:Hstep;
      [|discriminate Hrun].
    destruct (workStep_assigns _ _ _ _ _ _ _ _ _ Hstep) as (v & Hev1).
    apply Forall_cons_iff in Hvars. destruct Hvars as [Hv Hvars].
    cbn [map] in Hnd. apply NoDup_cons_iff in Hnd. destruct Hnd as [Hnotin Hnd].
    assert (Hset : ev1 = (evidence ++ [(Parser.variable st, v)])%list).
    { rewrite Hev1. unfold JsObj.set.
      pose proof (variable_not_proto _ Hv) as Hp. apply String.eqb_neq in Hp. rewrite Hp.
      apply update_fresh. apply Hnew. now left. }
    rewrite (IH ev1 evidence' us1 usages' env s1 s' Hvars Hnd); auto.
    + rewrite Hset, map_app, <- app_assoc. reflexivity.
    + intros st' Hin. rewrite Hev1. rewrite own_set_other.
      * apply Hnew. now right.
      * intros Heq. apply Hnotin. rewrite <- Heq. now apply in_map.
Qed.

End ReWOOWorker.

(* ================================================================== *)
(** * The statements at concrete runs                                   *)
(* ================================================================== *)

Section Runs.
Import Eff.
Import Spec.
Import Scenario.


Lemma callLLM_cancellation_witness :
  exists s',
    Llm.attemptsFrom 4 0 ThrownUndefined [] (llmOptions (Some {| abortsAt := Some 0%Z |}))
                     offline s0
    = (Throw AbortError, s')
    /\ fetches s' = fetches s0
    /\ (log s' = log s0 \/ exists asked actual, log s' = (log s0 ++ [Slept asked actual])%list)
    /\ abortedAt (Some {| abortsAt := Some 0%Z |}) (now s') = true
    /\ (forall t, Some {| abortsAt := Some 0%Z |} = Some {| abortsAt := Some t |} ->
                  now s' = Z.max (now s0) t).
Proof.
  apply (callLLM_cancellation 3 0 ThrownUndefined []
           (llmOptions (Some {| abortsAt := Some 0%Z |})) offline s0).
  left. reflexivity.
Defined.

Lemma acting_always_acts (maxTurns : nat) : AlwaysActs acting (reactOptions maxTurns).
Proof.
  intros messages s.
  exists {| Llm.content := actionReply; Llm.finishReason := "stop";
            Llm.usage := Llm.zeroUsage |}.
  eexists.
  exists {| Parser.actionName := "calculate"; Parser.actionInput := "2 * 3 + 4" |}.
  split; [apply callLLM_first_reply; reflexivity|].
  split; [vm_compute; reflexivity|]. split; [vm_compute; reflexivity|].
  intros s1. exists "10", s1. vm_compute. reflexivity.
Qed.

Lemma runReAct_always_acting_witness :
  exists r s',
    ReAct.runReAct "What is 2 * 3 + 4?" (reactOptions 3) acting s0 = (Ok r, s')
    /\ ReAct.truncated r = true
    /\ ReAct.turns r = 3
    /\ ReAct.llmCalls r = 3
    /\ length (ReAct.trajectory r) = 6
    /\ ActingTurns 0 (ReAct.trajectory r).
Proof.
  apply (runReAct_always_acting acting "What is 2 * 3 + 4?" (reactOptions 3) s0).
  intros messages s.
  exists {| Llm.content := actionReply; Llm.finishReason := "stop";
            Llm.usage := Llm.zeroUsage |}.
  eexists.
  exists {| Parser.actionName := "calculate"; Parser.actionInput := "2 * 3 + 4" |}.
  split; [apply callLLM_first_reply; reflexivity|].
  split; [vm_compute; reflexivity|]. split; [vm_compute; reflexivity|].
  intros s1. exists "10", s1. vm_compute. reflexivity.
Defined.

(** C2 as stated fails: with one turn allowed and a model that always acts,
    the trajectory holds two events, more than [2 * 1 - 1]. *)
Lemma runReAct_trajectory_counterexample :
  AlwaysActs acting (reactOptions 1)
  /\ exists r s',
      ReAct.runReAct "What is 2 * 3 + 4?" (reactOptions 1) acting s0 = (Ok r, s')
      /\ ReAct.truncated r = true
      /\ ReAct.llmCalls r = 1
      /\ length (ReAct.trajectory r) = 2
      /\ ~ (Z.of_nat (length (ReAct.trajectory r))
            <= 2 * Z.of_nat (ReAct.maxTurns (reactOptions 1)) - 1)%Z.
Proof.
  split; [apply acting_always_acts|].
  do 2 eexists. split; [vm_compute; reflexivity|].
  cbn. repeat split; auto; lia.
Qed.

Lemma executeTool_wikipedia_rejects_witness :
  exists s',
    Tools.executeTool "wikipedia" "Paris" "" offline s0
    = (Throw (TypeError "Failed to fetch"), s').
Proof.
  apply (executeTool_wikipedia_rejects offline s0 "wikipedia" "Paris" ""
           (TypeError "Failed to fetch")); reflexivity.
Defined.

(** C6 as stated fails: the first pattern is not case-insensitive. *)
Lemma extractAnswer_case_counterexample :
  Parser.extractAnswer "THE ANSWER IS 42" = None
  /\ extractAnswerSpec "THE ANSWER IS 42" = Some "42".
Proof. split; vm_compute; reflexivity. Qed.

Lemma extractAnswer_priorities_witness :
  Parser.extractAnswer ("#### 17" ++ Tools.nl ++ "the answer is 1,000.")
  = Parser.cleanAnswer "1000"
  /\ Js.includes ("#### 17" ++ Tools.nl ++ "the answer is 1,000.") "he answer is" = true
  /\ forall r,
      Parser.extractAnswer ("#### 17" ++ Tools.nl ++ "the answer is 1,000.") = Some r ->
      ~ In ","%char (Js.chars r).
Proof.
  apply (proj1 extractAnswer_priorities
               ("#### 17" ++ Tools.nl ++ "the answer is 1,000.") "1000");
    vm_compute; reflexivity.
Defined.

(** A run of Plan-Execute that ends with no answer at all. *)
Lemma runPlanExecute_no_answer_example :
  exists r s',
    PlanExecute.runPlanExecute "Why is the sky blue?" planOptions silent s0 = (Ok r, s')
    /\ PlanExecute.resultPastSteps r = [("", Some "")]
    /\ PlanExecute.answer r = None
    /\ PlanExecute.error r = Some PlanExecute.noAnswerError.
Proof. do 2 eexists. split; [vm_compute; reflexivity|]. cbn. auto. Qed.

(** A run of Plan-Execute on a planner output without list items. *)
Lemma runPlanExecute_prose_plan_example :
  exists r s',
    PlanExecute.runPlanExecute "Why is the sky blue?" planOptions musing s0 = (Ok r, s')
    /\ Parser.parsePlanSteps (PlanExecute.planText r) = []
    /\ PlanExecute.resultPastSteps r = [("think it through", Some "  think it through  ")]
    /\ PlanExecute.answer r = Some "  think it through  "
    /\ PlanExecute.error r = None.
Proof. do 2 eexists. split; [vm_compute; reflexivity|]. cbn. auto. Qed.

Lemma short_keys_never_merge_witness :
  JsObj.own
    (CoT.mergeGroups
       [("9", {| CoT.count := 1; CoT.originals := [("9", CoT.Num 1)] |});
        ("89", {| CoT.count := 2; CoT.originals := [("89", CoT.Num 2)] |})]) "9"
  = Some {| CoT.count := 1; CoT.originals := [("9", CoT.Num 1)] |}
  /\ forall k', k' <> "9" -> CoT.areSimilar "9" k' = false /\ CoT.areSimilar k' "9" = false.
Proof.
  apply (short_keys_never_merge (CoT.entriesOf ["9"; "89"; "89"])).
  - vm_compute. reflexivity.
  - reflexivity.
  - cbn. lia.
Defined.

Lemma workStep_evidence_witness :
  let input := ReWOO.substitute [] (Parser.toolInput brokenSum) in
  exists v,
    [("#E1", "Calculation error: Unexpected token ')'")]
    = JsObj.set [] (Parser.variable brokenSum) v
    /\ JsObj.own [("#E1", "Calculation error: Unexpected token ')'")]
                 (Parser.variable brokenSum) = Some v
    /\ (forall k, k <> Parser.variable brokenSum ->
                  JsObj.own [("#E1", "Calculation error: Unexpected token ')'")] k
                  = JsObj.own [] k)
    /\ (JsObj.own (@nil (string * string)) (Parser.variable brokenSum) = None ->
        length [("#E1", "Calculation error: Unexpected token ')'")]
        = S (length (@nil (string * string))))
    /\ (JsObj.own (@nil (string * string)) (Parser.variable brokenSum) <> None ->
        length [("#E1", "Calculation error: Unexpected token ')'")]
        = length (@nil (string * string)))
    /\ (ReWOO.isLlmTool brokenSum = true ->
        exists r s1,
          Llm.callLLM [{| role := "user"; content := input |}] (workerLlm rewooOptions)
                      offline s0
          = (Ok r, s1)
          /\ v = Llm.content r)
    /\ (ReWOO.isLlmTool brokenSum = false ->
        exists result s1,
          Tools.executeTool (Parser.tool brokenSum) input (ReWOO.apiKey rewooOptions)
                            offline s0 = (Ok result, s1)
          /\ v = (if Js.startsWith result "Error:"
                  then "[FAILED: " ++ result ++ "]" else result)
          /\ forall msg, result = "Calculation error: " ++ msg -> v = result).
Proof.
  eapply (workStep_evidence rewooOptions brokenSum [] _ [] _ offline s0 _).
  - reflexivity.
  - vm_compute. reflexivity.
Defined.

End Runs.

(* ================================================================== *)
(** * The matcher against the patterns' meaning                         *)
(* ================================================================== *)

Section MatcherSemantics.
Import Regex.
Import Spec.

(** Whatever the matcher finds is a match of the pattern. *)
Lemma m_sound (fl : Flags) (r : re) :
  forall k s res,
    m fl r k s = Some res ->
    exists s', Matches fl r s s' /\ k s' = Some res.
Proof.
  induction r as [|c|p|r1 IH1 r2 IH2|r1 IH1 r2 IH2|g r1 IH1|i r1 IH1| | | |r1 IH1];
    intros k s res H; cbn [m] in H.
  - exists s. split; [constructor|exact H].
  - unfold step in H. destruct (after s) as [|c' t] eqn:E; [discriminate|].
    destruct (charEq fl c c') eqn:Ec; [|discriminate].
    eexists. split; [eapply MChar; eauto|exact H].
  - unfold step in H. destruct (after s) as [|c' t] eqn:E; [discriminate|].
    destruct (p c') eqn:Ep; [|discriminate].
    eexists. split; [eapply MClass; eauto|exact H].
  - apply IH1 in H. destruct H as (s1 & M1 & H).
    apply IH2 in H. destruct H as (s2 & M2 & H).
    exists s2. split; [econstructor; eauto|exact H].
  - unfold orElse in H. destruct (m fl r1 k s) eqn:E.
    + injection H as <-. apply IH1 in E. destruct E as (s1 & M1 & E).
      exists s1. split; [now apply MAltL|exact E].
    + apply IH2 in H. destruct H as (s1 & M1 & H).
      exists s1. split; [now apply MAltR|exact H].
  - remember (length (after s)) as n eqn:En in H. clear En. revert s res H.
    match goal with
    | |- forall s res, ?loop n s = _ -> _ => set (L := loop)
    end.
    induction n as [|n IHn]; intros s res H.
    + exists s. split; [constructor|exact H].
    + change (L (S n) s)
        with (let again :=
                m fl r1 (fun s' => if length (after s') <? length (after s)
                                   then L n s' else None) s in
              if g then orElse again (k s) else orElse (k s) again) in H.
      cbv zeta in H.
      assert (Hagain :
                forall res',
                  m fl r1 (fun s' => if length (after s') <? length (after s)
                                     then L n s' else None) s = Some res' ->
                  exists s', Matches fl (Star g r1) s s' /\ k s' = Some res').
      { intros res' Hr. apply IH1 in Hr. destruct Hr as (s1 & M1 & Hr).
        destruct (length (after s1) <? length (after s)); [|discriminate].
        apply IHn in Hr. destruct Hr as (s2 & M2 & Hr).
        exists s2. split; [eapply MStarMore; eauto|exact Hr]. }
      unfold orElse in H. destruct g.
      * match type of H with
        | match ?a with _ => _ end = _ => destruct a eqn:E
        end.
        -- injection H as <-. now apply Hagain.
        -- exists s. split; [constructor|exact H].
      * destruct (k s) eqn:E.
        -- injection H as <-. exists s. split; [constructor|exact E].
        -- now apply Hagain.
  - apply IH1 in H. destruct H as (s1 & M1 & H).
    eexists. split; [eapply MGroup; eauto|exact H].
  - destruct (atBol fl s) eqn:E; [|discriminate]. exists s. split; [now constructor|exact H].
  - destruct (atEol fl s) eqn:E; [|discriminate]. exists s. split; [now constructor|exact H].
  - destruct (atWordB s) eqn:E; [|discriminate]. exists s. split; [now constructor|exact H].
  - destruct (m fl r1 Some s) as [s1|] eqn:E; [|discriminate].
    apply IH1 in E. destruct E as (s2 & M2 & [= ->]).
    eexists. split; [eapply MAhead; eauto|exact H].
Qed.

(** A match passes over a stretch of the input and leaves the rest. *)
Lemma Matches_span (fl : Flags) (r : re) (s s' : MState) :
  Matches fl r s s' ->
  exists l, after s = (l ++ after s')%list /\ before s' = (rev l ++ before s)%list.
Proof.
  induction 1 as [s|p c t s E Ec|ok c t s E Ec|r1 r2 s s1 s2 _ IH1 _ IH2
                 |r1 r2 s s' _ IH|r1 r2 s s' _ IH|g r s|g r s s1 s2 _ IH1 _ IH2
                 |i r s s' _ IH|s E|s E|s E|r s s' _ IH].
  - now exists [].
  - exists [c]. cbn. auto.
  - exists [c]. cbn. auto.
  - destruct IH1 as (l1 & A1 & B1), IH2 as (l2 & A2 & B2).
    exists (l1 ++ l2)%list. rewrite A1, A2, B2, B1, rev_app_distr, !app_assoc. auto.
  - exact IH.
  - exact IH.
  - now exists [].
  - destruct IH1 as (l1 & A1 & B1), IH2 as (l2 & A2 & B2).
    exists (l1 ++ l2)%list. rewrite A1, A2, B2, B1, rev_app_distr, !app_assoc. auto.
  - exact IH.
  - now exists [].
  - now exists [].
  - now exists [].
  - now exists [].
Qed.

(** A pattern without groups leaves the captures alone. *)
Lemma Matches_groupFree (fl : Flags) (r : re) (s s' : MState) :
  Matches fl r s s' -> groupFree r = true -> caps s' = caps s.
Proof.
  induction 1 as [s|p c t s E Ec|ok c t s E Ec|r1 r2 s s1 s2 _ IH1 _ IH2
                 |r1 r2 s s' _ IH|r1 r2 s s' _ IH|g r s|g r s s1 s2 _ IH1 _ IH2
                 |i r s s' _ IH|s E|s E|s E|r s s' _ IH]; cbn [groupFree]; intros G;
    try reflexivity; try discriminate.
  - apply andb_true_iff in G. destruct G as [G1 G2]. now rewrite IH2, IH1.
  - apply andb_true_iff in G. destruct G as [G1 G2]. auto.
  - apply andb_true_iff in G. destruct G as [G1 G2]. auto.
  - now rewrite IH2, IH1.
  - cbn. auto.
Qed.

Lemma between_span (s s' : MState) (l : list ascii) :
  after s = (l ++ after s')%list -> between s s' = Js.str l.
Proof.
  intros E. unfold between. rewrite E, length_app.
  replace (length l + length (after s') - length (after s')) with (length l) by lia.
  now rewrite firstn_app, Nat.sub_diag, firstn_all, firstn_O, app_nil_r.
Qed.

(** A literal matches the literal text only. *)
Lemma Matches_Lit (fl : Flags) (l : list ascii) (s s' : MState) :
  ignoreCase fl = false ->
  Matches fl (Lit l) s s' -> after s = (l ++ after s')%list /\ caps s' = caps s.
Proof.
  intros Hi. revert s. induction l as [|c l IH]; intros s H; cbn [Lit] in H.
  - inversion H; subst. auto.
  - inversion H as [| | |r1 r2 s0 s1 s2 M1 M2| | | | | | | | |]; subst.
    inversion M1 as [|p c' t s0 E Ec| | | | | | | | | | |]; subst.
    unfold charEq in Ec. rewrite Hi in Ec. apply Ascii.eqb_eq in Ec. subst c'.
    apply IH in M2. cbn in M2. destruct M2 as [A C]. rewrite E, A. auto.
Qed.

(** A repeated class matches characters of the class only. *)
Lemma Matches_Star_Class (fl : Flags) (g : bool) (p : ascii -> bool) (s s' : MState) :
  Matches fl (Star g (Class p)) s s' ->
  exists l, after s = (l ++ after s')%list /\ forallb p l = true /\ caps s' = caps s.
Proof.
  remember (Star g (Class p)) as r eqn:Er.
  induction 1 as [s|p0 c t s E Ec|ok c t s E Ec|r1 r2 s s1 s2 _ IH1 _ IH2
                 |r1 r2 s s' _ IH|r1 r2 s s' _ IH|g0 r s|g0 r s s1 s2 M1 _ M2 IH2
                 |i r s s' _ IH|s E|s E|s E|r s s' _ IH]; try discriminate.
  - now exists [].
  - injection Er as -> ->. specialize (IH2 eq_refl). destruct IH2 as (l & A & F & C).
    inversion M1 as [| |ok c t s0 E Ec| | | | | | | | | |]; subst.
    exists (c :: l). cbn in A, C |- *. rewrite E, A, Ec, F. auto.
Qed.

Lemma Matches_Plus_Class (fl : Flags) (g : bool) (p : ascii -> bool) (s s' : MState) :
  Matches fl (Plus g (Class p)) s s' ->
  exists l, after s = (l ++ after s')%list /\ forallb p l = true /\ l <> []
            /\ caps s' = caps s.
Proof.
  unfold Plus. intros H.
  inversion H as [| | |r1 r2 s0 s1 s2 M1 M2| | | | | | | | |]; subst.
  inversion M1 as [| |ok c t s0 E Ec| | | | | | | | | |]; subst.
  apply Matches_Star_Class in M2. destruct M2 as (l & A & F & C).
  exists (c :: l). cbn in A, C |- *. rewrite E, A, Ec, F. repeat split; auto. discriminate.
Qed.

(** Reading a match of a compound pattern. *)
Lemma Matches_Seq (fl : Flags) (r1 r2 : re) (s s2 : MState) :
  Matches fl (Seq r1 r2) s s2 ->
  exists s1, Matches fl r1 s s1 /\ Matches fl r2 s1 s2.
Proof. inversion 1; subst; eauto. Qed.

Lemma Matches_Group (fl : Flags) (i : nat) (r : re) (s s' : MState) :
  Matches fl (Group i r) s s' ->
  exists s1, Matches fl r s s1 /\ after s' = after s1 /\ before s' = before s1
             /\ caps s' = setCap i (between s s1) (caps s1).
Proof. inversion 1; subst; eauto. Qed.

Lemma Matches_Char (fl : Flags) (c : ascii) (s s' : MState) :
  Matches fl (Char c) s s' ->
  exists c', after s = c' :: after s' /\ charEq fl c c' = true /\ caps s' = caps s.
Proof. inversion 1; subst; cbn; eauto. Qed.

Lemma Matches_Class (fl : Flags) (p : ascii -> bool) (s s' : MState) :
  Matches fl (Class p) s s' ->
  exists c, after s = c :: after s' /\ p c = true /\ caps s' = caps s.
Proof. inversion 1; subst; cbn; eauto. Qed.

Lemma Matches_Bol (fl : Flags) (s s' : MState) :
  Matches fl Bol s s' -> s' = s /\ atBol fl s = true.
Proof. inversion 1; subst; auto. Qed.

(** Reading a capture back. *)
Lemma find_setCap_same (i : nat) (v : string) (l : list (nat * string)) :
  find (fun p => fst p =? i) (setCap i v l) = Some (i, v).
Proof. unfold setCap. cbn. now rewrite Nat.eqb_refl. Qed.

Lemma find_setCap_other (i j : nat) (v : string) (l : list (nat * string)) :
  i <> j ->
  find (fun p => fst p =? i) (setCap j v l) = find (fun p => fst p =? i) l.
Proof.
  intros Hij. unfold setCap. cbn [find fst].
  assert ((j =? i) = false) as -> by (apply Nat.eqb_neq; auto).
  induction l as [|[a b] l IH]; cbn; auto.
  destruct (a =? j) eqn:Ej; cbn.
  - apply Nat.eqb_eq in Ej. subst a.
    assert ((j =? i) = false) as -> by (apply Nat.eqb_neq; auto). exact IH.
  - destruct (a =? i); auto.
Qed.

Lemma m_Seq (fl : Flags) (r1 r2 : re) (k : MState -> option MState) (s : MState) :
  m fl (Seq r1 r2) k s = m fl r1 (m fl r2 k) s.
Proof. reflexivity. Qed.

Lemma m_Group (fl : Flags) (i : nat) (r : re) (k : MState -> option MState) (s : MState) :
  m fl (Group i r) k s
  = m fl r (fun s' => k {| before := before s'; after := after s';
                           caps := setCap i (between s s') (caps s') |}) s.
Proof. reflexivity. Qed.

Lemma advance_nil (s : MState) (t : list ascii) : after s = t -> advance s [] t = s.
Proof. intros <-. unfold advance. cbn. now destruct s. Qed.

(** The steps of the matcher on a literal and on a repeated class. *)
Lemma m_Lit_ok (fl : Flags) (l : list ascii) :
  ignoreCase fl = false ->
  forall k s t,
    after s = (l ++ t)%list -> m fl (Lit l) k s = k (advance s l t).
Proof.
  intros Hi. induction l as [|c l IH]; intros k s t E; cbn [Lit m].
  - cbn in E. now rewrite (advance_nil s t E).
  - unfold step. rewrite E. cbn [app]. unfold charEq. rewrite Hi, Ascii.eqb_refl.
    rewrite (IH k _ t) by reflexivity. unfold advance. cbn.
    now rewrite <- app_assoc.
Qed.

Lemma m_Lit_fail (fl : Flags) (l : list ascii) :
  ignoreCase fl = false ->
  forall k s, Js.startsWithL l (after s) = false -> m fl (Lit l) k s = None.
Proof.
  intros Hi. induction l as [|c l IH]; intros k s E; cbn [Lit m].
  - discriminate.
  - unfold step. destruct (after s) as [|c' t] eqn:Ea; auto.
    cbn in E. unfold charEq. rewrite Hi. destruct (Ascii.eqb c c'); [|reflexivity].
    apply IH. exact E.
Qed.

Lemma star_greedy_step (fl : Flags) (p : ascii -> bool) (k : MState -> option MState)
      (s : MState) :
  m fl (Star true (Class p)) k s
  = match after s with
    | c :: t =>
        if p c then orElse (m fl (Star true (Class p)) k (advance s [c] t)) (k s)
        else k s
    | [] => k s
    end.
Proof.
  cbn [m]. destruct (after s) as [|c t] eqn:E; cbn [length].
  - reflexivity.
  - unfold step at 1. rewrite E. destruct (p c); [|reflexivity].
    cbn [after length].
    assert ((length t <? S (length t)) = true) as -> by (apply Nat.ltb_lt; lia).
    reflexivity.
Qed.

Lemma star_lazy_step (fl : Flags) (p : ascii -> bool) (k : MState -> option MState)
      (s : MState) :
  m fl (Star false (Class p)) k s
  = orElse (k s)
           match after s with
           | c :: t => if p c then m fl (Star false (Class p)) k (advance s [c] t) else None
           | [] => None
           end.
Proof.
  cbn [m]. destruct (after s) as [|c t] eqn:E; cbn [length].
  - unfold orElse. now destruct (k s).
  - unfold step at 1. rewrite E. destruct (p c); [|reflexivity].
    cbn [after length].
    assert ((length t <? S (length t)) = true) as -> by (apply Nat.ltb_lt; lia).
    reflexivity.
Qed.

Lemma advance_app (s : MState) (l1 l2 x t : list ascii) :
  advance (advance s l1 x) l2 t = advance s (l1 ++ l2) t.
Proof. unfold advance. cbn. now rewrite rev_app_distr, app_assoc. Qed.

(** A greedy class takes the longest stretch when what follows accepts it. *)
Lemma star_greedy_max (fl : Flags) (p : ascii -> bool) (k : MState -> option MState)
      (l : list ascii) :
  forall s t res,
    after s = (l ++ t)%list -> forallb p l = true ->
    match t with c :: _ => p c = false | [] => True end ->
    k (advance s l t) = Some res ->
    m fl (Star true (Class p)) k s = Some res.
Proof.
  induction l as [|c l IH]; intros s t res E F Ht Hk; rewrite star_greedy_step, E.
  - cbn [app]. rewrite (advance_nil s t E) in Hk.
    destruct t as [|c t]; auto. now rewrite Ht.
  - cbn [app]. cbn in F. apply andb_true_iff in F. destruct F as [Fc F]. rewrite Fc.
    rewrite (IH (advance s [c] (l ++ t)) t res); auto.
    now rewrite advance_app.
Qed.

(** A lazy class stops at the first place where what follows accepts. *)
Lemma star_lazy_first (fl : Flags) (p : ascii -> bool) (k : MState -> option MState) :
  forall input s res,
    after s = input ->
    m fl (Star false (Class p)) k s = Some res ->
    exists l t,
      input = (l ++ t)%list /\ forallb p l = true /\ k (advance s l t) = Some res
      /\ forall l1 c l2, l = (l1 ++ c :: l2)%list -> k (advance s l1 (c :: l2 ++ t)) = None.
Proof.
  induction input as [|c input IH]; intros s res E H; rewrite star_lazy_step, E in H;
    unfold orElse in H.
  - destruct (k s) eqn:Ek; [|discriminate]. injection H as <-.
    exists [], []. repeat split; auto.
    + now rewrite (advance_nil s [] E).
    + intros l1 c l2 Hl. now destruct l1.
  - destruct (k s) eqn:Ek.
    + injection H as <-. exists [], (c :: input). repeat split; auto.
      * now rewrite (advance_nil s _ E).
      * intros l1 c' l2 Hl. now destruct l1.
    + destruct (p c) eqn:Ep; [|discriminate].
      apply IH in H; [|reflexivity]. destruct H as (l & t & -> & F & Hk & Hmin).
      exists (c :: l), t. split; [reflexivity|]. split; [cbn; now rewrite Ep, F|].
      split.
      * now rewrite advance_app in Hk.
      * intros l1 c' l2 Hl. destruct l1 as [|a l1]; cbn in Hl.
        -- injection Hl as <- <-. cbn [app]. now rewrite (advance_nil s _ E).
        -- injection Hl as <- ->.
           specialize (Hmin l1 c' l2 eq_refl). now rewrite advance_app in Hmin.
Qed.

(** A star never fails when what follows accepts the place it starts at. *)
Lemma star_accepts (fl : Flags) (g : bool) (r : re) (k : MState -> option MState)
      (s : MState) :
  k s <> None -> m fl (Star g r) k s <> None.
Proof.
  intros Hk. cbn [m]. destruct (length (after s)) as [|n]; [exact Hk|].
  unfold orElse. destruct g.
  - match goal with |- match ?a with _ => _ end <> _ => destruct a end;
      [discriminate|exact Hk].
  - destruct (k s); [discriminate|]. now contradiction Hk.
Qed.

(** What a search returns was found at some place of the input, and no
    earlier place has a match. *)
Lemma search_at (fl : Flags) (r : re) :
  forall l pre n,
    length l <= n ->
    search fl r n {| before := pre; after := l; caps := [] |}
    = match matchAt fl r {| before := pre; after := l; caps := [] |} with
      | Some mt => Some mt
      | None =>
          match l with
          | c :: t => search fl r (Nat.pred n) {| before := c :: pre; after := t; caps := [] |}
          | [] => None
          end
      end.
Proof.
  intros l pre n Hn. destruct n as [|n]; cbn [search Nat.pred after before].
  - destruct (matchAt fl r _); auto. destruct l; [auto|cbn in Hn; lia].
  - destruct (matchAt fl r _); auto.
Qed.

Lemma execAllFrom_found (fl : Flags) (r : re) (n : nat) :
  forall s mt,
    In mt (execAllFrom fl r n s) ->
    exists s', matchAt fl r s' = Some mt.
Proof.
  induction n as [|n IH]; intros s mt H; cbn [execAllFrom] in H; [contradiction|].
  destruct (search fl r (length (after s)) s) as [mt0|] eqn:E; [|contradiction].
  assert (Hhead : exists s', matchAt fl r s' = Some mt0).
  { apply search_found in E. destruct E as (s' & E & _). eauto. }
  destruct (String.length (matched mt0) =? 0).
  - cbn [after] in H. destruct (rest mt0) as [|c t].
    + destruct H as [<-|[]]. exact Hhead.
    + destruct H as [<-|H]; [exact Hhead|]. eapply IH; eauto.
  - destruct H as [<-|H]; [exact Hhead|]. eapply IH; eauto.
Qed.

(** The captures of a match are those of a run of the pattern from a state
    without captures. *)
Lemma matchAt_Matches (fl : Flags) (r : re) (s : MState) (mt : Match) :
  matchAt fl r s = Some mt ->
  exists s', Matches fl r {| before := before s; after := after s; caps := [] |} s'
             /\ groups mt = caps s' /\ rest mt = after s'.
Proof.
  unfold matchAt. destruct (m fl r Some _) as [s'|] eqn:E; [|discriminate].
  intros [= <-]. apply m_sound in E. destruct E as (s1 & M1 & [= ->]).
  exists s'. auto.
Qed.

End MatcherSemantics.

(* ================================================================== *)
(** * More facts about strings                                          *)
(* ================================================================== *)

Section TrimFacts.

Lemma dropWhile_split {A} (p : A -> bool) (l : list A) :
  exists l1, l = (l1 ++ Js.dropWhile p l)%list /\ forallb p l1 = true.
Proof.
  induction l as [|a l IH]; cbn.
  - now exists [].
  - destruct (p a) eqn:E.
    + destruct IH as (l1 & H & F). exists (a :: l1). cbn. rewrite E, F. now rewrite <- H.
    + now exists [].
Qed.

Lemma dropWhile_head {A} (p : A -> bool) (l : list A) :
  match Js.dropWhile p l with a :: _ => p a = false | [] => True end.
Proof.
  induction l as [|a l IH]; cbn; auto.
  destruct (p a) eqn:E; auto.
Qed.

Lemma dropWhile_id {A} (p : A -> bool) (l : list A) :
  match l with a :: _ => p a = false | [] => True end -> Js.dropWhile p l = l.
Proof. destruct l as [|a l]; cbn; auto. now intros ->. Qed.

Lemma dropWhile_idem {A} (p : A -> bool) (l : list A) :
  Js.dropWhile p (Js.dropWhile p l) = Js.dropWhile p l.
Proof. apply dropWhile_id, dropWhile_head. Qed.

(** Dropping from the end keeps a first element that [p] rejects. *)
Lemma dropWhile_rev_head {A} (p : A -> bool) (a : A) (l : list A) :
  p a = false -> exists l', rev (Js.dropWhile p (rev (a :: l))) = a :: l'.
Proof.
  intros Ha. cbn [rev].
  assert (H : forall x, exists y, Js.dropWhile p (x ++ [a]) = (y ++ [a])%list).
  { induction x as [|b x IH]; cbn.
    - rewrite Ha. now exists [].
    - destruct (p b); [exact IH|]. now exists (b :: x). }
  destruct (H (rev l)) as (y & ->). exists (rev y). now rewrite rev_app_distr.
Qed.

Lemma trim_chars (s : string) :
  Js.chars (Js.trim s)
  = rev (Js.dropWhile Js.isWhiteSpace (rev (Js.dropWhile Js.isWhiteSpace (Js.chars s)))).
Proof. unfold Js.trim, Js.trimEnd, Js.trimStart. now rewrite !chars_str. Qed.

(** A trimmed string begins and ends with a character that is not white
    space. *)
Lemma trim_edges (s : string) :
  match Js.chars (Js.trim s) with c :: _ => Js.isWhiteSpace c = false | [] => True end
  /\ match rev (Js.chars (Js.trim s)) with
     | c :: _ => Js.isWhiteSpace c = false
     | [] => True
     end.
Proof.
  rewrite trim_chars. split.
  - pose proof (dropWhile_head Js.isWhiteSpace (Js.chars s)) as H.
    destruct (Js.dropWhile Js.isWhiteSpace (Js.chars s)) as [|a l]; [exact I|].
    destruct (dropWhile_rev_head Js.isWhiteSpace a l H) as (l' & ->). exact H.
  - rewrite rev_involutive. apply dropWhile_head.
Qed.

Lemma trim_fixed (s : string) :
  match Js.chars s with c :: _ => Js.isWhiteSpace c = false | [] => True end ->
  match rev (Js.chars s) with c :: _ => Js.isWhiteSpace c = false | [] => True end ->
  Js.trim s = s.
Proof.
  intros H1 H2. rewrite <- (str_chars (Js.trim s)), trim_chars.
  rewrite (dropWhile_id _ _ H1), (dropWhile_id _ _ H2), rev_involutive. apply str_chars.
Qed.

Lemma trim_idem (s : string) : Js.trim (Js.trim s) = Js.trim s.
Proof. destruct (trim_edges s). now apply trim_fixed. Qed.

(** Trimming the start first changes nothing. *)
Lemma trim_dropWhile (l : list ascii) :
  Js.trim (Js.str (Js.dropWhile Js.isWhiteSpace l)) = Js.trim (Js.str l).
Proof.
  rewrite <- (str_chars (Js.trim (Js.str (Js.dropWhile Js.isWhiteSpace l)))),
          <- (str_chars (Js.trim (Js.str l))), !trim_chars, !chars_str.
  now rewrite dropWhile_idem.
Qed.

Lemma chars_inj (s t : string) : Js.chars s = Js.chars t -> s = t.
Proof. intros H. now rewrite <- (str_chars s), <- (str_chars t), H. Qed.

Lemma truthy_chars (s : string) : Js.truthy s = true <-> Js.chars s <> [].
Proof. destruct s; cbn; split; try discriminate; auto. Qed.

End TrimFacts.

(* ================================================================== *)
(** * What the parsers return                                           *)
(* ================================================================== *)

Section LabelledAnswers.
Import Regex.
Import Spec.
Import Parser.

(** The pattern of a label followed by everything: "L\s*([\s\S]* )" with
    the blank left out. *)
Lemma label_at (label : string) (s : MState) :
  matchAt noFlags (Seqs [Str label; Star true ws; Group 1 (Star true any)]) s
  = if Js.startsWithL (Js.chars label) (after s)
    then Some {| index := pos s;
                 matched := Js.str (after s);
                 groups := [(1, Js.str (Js.dropWhile Js.isWhiteSpace
                                          (skipn (length (Js.chars label)) (after s))))];
                 rest := [] |}
    else None.
Proof.
  unfold matchAt. cbn [Seqs]. unfold Str. rewrite !m_Seq.
  destruct (Js.startsWithL (Js.chars label) (after s)) eqn:E.
  - assert (Ht : exists t, after s = (Js.chars label ++ t)%list).
    { clear -E. revert E. generalize (after s). generalize (Js.chars label).
      induction l as [|a l IH]; intros [|b r]; cbn; try discriminate; eauto.
      intros H. apply andb_true_iff in H. destruct H as [Hab H].
      apply Ascii.eqb_eq in Hab. subst b. destruct (IH _ H) as (t & ->). eauto. }
    destruct Ht as (t & Ht).
    rewrite (m_Lit_ok noFlags (Js.chars label) eq_refl _ _ t) by exact Ht.
    destruct (dropWhile_split Js.isWhiteSpace t) as (sp & Hsp & Fsp).
    set (t' := Js.dropWhile Js.isWhiteSpace t) in *.
    set (s1 := advance _ (Js.chars label) t).
    set (s2 := advance s1 sp t').
    set (res := {| before := before (advance s2 t' []); after := [];
                   caps := setCap 1 (between s2 (advance s2 t' [])) (caps (advance s2 t' [])) |}).
    assert (Hres : m noFlags (Star true ws) (m noFlags (Group 1 (Star true any)) Some) s1
                   = Some res).
    { apply (star_greedy_max noFlags Js.isWhiteSpace _ sp s1 t'); auto.
      - exact (dropWhile_head Js.isWhiteSpace t).
      - rewrite m_Group. fold s2.
        apply (star_greedy_max noFlags (fun _ => true) _ t' s2 []); auto.
        + cbn. now rewrite app_nil_r.
        + now apply forallb_forall. }
    rewrite m_Seq, Hres. cbn [after before caps res advance s2 s1].
    f_equal. f_equal.
    + unfold between. cbn [after]. rewrite Nat.sub_0_r, firstn_all. reflexivity.
    + rewrite (between_span s2 _ t') by (cbn; now rewrite app_nil_r).
      cbn. rewrite Ht, skipn_app, Nat.sub_diag, skipn_all. reflexivity.
  - now rewrite (m_Lit_fail noFlags (Js.chars label) eq_refl).
Qed.

(** The capture of a labelled answer: what follows the first occurrence of
    the label, without the white space before it. *)
Lemma label_capture (label text : string) :
  match exec noFlags (Seqs [Str label; Star true ws; Group 1 (Star true any)]) text with
  | Some mt => Some (Js.trim (group' 1 mt))
  | None => None
  end
  = match afterFirst (Js.chars label) (Js.chars text) with
    | Some t => Some (Js.trim (Js.str t))
    | None => None
    end.
Proof.
  unfold exec, start. rewrite <- length_chars.
  generalize (@nil ascii) as pre. generalize (Nat.le_refl (length (Js.chars text))).
  generalize (length (Js.chars text)) at 2 3 as n.
  induction (Js.chars text) as [|c l IH]; intros n Hn pre.
  - rewrite search_at by exact Hn. rewrite label_at. cbn [after afterFirst].
    destruct (Js.startsWithL (Js.chars label) []); [|reflexivity].
    unfold group'; cbn [group groups find fst snd Nat.eqb]. now rewrite trim_dropWhile.
  - rewrite search_at by exact Hn. rewrite label_at. cbn [after afterFirst].
    destruct (Js.startsWithL (Js.chars label) (c :: l)).
    + unfold group'; cbn [group groups find fst snd Nat.eqb]. now rewrite trim_dropWhile.
    + apply IH. cbn in Hn. lia.
Qed.

End LabelledAnswers.

Section ParsedShapes.
Import Regex.
Import Spec.
Import Parser.

Lemma afterFirst_includes (pat l : list ascii) :
  afterFirst pat l = None <-> Js.includesL pat l = false.
Proof.
  induction l as [|c l IH]; cbn [afterFirst Js.includesL].
  - destruct (Js.startsWithL pat []); cbn; split; auto; discriminate.
  - destruct (Js.startsWithL pat (c :: l)); cbn [orb]; [split; discriminate|exact IH].
Qed.

(** The answer of a ReAct reply is the text that follows the first
    "Answer:" of the reply, up to its end and trimmed; there is none exactly
    when the reply does not hold "Answer:". *)
Theorem parseReActAnswer_after_label (text : string) :
  parseReActAnswer text
  = match afterFirst (Js.chars "Answer:") (Js.chars text) with
    | Some t => Some (Js.trim (Js.str t))
    | None => None
    end
  /\ (parseReActAnswer text = None <-> Js.includes text "Answer:" = false).
Proof.
  assert (H : parseReActAnswer text
              = match afterFirst (Js.chars "Answer:") (Js.chars text) with
                | Some t => Some (Js.trim (Js.str t))
                | None => None
                end) by exact (label_capture "Answer:" text).
  split; [exact H|]. rewrite H. unfold Js.includes.
  rewrite <- afterFirst_includes.
  destruct (afterFirst _ _); split; auto; discriminate.
Qed.

Lemma word_not_space (c : ascii) : Js.isWordChar c = true -> Js.isWhiteSpace c = false.
Proof.
  unfold Js.isWordChar, Js.isWhiteSpace, Js.isDigit, Js.isUpper, Js.isLower.
  generalize (Js.code c). intros n H.
  repeat match type of H with
         | (_ || _) = true => apply orb_true_iff in H; destruct H as [H|H]
         | (_ && _) = true => apply andb_true_iff in H; destruct H as [H H']
         end;
    repeat match goal with
           | H : (_ <=? _) = true |- _ => apply Nat.leb_le in H
           | H : (_ =? _) = true |- _ => apply Nat.eqb_eq in H
           end;
    repeat (apply orb_false_iff; split); try apply andb_false_iff;
    try (apply Nat.eqb_neq; lia);
    try (left; apply Nat.leb_gt; lia); try (right; apply Nat.leb_gt; lia).
Qed.

Lemma forallb_incl {A} (p : A -> bool) (l l' : list A) :
  (forall x, In x l' -> In x l) -> forallb p l = true -> forallb p l' = true.
Proof.
  intros Hi H. apply forallb_forall. intros x Hx.
  rewrite forallb_forall in H. auto.
Qed.

(** The end of line that closes an action is found at every line
    terminator. *)
Lemma action_end_at_terminator (s : MState) (c : ascii) (t : list ascii) :
  after s = c :: t -> Js.isLineTerminator c = true ->
  m flagM (Alt (Seq (Char nl) (Str "PAUSE")) (Seq (Star true (Char nl)) Eol)) Some s <> None.
Proof.
  intros E Hc. cbn [m]. unfold orElse.
  match goal with |- match ?a with _ => _ end <> _ => destruct a end; [discriminate|].
  apply (star_accepts flagM true (Char nl)). 
  change (m flagM Eol Some s) with (if atEol flagM s then Some s else None).
  unfold atEol. rewrite E. cbn [multiline flagM andb]. now rewrite Hc.
Qed.

(** What a parsed action holds: the name of the tool is a non-empty run of
    word characters; the input is one trimmed line. *)
Theorem parseReActAction_shape (text : string) (a : Action) :
  parseReActAction text = Some a ->
  actionName a <> ""
  /\ forallb Js.isWordChar (Js.chars (actionName a)) = true
  /\ forallb (fun c => negb (Js.isLineTerminator c)) (Js.chars (actionInput a)) = true
  /\ Js.trim (actionInput a) = actionInput a.
Proof.
  unfold parseReActAction, exec.
  destruct (search flagM reAction _ _) as [mt|] eqn:E; [|discriminate].
  intros [= <-]. cbn [actionName actionInput].
  apply search_found in E. destruct E as (s0 & E & _).
  unfold matchAt in E.
  destruct (m flagM reAction Some _) as [res|] eqn:Em; [|discriminate].
  injection E as <-. unfold group'. cbn [group groups].
  unfold reAction in Em. cbn [Seqs] in Em.
  rewrite m_Seq in Em. apply m_sound in Em. destruct Em as (s1 & M1 & Em).
  apply Matches_Bol in M1. destruct M1 as [-> _].
  rewrite m_Seq in Em. apply m_sound in Em. destruct Em as (s2 & M2 & Em).
  apply (Matches_Lit flagM _ _ _ eq_refl) in M2. destruct M2 as [_ C2]. cbn [caps] in C2.
  rewrite m_Seq in Em. apply m_sound in Em. destruct Em as (s3 & M3 & Em).
  apply Matches_Star_Class in M3. destruct M3 as (_ & _ & _ & C3).
  rewrite m_Seq in Em. apply m_sound in Em. destruct Em as (s4 & M4 & Em).
  apply Matches_Group in M4. destruct M4 as (s4' & M4 & _ & _ & C4).
  apply Matches_Plus_Class in M4. destruct M4 as (name & A4 & F4 & N4 & C4').
  rewrite (between_span _ _ _ A4), C4', C3, C2 in C4.
  rewrite m_Seq in Em. apply m_sound in Em. destruct Em as (s5 & M5 & Em).
  apply Matches_Char in M5. destruct M5 as (_ & _ & _ & C5).
  rewrite m_Seq in Em. apply m_sound in Em. destruct Em as (s6 & M6 & Em).
  apply Matches_Star_Class in M6. destruct M6 as (_ & _ & _ & C6).
  rewrite m_Seq, m_Group in Em.
  apply (star_lazy_first flagM _ _ (after s6) s6 res eq_refl) in Em.
  destruct Em as (l & t & A7 & _ & Hk & Hmin).
  change (m flagM (Ahead ?L) Some ?st)
    with (match m flagM L Some st with
          | Some s' => Some {| before := before st; after := after st; caps := caps s' |}
          | None => None
          end) in Hk.
  match type of Hk with
  | match ?x with _ => _ end = _ => destruct x as [s8|] eqn:E8
  end; [|discriminate].
  injection Hk as <-. cbn [caps].
  apply m_sound in E8. destruct E8 as (s8' & M8 & [= ->]).
  apply Matches_groupFree in M8; [|reflexivity]. cbn [caps advance] in M8.
  rewrite (between_span s6 _ l) in M8 by (cbn; exact A7).
  rewrite M8, C6, C5, C4. unfold group, setCap.
  cbn [groups filter find fst snd Nat.eqb negb].
  assert (Hname : Js.trim (Js.str name) = Js.str name).
  { apply trim_fixed; rewrite chars_str.
    - destruct name as [|c name]; [exact I|]. cbn in F4.
      apply andb_true_iff in F4. now apply word_not_space.
    - pose proof (forallb_incl _ name (rev name) (fun x H => proj2 (in_rev _ _) H) F4) as F.
      destruct (rev name) as [|c r]; [exact I|]. cbn in F.
      apply andb_true_iff in F. now apply word_not_space. }
  rewrite Hname, chars_str. repeat split.
  - destruct name; [contradiction|discriminate].
  - exact F4.
  - apply forallb_forall. intros c Hc. apply trim_incl in Hc. rewrite chars_str in Hc.
    apply in_split in Hc. destruct Hc as (l1 & l2 & ->).
    specialize (Hmin l1 c l2 eq_refl).
    destruct (Js.isLineTerminator c) eqn:Et; [|reflexivity]. exfalso.
    change (m flagM (Ahead ?L) Some ?st)
      with (match m flagM L Some st with
            | Some s' => Some {| before := before st; after := after st; caps := caps s' |}
            | None => None
            end) in Hmin.
    match type of Hmin with
    | match ?x with _ => _ end = _ => destruct x eqn:E9
    end; [discriminate|].
    revert E9. apply (action_end_at_terminator _ c (l2 ++ t)); auto.
  - apply trim_idem.
Qed.

End ParsedShapes.

Section PlanShapes.
Import Regex.
Import Spec.
Import Parser.

Lemma Matches_Group_Plus_Class (fl : Flags) (i : nat) (g : bool) (p : ascii -> bool)
      (s s' : MState) :
  Matches fl (Group i (Plus g (Class p))) s s' ->
  exists l, l <> [] /\ forallb p l = true /\ caps s' = setCap i (Js.str l) (caps s).
Proof.
  intros H. apply Matches_Group in H. destruct H as (s1 & M & _ & _ & C).
  apply Matches_Plus_Class in M. destruct M as (l & A & F & N & C').
  exists l. rewrite (between_span _ _ _ A), C' in C. auto.
Qed.

(** The capture of "(#E\d+)". *)
Lemma Matches_variable (i : nat) (s s' : MState) :
  Matches noFlags (Group i (Seq (Str "#E") (Plus true digit))) s s' ->
  exists ds, ds <> [] /\ forallb Js.isDigit ds = true
             /\ caps s' = setCap i ("#E" ++ Js.str ds) (caps s).
Proof.
  intros H. apply Matches_Group in H. destruct H as (s1 & M & _ & _ & C).
  pose proof (Matches_span _ _ _ _ M) as (l & A & _).
  apply Matches_Seq in M. destruct M as (s2 & M1 & M2).
  apply (Matches_Lit noFlags _ _ _ eq_refl) in M1. destruct M1 as [A1 C1].
  apply Matches_Plus_Class in M2. destruct M2 as (ds & A2 & F & N & C2).
  exists ds. rewrite (between_span s s1 (Js.chars "#E" ++ ds)) in C.
  - rewrite C2, C1 in C. auto.
  - rewrite A1, A2. now rewrite <- app_assoc.
Qed.

Ltac next_piece H s M :=
  apply Matches_Seq in H; destruct H as (s & M & H).

(** The captures of a match of the strict plan pattern. *)
Lemma strict_groups (s : MState) (mt : Match) :
  matchAt noFlags reStrictPlan s = Some mt ->
  exists d ds w i,
    groups mt = setCap 4 (Js.str i) (setCap 3 (Js.str w)
                  (setCap 2 ("#E" ++ Js.str ds) (setCap 1 (Js.str d) [])))
    /\ ds <> [] /\ forallb Js.isDigit ds = true
    /\ w <> [] /\ forallb Js.isWordChar w = true
    /\ i <> [] /\ forallb (fun c => negb (oneOf "]" c)) i = true.
Proof.
  intros H. apply matchAt_Matches in H. destruct H as (s' & H & -> & _).
  unfold reStrictPlan in H. cbn [Seqs] in H.
  next_piece H s1 M1. apply (Matches_Lit noFlags _ _ _ eq_refl) in M1. destruct M1 as [_ C1].
  next_piece H s2 M2. apply Matches_Star_Class in M2. destruct M2 as (_ & _ & _ & C2).
  next_piece H s3 M3. apply Matches_Group_Plus_Class in M3. destruct M3 as (d & _ & _ & C3).
  next_piece H s4 M4. apply Matches_Star_Class in M4. destruct M4 as (_ & _ & _ & C4).
  next_piece H s5 M5. apply Matches_variable in M5. destruct M5 as (ds & Nd & Fd & C5).
  next_piece H s6 M6. apply Matches_Star_Class in M6. destruct M6 as (_ & _ & _ & C6).
  next_piece H s7 M7. apply Matches_Char in M7. destruct M7 as (_ & _ & _ & C7).
  next_piece H s8 M8. apply Matches_Star_Class in M8. destruct M8 as (_ & _ & _ & C8).
  next_piece H s9 M9. apply Matches_Group_Plus_Class in M9. destruct M9 as (w & Nw & Fw & C9).
  next_piece H s10 M10. apply Matches_Star_Class in M10. destruct M10 as (_ & _ & _ & C10).
  next_piece H s11 M11. apply Matches_Char in M11. destruct M11 as (_ & _ & _ & C11).
  next_piece H s12 M12.
  apply Matches_Group_Plus_Class in M12. destruct M12 as (i & Ni & Fi & C12).
  apply Matches_Char in H. destruct H as (_ & _ & _ & C13).
  exists d, ds, w, i.
  rewrite C13, C12, C11, C10, C9, C8, C7, C6, C5, C4, C3, C2, C1. cbn [caps].
  repeat split; auto.
Qed.

(** The captures of a match of the loose plan pattern. *)
Lemma loose_groups (s : MState) (mt : Match) :
  matchAt noFlags reLoosePlan s = Some mt ->
  exists ds w i,
    groups mt = setCap 3 (Js.str i) (setCap 2 (Js.str w) (setCap 1 ("#E" ++ Js.str ds) []))
    /\ ds <> [] /\ forallb Js.isDigit ds = true
    /\ w <> [] /\ forallb Js.isWordChar w = true
    /\ i <> [] /\ forallb (fun c => negb (oneOf "]" c)) i = true.
Proof.
  intros H. apply matchAt_Matches in H. destruct H as (s' & H & -> & _).
  unfold reLoosePlan in H. cbn [Seqs] in H.
  next_piece H s5 M5. apply Matches_variable in M5. destruct M5 as (ds & Nd & Fd & C5).
  next_piece H s6 M6. apply Matches_Star_Class in M6. destruct M6 as (_ & _ & _ & C6).
  next_piece H s7 M7. apply Matches_Char in M7. destruct M7 as (_ & _ & _ & C7).
  next_piece H s8 M8. apply Matches_Star_Class in M8. destruct M8 as (_ & _ & _ & C8).
  next_piece H s9 M9. apply Matches_Group_Plus_Class in M9. destruct M9 as (w & Nw & Fw & C9).
  next_piece H s10 M10. apply Matches_Star_Class in M10. destruct M10 as (_ & _ & _ & C10).
  next_piece H s11 M11. apply Matches_Char in M11. destruct M11 as (_ & _ & _ & C11).
  next_piece H s12 M12.
  apply Matches_Group_Plus_Class in M12. destruct M12 as (i & Ni & Fi & C12).
  apply Matches_Char in H. destruct H as (_ & _ & _ & C13).
  exists ds, w, i.
  rewrite C13, C12, C11, C10, C9, C8, C7, C6, C5. cbn [caps].
  repeat split; auto.
Qed.

Lemma str_nonempty (l : list ascii) : l <> [] -> Js.str l <> "".
Proof. destruct l; [contradiction|discriminate]. Qed.

Lemma no_bracket (i : list ascii) :
  forallb (fun c => negb (oneOf "]" c)) i = true -> ~ In "]"%char i.
Proof.
  intros F H. rewrite forallb_forall in F. specialize (F _ H). discriminate.
Qed.

(** Every step of a parsed ReWOO plan: its variable is "#E" followed by
    digits, its tool a non-empty word, its input non-empty and free of
    the closing bracket. *)
Theorem parseReWOOPlan_steps (text : string) (step : PlanStep) :
  In step (parseReWOOPlan text) ->
  (exists ds, ds <> [] /\ forallb Js.isDigit ds = true /\ variable step = "#E" ++ Js.str ds)
  /\ tool step <> "" /\ forallb Js.isWordChar (Js.chars (tool step)) = true
  /\ toolInput step <> "" /\ ~ In "]"%char (Js.chars (toolInput step)).
Proof.
  unfold parseReWOOPlan.
  match goal with |- In _ (if ?c then _ else _) -> _ => destruct c end;
    intros H; apply in_map_iff in H; destruct H as (mt & <- & H);
    apply execAllFrom_found in H; destruct H as (s & H).
  - apply strict_groups in H.
    destruct H as (d & ds & w & i & G & Nd & Fd & Nw & Fw & Ni & Fi).
    cbn [variable tool toolInput]. unfold group', group. rewrite G. unfold setCap.
    cbn [filter find fst snd Nat.eqb negb]. rewrite !chars_str.
    repeat split; eauto using str_nonempty, no_bracket.
  - apply loose_groups in H.
    destruct H as (ds & w & i & G & Nd & Fd & Nw & Fw & Ni & Fi).
    cbn [variable tool toolInput]. unfold group', group. rewrite G. unfold setCap.
    cbn [filter find fst snd Nat.eqb negb]. rewrite !chars_str.
    repeat split; eauto using str_nonempty, no_bracket.
Qed.


End PlanShapes.

Section PlanLists.
Import Regex.
Import Spec.
Import Parser.

Lemma m_Class_ok (fl : Flags) (p : ascii -> bool) (k : MState -> option MState)
      (s : MState) (c : ascii) (t : list ascii) :
  after s = c :: t -> p c = true -> m fl (Class p) k s = k (advance s [c] t).
Proof. intros E Hp. cbn [m]. unfold step. now rewrite E, Hp. Qed.

Lemma m_Bol_start (fl : Flags) (k : MState -> option MState) (s : MState) :
  before s = [] -> m fl Bol k s = k s.
Proof. intros E. cbn [m]. unfold atBol. now rewrite E. Qed.

Ltac peel H s M := apply Matches_Seq in H; destruct H as (s & M & H).

(** The capture of a list item is a stretch of one line. *)
Lemma numbered_capture (s : MState) (mt : Match) :
  matchAt noFlags reNumbered s = Some mt ->
  exists l, groups mt = [(1, Js.str l)] /\ forallb Js.isDot l = true.
Proof.
  intros H. apply matchAt_Matches in H. destruct H as (s' & H & -> & _).
  unfold reNumbered in H. cbn [Seqs] in H.
  peel H s1 M1. apply Matches_Bol in M1. destruct M1 as [-> _].
  peel H s2 M2. apply Matches_Star_Class in M2. destruct M2 as (_ & _ & _ & C2).
  peel H s3 M3. apply Matches_Plus_Class in M3. destruct M3 as (_ & _ & _ & _ & C3).
  peel H s4 M4. apply Matches_Class in M4. destruct M4 as (_ & _ & _ & C4).
  peel H s5 M5. apply Matches_Star_Class in M5. destruct M5 as (_ & _ & _ & C5).
  apply Matches_Group_Plus_Class in H. destruct H as (l & _ & F & C).
  exists l. rewrite C, C5, C4, C3, C2. auto.
Qed.

Lemma bullet_capture (s : MState) (mt : Match) :
  matchAt noFlags reBullet s = Some mt ->
  exists l, groups mt = [(1, Js.str l)] /\ forallb Js.isDot l = true.
Proof.
  intros H. apply matchAt_Matches in H. destruct H as (s' & H & -> & _).
  unfold reBullet in H. cbn [Seqs] in H.
  peel H s1 M1. apply Matches_Bol in M1. destruct M1 as [-> _].
  peel H s2 M2. apply Matches_Star_Class in M2. destruct M2 as (_ & _ & _ & C2).
  peel H s4 M4. apply Matches_Class in M4. destruct M4 as (_ & _ & _ & C4).
  peel H s5 M5. apply Matches_Plus_Class in M5. destruct M5 as (_ & _ & _ & _ & C5).
  apply Matches_Group_Plus_Class in H. destruct H as (l & _ & F & C).
  exists l. rewrite C, C5, C4, C2. auto.
Qed.

Lemma collectSteps_shape (r : re) (lines : list string) :
  (forall s mt, matchAt noFlags r s = Some mt ->
                exists l, groups mt = [(1, Js.str l)] /\ forallb Js.isDot l = true) ->
  length (collectSteps r lines) <= length lines
  /\ forall step, In step (collectSteps r lines) ->
                  Js.trim step = step
                  /\ forallb (fun c => negb (Js.isLineTerminator c)) (Js.chars step) = true.
Proof.
  intros Hr. induction lines as [|line lines [IHl IHs]]; cbn [collectSteps].
  - split; [auto|contradiction].
  - destruct (exec noFlags r line) as [mt|] eqn:E.
    + split; [cbn; lia|]. intros step [<-|H]; [|auto].
      apply search_found in E. destruct E as (s & E & _).
      apply Hr in E. destruct E as (l & G & F).
      unfold group', group. rewrite G. cbn [find fst snd Nat.eqb].
      split; [apply trim_idem|].
      apply forallb_forall. intros c Hc. apply trim_incl in Hc. rewrite chars_str in Hc.
      rewrite forallb_forall in F. exact (F c Hc).
    + split; [cbn; lia|auto].
Qed.

(** The steps read from a list: at most one per line, each a trimmed
    piece of a single line. *)
Theorem parsePlanSteps_steps (text : string) :
  length (parsePlanSteps text) <= length (Js.splitLines text)
  /\ forall step, In step (parsePlanSteps text) ->
                  Js.trim step = step
                  /\ forallb (fun c => negb (Js.isLineTerminator c)) (Js.chars step) = true.
Proof.
  unfold parsePlanSteps.
  destruct (0 <? length (collectSteps reNumbered (Js.splitLines text))).
  - apply collectSteps_shape. exact numbered_capture.
  - apply collectSteps_shape. exact bullet_capture.
Qed.

End PlanLists.

Section PlanRoundTrip.
Import Regex.
Import Spec.
Import Parser.

Lemma code_digit (r : nat) : r < 10 -> Js.isDigit (ascii_of_nat (48 + r)) = true.
Proof.
  intros H. unfold Js.isDigit, Js.code. rewrite nat_ascii_embedding by lia.
  apply andb_true_iff. split; apply Nat.leb_le; lia.
Qed.

Lemma digitsOf_digits (fuel : nat) :
  forall n acc,
    forallb Js.isDigit acc = true -> forallb Js.isDigit (Js.digitsOf fuel n acc) = true.
Proof.
  induction fuel as [|fuel IH]; intros n acc H; cbn [Js.digitsOf]; auto.
  assert (Hd : Js.isDigit (ascii_of_nat (48 + n mod 10)) = true).
  { apply code_digit. apply Nat.mod_upper_bound. lia. }
  destruct (n <? 10).
  - cbn [forallb]. now rewrite Hd.
  - apply IH. cbn [forallb]. now rewrite Hd.
Qed.

Lemma digitsOf_nonempty (fuel : nat) :
  forall n acc, acc <> [] -> Js.digitsOf fuel n acc <> [].
Proof.
  induction fuel as [|fuel IH]; intros n acc H; cbn [Js.digitsOf]; auto.
  destruct (n <? 10); [discriminate|]. apply IH. discriminate.
Qed.

(** A number is written with digits, at least one. *)
Lemma natToString_digits (n : nat) :
  exists d ds, Js.chars (Js.natToString n) = d :: ds
               /\ forallb Js.isDigit (d :: ds) = true.
Proof.
  unfold Js.natToString. rewrite chars_str.
  pose proof (digitsOf_digits (S n) n [] eq_refl) as F.
  assert (N : Js.digitsOf (S n) n [] <> []).
  { cbn [Js.digitsOf]. destruct (n <? 10); [discriminate|].
    apply digitsOf_nonempty. discriminate. }
  destruct (Js.digitsOf (S n) n []) as [|d ds]; [contradiction|]. eauto.
Qed.

Lemma digit_word (c : ascii) : Js.isDigit c = true -> Js.isWordChar c = true.
Proof. intros H. unfold Js.isWordChar. now rewrite H. Qed.

Lemma terminator_code (c : ascii) :
  Js.isLineTerminator c = false -> Js.code c <> 10.
Proof.
  unfold Js.isLineTerminator. intros H E. rewrite E in H. discriminate.
Qed.

Lemma splitLinesL_line (l : list ascii) :
  forall cur rest,
    (forall c, In c l -> Js.code c <> 10) ->
    Js.splitLinesL cur (l ++ rest) = Js.splitLinesL (rev l ++ cur) rest.
Proof.
  induction l as [|c l IH]; intros cur rest H; cbn [app rev Js.splitLinesL]; auto.
  assert ((Js.code c =? 10) = false) as -> by (apply Nat.eqb_neq, H; now left).
  rewrite IH by (intros x Hx; apply H; now right).
  now rewrite <- app_assoc.
Qed.

(** Splitting at line feeds undoes joining with line feeds. *)
Lemma splitLines_join (lines : list string) :
  lines <> [] ->
  Forall (fun line => forall c, In c (Js.chars line) -> Js.code c <> 10) lines ->
  Js.splitLines (Js.join Tools.nl lines) = lines.
Proof.
  unfold Js.splitLines. induction lines as [|x lines IH]; [contradiction|].
  intros _ H. apply Forall_cons_iff in H. destruct H as [Hx H].
  destruct lines as [|y lines].
  - cbn [Js.join]. rewrite <- (app_nil_r (Js.chars x)), splitLinesL_line by exact Hx.
    cbn [Js.splitLinesL]. now rewrite app_nil_r, rev_involutive, str_chars.
  - change (Js.join Tools.nl (x :: y :: lines))
      with (x ++ Tools.nl ++ Js.join Tools.nl (y :: lines)).
    rewrite chars_app, splitLinesL_line by exact Hx.
    rewrite chars_app. cbn [Tools.nl Js.chars list_ascii_of_string app Js.splitLinesL].
    change (Js.code (ascii_of_nat 10) =? 10) with true. cbv iota.
    rewrite app_nil_r, rev_involutive, str_chars. f_equal.
    apply IH; [discriminate|exact H].
Qed.

(** A well-formed step: not empty, trimmed, on one line. *)
Lemma step_head (step : string) :
  step <> "" -> Js.trim step = step ->
  forallb (fun c => negb (Js.isLineTerminator c)) (Js.chars step) = true ->
  exists h tl, Js.chars step = h :: tl /\ Js.isWhiteSpace h = false
               /\ forallb Js.isDot (h :: tl) = true.
Proof.
  intros N T F. destruct (trim_edges step) as [E _]. rewrite T in E.
  destruct (Js.chars step) as [|h tl] eqn:Ec.
  - destruct step; [contradiction|discriminate].
  - exists h, tl. auto.
Qed.

(** A numbered line is read back as its step. *)
Lemma numbered_line (i : nat) (step : string) :
  step <> "" -> Js.trim step = step ->
  forallb (fun c => negb (Js.isLineTerminator c)) (Js.chars step) = true ->
  exists mt,
    exec noFlags reNumbered (Js.natToString (i + 1) ++ ". " ++ step) = Some mt
    /\ group' 1 mt = step.
Proof.
  intros N T F.
  destruct (step_head step N T F) as (h & tl & Es & Hh & Fd).
  destruct (natToString_digits (i + 1)) as (d & ds & Ed & Fn).
  cbn [forallb] in Fn, Fd. apply andb_true_iff in Fn, Fd.
  destruct Fn as [Hd Fds], Fd as [Hhd Ftl].
  set (line := Js.natToString (i + 1) ++ ". " ++ step).
  assert (El : Js.chars line = (d :: ds ++ "."%char :: " "%char :: h :: tl)%list).
  { unfold line. rewrite !chars_app, Ed, Es. reflexivity. }
  set (s0 := {| before := []; after := Js.chars line; caps := [] |}).
  assert (Hm : exists res, m noFlags reNumbered Some s0 = Some res
                           /\ caps res = [(1, step)]).
  { eexists. split.
    - unfold reNumbered, ws, digit, dot, Plus. cbn [Seqs].
      rewrite m_Seq, m_Bol_start by reflexivity.
      rewrite m_Seq.
      apply (star_greedy_max noFlags Js.isWhiteSpace _ [] s0 (Js.chars line));
        [reflexivity|reflexivity| |].
      { rewrite El. apply word_not_space, digit_word, Hd. }
      rewrite (advance_nil s0 (Js.chars line) eq_refl).
      rewrite !m_Seq.
      rewrite (m_Class_ok noFlags _ _ s0 d (ds ++ "."%char :: " "%char :: h :: tl))
        by (auto using El).
      apply (star_greedy_max noFlags Js.isDigit _ ds _ ("."%char :: " "%char :: h :: tl));
        [reflexivity|exact Fds|reflexivity|].
      rewrite advance_app, m_Seq.
      rewrite (m_Class_ok noFlags _ _ _ "."%char (" "%char :: h :: tl))
        by (cbn; auto).
      rewrite advance_app, m_Seq.
      apply (star_greedy_max noFlags Js.isWhiteSpace _ [" "%char] _ (h :: tl));
        [reflexivity|reflexivity|exact Hh|].
      rewrite advance_app, m_Group, m_Seq.
      rewrite (m_Class_ok noFlags _ _ _ h tl) by (cbn; auto).
      apply (star_greedy_max noFlags Js.isDot _ tl _ []);
        [cbn; now rewrite app_nil_r|exact Ftl|exact I|].
      reflexivity.
    - cbn [caps advance]. unfold setCap. cbn [filter]. f_equal. f_equal.
      rewrite (between_span _ _ (h :: tl)) by (cbn; now rewrite app_nil_r).
      rewrite <- Es. apply str_chars. }
  destruct Hm as (res & Hm & Hc).
  exists {| index := 0; matched := between s0 res; groups := caps res; rest := after res |}.
  split.
  - unfold exec, start. fold s0.
    assert (Hat : matchAt noFlags reNumbered s0
                  = Some {| index := 0; matched := between s0 res; groups := caps res;
                            rest := after res |}).
    { unfold matchAt. cbn [before after s0]. fold s0. now rewrite Hm. }
    destruct (String.length line); cbn [search]; now rewrite Hat.
  - unfold group', group. cbn [groups]. rewrite Hc. reflexivity.
Qed.

Lemma line_no_feed (i : nat) (step : string) :
  forallb (fun c => negb (Js.isLineTerminator c)) (Js.chars step) = true ->
  forall c, In c (Js.chars (Js.natToString (i + 1) ++ ". " ++ step)) -> Js.code c <> 10.
Proof.
  intros F c H. rewrite !chars_app in H. apply in_app_or in H. destruct H as [H|H].
  - destruct (natToString_digits (i + 1)) as (d & ds & Ed & Fn). rewrite Ed in H.
    rewrite forallb_forall in Fn. specialize (Fn c H).
    unfold Js.isDigit in Fn. apply andb_true_iff in Fn. destruct Fn as [Fn _].
    apply Nat.leb_le in Fn. lia.
  - apply in_app_or in H. destruct H as [H|H].
    + cbn in H. destruct H as [<-|[<-|[]]]; cbn; lia.
    + rewrite forallb_forall in F. specialize (F c H).
      apply terminator_code. now apply negb_true_iff.
Qed.

Lemma collectSteps_numbered (plan : list string) :
  Forall (fun step =>
            step <> "" /\ Js.trim step = step
            /\ forallb (fun c => negb (Js.isLineTerminator c)) (Js.chars step) = true) plan ->
  forall i,
    collectSteps reNumbered
      (map (fun p => Js.natToString (fst p + 1) ++ ". " ++ snd p)
           (combine (seq i (length plan)) plan))
    = plan.
Proof.
  induction 1 as [|step plan (N & T & F) _ IH]; intros i; cbn [length seq combine map collectSteps].
  - reflexivity.
  - cbn [fst snd]. destruct (numbered_line i step N T F) as (mt & -> & G).
    rewrite G, T, IH. reflexivity.
Qed.

(** Writing a plan as a numbered list and reading it back gives the plan. *)
Theorem parsePlanSteps_numbered (plan : list string) :
  Forall (fun step =>
            step <> "" /\ Js.trim step = step
            /\ forallb (fun c => negb (Js.isLineTerminator c)) (Js.chars step) = true) plan ->
  parsePlanSteps (PlanExecute.numbered plan) = plan.
Proof.
  intros H. unfold parsePlanSteps, PlanExecute.numbered.
  destruct plan as [|step plan].
  - reflexivity.
  - rewrite splitLines_join.
    + rewrite (collectSteps_numbered _ H 0). reflexivity.
    + discriminate.
    + apply Forall_forall. intros line Hl. apply in_map_iff in Hl.
      destruct Hl as ([i st] & <- & Hin). cbn [fst snd].
      apply line_no_feed. apply in_combine_r in Hin.
      rewrite Forall_forall in H. now apply H.
Qed.

End PlanRoundTrip.

Section ExtractedAnswers.
Import Regex.
Import Spec.
Import Parser.

(** Every capture is made of characters of the input. *)
Lemma Matches_caps_incl (fl : Flags) (W : list ascii) (r : re) (s s' : MState) :
  Matches fl r s s' ->
  incl (after s) W ->
  (forall i v, In (i, v) (caps s) -> incl (Js.chars v) W) ->
  forall i v, In (i, v) (caps s') -> incl (Js.chars v) W.
Proof.
  induction 1 as [s|p c t s E Ec|ok c t s E Ec|r1 r2 s s1 s2 M1 IH1 M2 IH2
                 |r1 r2 s s' _ IH|r1 r2 s s' _ IH|g r s|g r s s1 s2 M1 IH1 M2 IH2
                 |i0 r s s' M IH|s E|s E|s E|r s s' _ IH]; intros HW Hc.
  - exact Hc.
  - exact Hc.
  - exact Hc.
  - apply IH2; [|now apply IH1].
    destruct (Matches_span _ _ _ _ M1) as (l & A & _). rewrite A in HW.
    intros x Hx. apply HW, in_or_app. now right.
  - now apply IH.
  - now apply IH.
  - exact Hc.
  - apply IH2; [|now apply IH1].
    destruct (Matches_span _ _ _ _ M1) as (l & A & _). rewrite A in HW.
    intros x Hx. apply HW, in_or_app. now right.
  - intros i v Hin. cbn [caps] in Hin. unfold setCap in Hin.
    destruct Hin as [[= <- <-]|Hin].
    + unfold between. rewrite chars_str. intros x Hx. apply HW.
      eapply firstn_incl; eauto.
    + apply filter_In in Hin. destruct Hin as [Hin _]. eapply IH; eauto.
  - exact Hc.
  - exact Hc.
  - exact Hc.
  - cbn [caps]. now apply IH.
Qed.

Lemma exec_group_incl (fl : Flags) (r : re) (text : string) (mt : Match) (i : nat) :
  exec fl r text = Some mt -> incl (Js.chars (group' i mt)) (Js.chars text).
Proof.
  unfold exec. intros H. apply search_found in H. destruct H as (s & H & [pre Hpre]).
  cbn [start after] in Hpre.
  apply matchAt_Matches in H. destruct H as (s' & M & G & _).
  unfold group', group. rewrite G.
  destruct (find _ (caps s')) as [[j v]|] eqn:Ef; [|intros x []].
  apply find_some in Ef. destruct Ef as [Ef _]. cbn [snd].
  eapply (Matches_caps_incl fl (Js.chars text)) in M; eauto.
  - cbn [after]. rewrite Hpre. intros x Hx. apply in_or_app. now right.
  - intros ? ? [].
Qed.

(** Where the answer of [extractAnswer] comes from. *)
Lemma extractAnswer_source (text r : string) :
  extractAnswer text = Some r ->
  exists a, cleanAnswer a = Some r
            /\ (matchAnswerIs text = Some a \/ matchHash text = Some a
                \/ matchConclusion text = Some a \/ matchAnswerLabel text = Some a).
Proof.
  unfold extractAnswer. destruct (negb (Js.truthy text)); [discriminate|].
  assert (Hu : forall answer attempt a,
             unlessSet answer attempt = Some a -> answer = Some a \/ attempt = Some a).
  { intros answer attempt a. unfold unlessSet.
    destruct (falsy answer); [|auto]. destruct attempt; auto. }
  match goal with
  | |- match ?x with _ => _ end = _ -> _ => destruct x as [a|] eqn:E
  end; [|discriminate].
  destruct (Js.truthy a); [|discriminate]. intros H. exists a. split; [exact H|].
  apply Hu in E. destruct E as [E|E]; [|tauto].
  apply Hu in E. destruct E as [E|E]; [|tauto].
  apply Hu in E. destruct E as [E|E]; [|tauto].
  destruct (matchAnswerIs text); [|discriminate]. tauto.
Qed.

Lemma attempt_incl (text a : string) :
  matchAnswerIs text = Some a \/ matchHash text = Some a
  \/ matchConclusion text = Some a \/ matchAnswerLabel text = Some a ->
  incl (Js.chars a) (Js.chars text).
Proof.
  unfold matchAnswerIs, matchHash, matchConclusion, matchAnswerLabel.
  intros [H|[H|[H|H]]];
    match type of H with
    | match ?x with _ => _ end = _ => destruct x as [mt|] eqn:E
    end; try discriminate; injection H as <-; intros c Hc; apply trim_incl in Hc.
  - rewrite replaceAll_char, chars_str in Hc. apply filter_In in Hc. destruct Hc as [Hc _].
    eapply exec_group_incl; eauto.
  - eapply exec_group_incl; eauto.
  - eapply exec_group_incl; eauto.
  - eapply exec_group_incl; eauto.
Qed.

(** An extracted answer is never the empty string, has no white space at
    its ends, and is made of characters of the text it was read from. *)
Theorem extractAnswer_result (text r : string) :
  extractAnswer text = Some r ->
  r <> "" /\ Js.trim r = r /\ incl (Js.chars r) (Js.chars text).
Proof.
  intros H. apply extractAnswer_source in H. destruct H as (a & Hc & Ha).
  pose proof (attempt_incl text a Ha) as Hi.
  split; [|split].
  - unfold cleanAnswer, orNull in Hc.
    destruct (Js.truthy _) eqn:Et; [|discriminate]. injection Hc as <-.
    intros E. rewrite E in Et. discriminate.
  - unfold cleanAnswer, orNull in Hc.
    destruct (Js.truthy _); [|discriminate]. injection Hc as <-. apply trim_idem.
  - intros c Hin. apply Hi. eapply cleanAnswer_incl; eauto.
Qed.

End ExtractedAnswers.

(* ================================================================== *)
(** * More on the LLM client                                            *)
(* ================================================================== *)

Section LlmClientMore.
Import Eff.
Import Llm.
Import Spec.







(** An iteration whose request is answered by a completion returns it. *)
Lemma attempt_completes (left attempt : nat) (lastError : Exn)
      (messages : list Message) (o : Options) (env : Env) (s : State)
      (tk st : Z) (data : ChatData) (choice : ChatChoice) (msg : ChatMessage) :
  NeverAborts (signal o) ->
  chatApi env (fetches s) (chatRequest messages o)
  = {| took := tk; outcome := Responds {| ok := true; status := st; payload := Parsed data |} |} ->
  choice0 data = Some choice -> message choice = Some msg ->
  exists s',
    attemptsFrom (S left) attempt lastError messages o env s
    = (Ok {| content := msgContent msg; finishReason := finish_reason choice;
             usage := match data_usage data with Some u => u | None => zeroUsage end |},
       s')
    /\ fetches s' = S (fetches s)
    /\ sleeps (log s')
       = (sleeps (log s) ++ if 0 <? attempt then [backoffDelay attempt] else [])%list
    /\ last (log s') (Warned "")
       = (if String.eqb (finish_reason choice) "length"
          then Warned ("LLM response truncated (finish_reason=length) for model " ++ model o)
          else Requested (fetches s) "/api/chat").
Proof.
  intros Hn Hr Hc Hm.
  cbn [attemptsFrom].
  generalize (attemptsFrom left (S attempt)); intros next.
  unfold bind at 1. unfold aborted at 1. rewrite Hn.
  destruct (0 <? attempt) eqn:H0;
    unfold bind, backoffWait, aborted, caught, exchange, ret, warn, emit, readCompletion;
    cbn -[String.eqb]; rewrite ?Hn; cbn -[String.eqb]; rewrite Hr; cbn -[String.eqb];
    rewrite Hc, Hm; unfold bind, warn, emit, ret;
    destruct (String.eqb (finish_reason choice) "length");
    (eexists; split; [reflexivity|]; cbn -[String.append]; split; [reflexivity|]);
    rewrite ?sleeps_app; cbn -[String.append]; rewrite ?app_nil_r;
    (split; [reflexivity|]); rewrite ?last_last; reflexivity.
Qed.


(** The errors that end a call at once: an AbortError thrown by [fetch],
    and a success response without a completion.  One request has been
    issued, and there is no wait and no second request. *)
Theorem callLLM_not_retried
        (env : Env) (s : State) (messages : list Message) (o : Options)
        (tk : Z) (out : FetchOutcome ChatData) (err : Exn) :
  abortedAt (signal o) (now s) = false ->
  chatApi env (fetches s) (chatRequest messages o) = {| took := tk; outcome := out |} ->
  (out = Rejects err /\ exnName err = "AbortError")
  \/ (exists resp, out = Responds resp /\ ok resp = true
                   /\ noCompletion (payload resp) = true
                   /\ err = Error "No completion returned from API") ->
  callLLM messages o env s
  = (Throw err, {| now := (now s + tk)%Z; fetches := S (fetches s);
                   log := (log s ++ [Requested (fetches s) "/api/chat"])%list |}).
Proof.
  intros Ha Hr Hcase. unfold callLLM. change (MAX_RETRIES + 1) with (S MAX_RETRIES).
  cbn [attemptsFrom].
  generalize (attemptsFrom MAX_RETRIES 1); intros next.
  unfold bind at 1. unfold aborted at 1. rewrite Ha.
  change (0 <? 0) with false. cbv iota.
  unfold bind, ret, caught, exchange. rewrite Hr. cbn [outcome took].
  destruct Hcase as [[-> Hname]|(resp & -> & Hok & Hno & ->)].
  - rewrite Hname. reflexivity.
  - rewrite Hok. unfold readCompletion.
    destruct (payload resp) as [data|m|]; cbn [noCompletion] in Hno; try discriminate.
    + destruct (choice0 data) as [choice|]; [|reflexivity].
      destruct (message choice); [discriminate|reflexivity].
    + reflexivity.
Qed.

End LlmClientMore.

(* ================================================================== *)
(** * More on the tools                                                 *)
(* ================================================================== *)

Section ToolsMore.
Import Eff.
Import Tools.
Import Spec.

(** What [calculate] hands to the evaluator: when the expression passes
    the guard it holds allowed characters only, has no white space at its
    ends, and is evaluated as it stands; otherwise nothing is evaluated. *)
Theorem calculate_evaluates (ev : string -> Completion) (expression : string) :
  (rejected expression = true /\ calculate ev expression = disallowedMessage)
  \/ (forallb allowedChar (Js.chars expression) = true
      /\ Js.trim expression = expression
      /\ calculate ev expression
         = match ev (dq ++ "use strict" ++ dq ++ "; return (" ++ expression ++ ")") with
           | Returns result => result
           | Throws msg => "Calculation error: " ++ msg
           end).
Proof.
  destruct (rejected expression) eqn:R.
  - left. split; [reflexivity|]. now apply calculate_rejected.
  - right.
    assert (Hall : forallb allowedChar (Js.chars expression) = true).
    { destruct (forallb allowedChar (Js.chars expression)) eqn:E; [reflexivity|].
      apply forallb_false in E. destruct E as (c & Hin & Hc).
      assert (rejected expression = true) by (apply calculate_guard; eauto). congruence. }
    assert (Htrim : Js.trim expression = expression).
    { destruct (string_dec (Js.trim expression) expression) as [E|E]; [exact E|].
      assert (rejected expression = true) by (apply calculate_guard; auto). congruence. }
    split; [exact Hall|]. split; [exact Htrim|].
    unfold calculate. unfold rejected in R. rewrite R.
    rewrite sanitized_filter, filter_all, str_chars by exact Hall. reflexivity.
Qed.

(** Once the search request has been answered, the Wikipedia tool returns,
    unless the summary request is rejected with the value [undefined]: a fixed
    message, after one request, when there is no hit; otherwise, after the
    summary request for the first hit, the snippets of the hits with their
    tags removed, preceded by the first 800 characters of the extract of the
    summary response exactly when that response holds an extract of more than
    20 characters.  A summary request that is rejected with an error is only
    logged, with the message of the error. *)
Theorem wikipedia_after_search
        (env : Env) (s : State) (query : string) (tk : Z) (okb : bool) (st : Z)
        (hits : list WikiHit) :
  wikiSearchApi env (fetches s) query
  = {| took := tk;
       outcome := Responds {| ok := okb; status := st; payload := Parsed hits |} |} ->
  (forall top rest,
      hits = top :: rest ->
      outcome (wikiSummaryApi env (S (fetches s)) (title top)) <> Rejects ThrownUndefined) ->
  exists r s',
    wikipedia query env s = (Ok r, s')
    /\ match hits with
       | [] => r = "No Wikipedia results found." /\ fetches s' = S (fetches s)
       | top :: _ =>
           let snippets :=
             Js.join (nl ++ nl)
                     (map (fun h => Regex.replaceAll Regex.noFlags reTag "" (snippet h)) hits) in
           let summary := outcome (wikiSummaryApi env (S (fetches s)) (title top)) in
           fetches s' = S (S (fetches s))
           /\ r = match summaryExtract summary with
                  | Some extract =>
                      "Summary of " ++ dq ++ title top ++ dq ++ ":" ++ nl
                        ++ slice0 800 extract ++ nl ++ nl ++ "---" ++ nl
                        ++ "Search snippets:" ++ nl ++ snippets
                  | None => snippets
                  end
           /\ (forall extract,
                  summaryExtract summary = Some extract ->
                  20 < String.length extract
                  /\ String.length (slice0 800 extract) <= 800
                  /\ (String.length extract <= 800 -> slice0 800 extract = extract))
           /\ (forall name message,
                  summary = Rejects (JsError name message) ->
                  last (log s') (Warned "")
                  = Warned ("Wikipedia summary fetch failed: " ++ message))
       end.
Proof.
  intros Hr Hobj. unfold wikipedia.
  unfold bind at 1. unfold exchange at 1. rewrite Hr. cbn [outcome took payload].
  unfold bind at 1. unfold ret at 1.
  destruct hits as [|top rest].
  - do 2 eexists. split; [reflexivity|]. cbn. auto.
  - cbv zeta. unfold bind at 1, caught, bind at 1, exchange. cbn [fetches].
    specialize (Hobj top rest eq_refl).
    assert (Hslice : forall extract,
               String.length (slice0 800 extract) <= 800
               /\ (String.length extract <= 800 -> slice0 800 extract = extract)).
    { intros extract. unfold slice0. split.
      - rewrite <- length_chars, chars_str. apply firstn_le_length.
      - intros Hl. rewrite <- length_chars in Hl. rewrite firstn_all2 by exact Hl.
        apply str_chars. }
    destruct (wikiSummaryApi env (S (fetches s)) (title top)) as [tk2 [e|[ok2 st2 pl]]];
      cbn [outcome took payload summaryExtract] in *.
    + unfold bind, warn, emit, ret. do 2 eexists. split; [reflexivity|].
      cbn [fetches log]. split; [reflexivity|]. split; [reflexivity|].
      split; [intros extract [=]|].
      intros name message [= ->]. now rewrite last_last.
    + destruct pl as [[extract|]|m|]; unfold ret, throw, bind, warn, emit.
      * destruct (Js.truthy extract && (20 <? String.length extract)) eqn:E;
          do 2 eexists; (split; [reflexivity|]); cbn [fetches];
          (split; [reflexivity|]); (split; [reflexivity|]);
          (split; [|intros name message [=]]).
        -- intros extract' [= <-]. apply andb_true_iff in E. destruct E as [_ E].
           apply Nat.ltb_lt in E. split; [exact E|]. apply Hslice.
        -- intros extract' [=].
      * do 2 eexists. split; [reflexivity|]. cbn [fetches].
        split; [reflexivity|]. split; [reflexivity|].
        split; [intros extract [=]|intros name message [=]].
      * do 2 eexists. split; [reflexivity|]. cbn [fetches].
        split; [reflexivity|]. split; [reflexivity|].
        split; [intros extract [=]|intros name message [=]].
      * do 2 eexists. split; [reflexivity|]. cbn [fetches log].
        split; [reflexivity|]. split; [reflexivity|].
        split; [intros extract [=]|intros name message [=]].
Qed.

(** The web search never fails on its own account: without a key it goes
    to Wikipedia without a request to the endpoint; with a key it issues one
    request and returns its content, or goes to Wikipedia when the request
    is turned down, brings no content or fails with an error.  (A request that
    is rejected with the value [undefined] is left out: the code cannot read
    the message of it.) *)
Theorem openaiWebSearch_falls_back
        (env : Env) (s : State) (query apiKey : string) :
  (apiKey = "" ->
   exists s1, openaiWebSearch query apiKey env s = wikipedia query env s1
              /\ fetches s1 = fetches s /\ now s1 = now s)
  /\ (apiKey <> "" ->
      let reply := webSearchApi env (fetches s) apiKey query in
      outcome reply <> Rejects ThrownUndefined ->
      exists s1,
        fetches s1 = S (fetches s) /\ now s1 = (now s + took reply)%Z
        /\ openaiWebSearch query apiKey env s
           = match webContent (outcome reply) with
             | Some content => (Ok content, s1)
             | None => wikipedia query env s1
             end).
Proof.
  split.
  - intros ->. unfold openaiWebSearch. cbn [Js.truthy String.eqb negb].
    unfold bind, warn, emit. eexists. split; [reflexivity|]. cbn. auto.
  - intros Hk reply Hobj. unfold openaiWebSearch.
    assert (Js.truthy apiKey = true) as -> by (destruct apiKey; [contradiction|reflexivity]).
    cbn [negb]. unfold bind at 1, caught, bind at 1, exchange at 1.
    fold reply. destruct (outcome reply) as [e|[okb st pl]] eqn:Eo; cbn [webContent].
    + unfold bind, warn, emit. eexists. split; [|split; [|reflexivity]]; reflexivity.
    + cbn [ok payload]. destruct okb; cbn [negb].
      * destruct pl as [[content|]|m|]; unfold ret, throw.
        -- destruct (Js.truthy content); eexists;
             (split; [|split; [|reflexivity]]); reflexivity.
        -- eexists. split; [|split; [|reflexivity]]; reflexivity.
        -- eexists. split; [|split; [|reflexivity]]; reflexivity.
        -- unfold bind, warn, emit. eexists. split; [|split; [|reflexivity]]; reflexivity.
      * unfold bind, warn, emit, ret. eexists. split; [|split; [|reflexivity]]; reflexivity.
Qed.

Lemma uniqueTools_spec (l : list Tool) :
  forall seen,
    NoDup (map description (uniqueTools seen l))
    /\ (forall t, In t (uniqueTools seen l) ->
                  In t l /\ ~ In (description t) seen)
    /\ (forall t, In t l ->
                  In (description t) seen
                  \/ In (description t) (map description (uniqueTools seen l))).
Proof.
  induction l as [|t l IH]; intros seen; cbn [uniqueTools].
  - split; [constructor|]. split; [intros ? []|intros ? []].
  - destruct (existsb (String.eqb (description t)) seen) eqn:E.
    + destruct (IH seen) as (N & S1 & S2). split; [exact N|]. split.
      * intros t' H. destruct (S1 t' H). auto using in_cons.
      * intros t' [<-|H]; [|auto]. left.
        apply existsb_exists in E. destruct E as (d & Hd & Ed).
        apply String.eqb_eq in Ed. now subst d.
    + destruct (IH (description t :: seen)) as (N & S1 & S2).
      assert (Hns : ~ In (description t) seen).
      { intros H. assert (existsb (String.eqb (description t)) seen = true).
        { apply existsb_exists. exists (description t). split; [exact H|].
          apply String.eqb_refl. }
        congruence. }
      split; [|split].
      * cbn [map]. constructor; [|exact N]. intros H. apply in_map_iff in H.
        destruct H as (t' & Hd & H). destruct (S1 t' H) as [_ Hn].
        apply Hn. left. now symmetry.
      * intros t' [<-|H]; [split; [now left|exact Hns]|].
        destruct (S1 t' H) as [H1 H2]. split; [now right|].
        intros H3. apply H2. now right.
      * intros t' [<-|H]; [right; now left|].
        destruct (S2 t' H) as [[H1|H1]|H1]; auto.
        -- right. cbn [map]. left. exact H1.
        -- right. cbn [map]. now right.
Qed.

(** The list of tools put into the prompts: every description of the
    registry is there once, under the first tool that carries it. *)
Theorem uniqueTools_distinct (l : list Tool) :
  NoDup (map description (uniqueTools [] l))
  /\ (forall t, In t (uniqueTools [] l) -> In t l)
  /\ (forall t, In t l -> In (description t) (map description (uniqueTools [] l)))
  /\ map name (uniqueTools [] (map snd (JsObj.entries toolRegistry)))
     = ["wikipedia"; "search"; "calculate"; "current_datetime"].
Proof.
  destruct (uniqueTools_spec l []) as (N & S1 & S2).
  split; [exact N|]. split; [|split].
  - intros t H. now destruct (S1 t H).
  - intros t H. destruct (S2 t H) as [[]|H']; exact H'.
  - reflexivity.
Qed.

Lemma lowerChar_idem (c : ascii) : Js.lowerChar (Js.lowerChar c) = Js.lowerChar c.
Proof. destruct c as [[] [] [] [] [] [] [] []]; reflexivity. Qed.

Lemma toLowerCase_idem (s : string) : Js.toLowerCase (Js.toLowerCase s) = Js.toLowerCase s.
Proof.
  unfold Js.toLowerCase. rewrite chars_str, map_map. f_equal.
  apply map_ext. intros c. apply lowerChar_idem.
Qed.

(** Dispatch by name: the case of the letters does not matter; "search"
    and "websearch", and "datetime" and "current_datetime", are the same
    tool; a name that is neither registered nor inherited gives, without any
    request, a string that begins with "Error:" and lists the six names. *)
Theorem executeTool_names (name input apiKey : string) :
  (JsObj.own toolRegistry (Js.toLowerCase name) <> None ->
   executeTool name input apiKey = executeTool (Js.toLowerCase name) input apiKey)
  /\ executeTool "websearch" input apiKey = executeTool "search" input apiKey
  /\ executeTool "datetime" input apiKey = executeTool "current_datetime" input apiKey
  /\ (JsObj.own toolRegistry (Js.toLowerCase name) = None ->
      JsObj.inherited (Js.toLowerCase name) = false ->
      forall env s,
        executeTool name input apiKey env s
        = (Ok ("Error: Unknown tool " ++ dq ++ name ++ dq
                 ++ ". Available tools: wikipedia, search, websearch, calculate, current_datetime, datetime"),
           s)).
Proof.
  split; [|split; [|split]].
  - intros H. unfold executeTool. rewrite toLowerCase_idem. unfold JsObj.get.
    destruct (JsObj.own toolRegistry (Js.toLowerCase name)); [reflexivity|contradiction].
  - reflexivity.
  - reflexivity.
  - intros E I env s. unfold executeTool, JsObj.get. now rewrite E, I.
Qed.

End ToolsMore.

(* ================================================================== *)
(** * Usage accounting                                                  *)
(* ================================================================== *)

Section UsageFacts.
Import Eff.
Import TokenCounter.
Import Spec.

Lemma sumUsage_from (l : list Usage) :
  forall acc,
    fold_left
      (fun acc u =>
         {| prompt_tokens := (prompt_tokens acc + prompt_tokens u)%Z;
            completion_tokens := (completion_tokens acc + completion_tokens u)%Z;
            total_tokens := (total_tokens acc + total_tokens u)%Z |})
      l acc
    = {| prompt_tokens := (prompt_tokens acc + prompt_tokens (sumUsage l))%Z;
         completion_tokens := (completion_tokens acc + completion_tokens (sumUsage l))%Z;
         total_tokens := (total_tokens acc + total_tokens (sumUsage l))%Z |}.
Proof.
  unfold sumUsage. induction l as [|u l IH] using rev_ind; intros acc.
  - cbn. destruct acc. cbn. f_equal; lia.
  - rewrite !fold_left_app. cbn [fold_left]. rewrite (IH acc). cbn.
    f_equal; lia.
Qed.

Lemma sumUsage_cons (u : Usage) (l : list Usage) :
  sumUsage (u :: l)
  = {| prompt_tokens := (prompt_tokens u + prompt_tokens (sumUsage l))%Z;
       completion_tokens := (completion_tokens u + completion_tokens (sumUsage l))%Z;
       total_tokens := (total_tokens u + total_tokens (sumUsage l))%Z |}.
Proof.
  unfold sumUsage at 1. cbn [fold_left]. rewrite sumUsage_from. cbn. reflexivity.
Qed.

Lemma sum_fields (a : list Usage) :
  prompt_tokens (sumUsage a) = fold_right Z.add 0%Z (map prompt_tokens a)
  /\ completion_tokens (sumUsage a) = fold_right Z.add 0%Z (map completion_tokens a)
  /\ total_tokens (sumUsage a) = fold_right Z.add 0%Z (map total_tokens a).
Proof.
  induction a as [|u a (IH1 & IH2 & IH3)]; [repeat split|].
  rewrite sumUsage_cons. cbn. rewrite IH1, IH2, IH3. repeat split.
Qed.

Lemma sum_nonneg (f : Usage -> Z) (l : list Usage) :
  Forall (fun u => (0 <= f u)%Z) l -> (0 <= fold_right Z.add 0 (map f l))%Z.
Proof. induction 1; cbn; lia. Qed.

Lemma sum_app (f : Usage -> Z) (p q : list Usage) :
  fold_right Z.add 0%Z (map f (p ++ q))
  = (fold_right Z.add 0 (map f p) + fold_right Z.add 0 (map f q))%Z.
Proof. induction p as [|u p IH]; cbn; [reflexivity|]. rewrite IH. lia. Qed.

Lemma sumUsage_perm (l c : list Usage) : Permutation l c -> sumUsage l = sumUsage c.
Proof.
  intros P. induction P as [|u l l' P IH|u v l|l l' l'' P1 IH1 P2 IH2].
  - reflexivity.
  - now rewrite !sumUsage_cons, IH.
  - rewrite !sumUsage_cons. cbn. f_equal; lia.
  - congruence.
Qed.

Lemma Countable_perm (l c : list Usage) : Countable l -> Permutation l c -> Countable c.
Proof.
  intros (Hpos & Hp & Hc & Ht) P. unfold Countable.
  split; [eapply Permutation_Forall; eassumption|].
  destruct (sum_fields l) as (E1 & E2 & E3).
  destruct (sum_fields c) as (F1 & F2 & F3).
  rewrite <- F1, <- F2, <- F3, <- (sumUsage_perm _ _ P), E1, E2, E3. auto.
Qed.

(** The sums of the first records of such a list are within the range. *)
Lemma Countable_prefix (p q : list Usage) : Countable (p ++ q) -> inRange (sumUsage p).
Proof.
  intros (Hpos & Hp & Hc & Ht).
  apply Forall_app in Hpos. destruct Hpos as [Pp Pq].
  rewrite sum_app in Hp, Hc, Ht.
  unfold inRange. destruct (sum_fields p) as (-> & -> & ->).
  assert (Forall (fun u => (0 <= prompt_tokens u)%Z) p
          /\ Forall (fun u => (0 <= completion_tokens u)%Z) p
          /\ Forall (fun u => (0 <= total_tokens u)%Z) p) as (P1 & P2 & P3).
  { repeat split; eapply Forall_impl; try exact Pp; cbn; intros u H; tauto. }
  assert (Forall (fun u => (0 <= prompt_tokens u)%Z) q
          /\ Forall (fun u => (0 <= completion_tokens u)%Z) q
          /\ Forall (fun u => (0 <= total_tokens u)%Z) q) as (Q1 & Q2 & Q3).
  { repeat split; eapply Forall_impl; try exact Pq; cbn; intros u H; tauto. }
  pose proof (sum_nonneg _ _ P1). pose proof (sum_nonneg _ _ P2).
  pose proof (sum_nonneg _ _ P3). pose proof (sum_nonneg _ _ Q1).
  pose proof (sum_nonneg _ _ Q2). pose proof (sum_nonneg _ _ Q3). lia.
Qed.

(** Records of natural counts whose totals stay within 2^53, the range in
    which the additions of the code are exact.  In whatever order the records
    are summed, every running sum of [sumUsage], which adds the records from
    the left, is within that range, so that no addition rounds; the aggregate
    is the field-wise sum of the records, is additive over concatenation and
    does not depend on the order of the records. *)
Theorem sumUsage_additive (a b : list Usage) :
  Countable (a ++ b) ->
  (forall c p q, Permutation (a ++ b) c -> c = (p ++ q)%list -> inRange (sumUsage p))
  /\ sumUsage (a ++ b)
     = {| prompt_tokens := (prompt_tokens (sumUsage a) + prompt_tokens (sumUsage b))%Z;
          completion_tokens :=
            (completion_tokens (sumUsage a) + completion_tokens (sumUsage b))%Z;
          total_tokens := (total_tokens (sumUsage a) + total_tokens (sumUsage b))%Z |}
  /\ (forall c, Permutation (a ++ b) c -> sumUsage (a ++ b) = sumUsage c)
  /\ prompt_tokens (sumUsage a) = fold_right Z.add 0%Z (map prompt_tokens a)
  /\ completion_tokens (sumUsage a) = fold_right Z.add 0%Z (map completion_tokens a)
  /\ total_tokens (sumUsage a) = fold_right Z.add 0%Z (map total_tokens a).
Proof.
  intros Hc. split; [|split; [|split]].
  - intros c p q P ->. apply (Countable_prefix p q). eapply Countable_perm; eassumption.
  - unfold sumUsage at 1. rewrite fold_left_app.
    fold (sumUsage a). now rewrite sumUsage_from.
  - intros c P. now apply sumUsage_perm.
  - apply sum_fields.
Qed.

Lemma length_append (s t : string) :
  String.length (s ++ t) = String.length s + String.length t.
Proof. now rewrite <- !length_chars, chars_app, length_app. Qed.

(** The token estimate is the length divided by four, rounded up: zero for
    the empty text only, and never more for a text than for its parts
    together. *)
Theorem estimateTokens_bounds (text more : string) :
  String.length text <= 4 * estimateTokens text
  /\ 4 * estimateTokens text < String.length text + 4
  /\ (estimateTokens text = 0 <-> text = "")
  /\ estimateTokens (text ++ more) <= estimateTokens text + estimateTokens more
  /\ estimateTokens text <= estimateTokens (text ++ more).
Proof.
  assert (H : forall s, estimateTokens s = (String.length s + 3) / 4).
  { intros s. unfold estimateTokens. destruct s; reflexivity. }
  assert (D : forall n, n <= 4 * ((n + 3) / 4) /\ 4 * ((n + 3) / 4) < n + 4).
  { intros n. pose proof (Nat.div_mod_eq (n + 3) 4) as E.
    pose proof (Nat.mod_upper_bound (n + 3) 4) as U. lia. }
  rewrite !H, length_append.
  destruct (D (String.length text)) as [D1 D2].
  destruct (D (String.length more)) as [D3 D4].
  destruct (D (String.length text + String.length more)) as [D5 D6].
  repeat split; try lia.
  - intros E. rewrite E in D1. destruct text; [reflexivity|]. cbn [String.length] in D1. lia.
  - intros ->. reflexivity.
Qed.

End UsageFacts.

(* ================================================================== *)
(** * The question classifier                                           *)
(* ================================================================== *)

Section ClassifierFacts.
Import Eff.
Import Classifier.
Import Spec.

(** The combined classifier never fails: the heuristic answers without a
    request; without a key nothing is asked and the type is factual; an
    LLM call that throws, the AbortError included, is caught and gives
    factual too. *)
Theorem classifyQuestionSmart_settles
        (question apiKey model : string) (signal : option AbortSignal)
        (env : Env) (s : State) :
  exists c s',
    classifyQuestionSmart question apiKey model signal env s = (Ok c, s')
    /\ (forall t, classifyQuestionHeuristic question = Some t ->
                  c = {| type := t; usage := None |} /\ s' = s)
    /\ (apiKey = "" -> usage c = None /\ s' = s)
    /\ (classifyQuestionHeuristic question = None -> usage c = None -> type c = Factual)
    /\ (forall e s1,
          classifyQuestionHeuristic question = None -> apiKey <> "" ->
          classifyQuestionWithLLM question apiKey model signal env s = (Throw e, s1) ->
          c = {| type := Factual; usage := None |}
          /\ last (log s') (Warned "")
             = Warned ("LLM classification failed, defaulting to factual: " ++ exnMessage e)).
Proof.
  unfold classifyQuestionSmart.
  destruct (classifyQuestionHeuristic question) as [t|] eqn:Eh.
  - do 2 eexists. split; [reflexivity|]. split; [|split; [|split]].
    + intros t' [= <-]. auto.
    + auto.
    + discriminate.
    + discriminate.
  - destruct apiKey as [|a k].
    + do 2 eexists. split; [reflexivity|]. split; [|split; [|split]].
      * discriminate.
      * auto.
      * auto.
      * intros e s1 _ H. contradiction.
    + cbn [Js.truthy String.eqb negb]. unfold bind, caught.
      destruct (classifyQuestionWithLLM question (String a k) model signal env s)
        as [[c|e] s1] eqn:Ec.
      * do 2 eexists. split; [reflexivity|]. split; [|split; [|split]].
        -- discriminate.
        -- discriminate.
        -- intros _ Hu. exfalso.
           unfold classifyQuestionWithLLM, bind in Ec.
           destruct (Llm.callLLM _ _ env s) as [[r|e] s2]; [|discriminate].
           unfold ret in Ec. injection Ec as <- <-. discriminate Hu.
        -- intros e s2 _ _ [=].
      * unfold warn, emit, ret. do 2 eexists. split; [reflexivity|].
        split; [|split; [|split]].
        -- discriminate.
        -- discriminate.
        -- auto.
        -- intros e' s2 _ _ [= <- <-]. split; [reflexivity|].
           cbn [log]. now rewrite last_last.
Qed.

Lemma lowerChar_space (c : ascii) : Js.isWhiteSpace (Js.lowerChar c) = Js.isWhiteSpace c.
Proof. destruct c as [[] [] [] [] [] [] [] []]; reflexivity. Qed.

Lemma map_dropWhile {A} (f : A -> A) (p : A -> bool) (l : list A) :
  (forall x, p (f x) = p x) ->
  map f (Js.dropWhile p l) = Js.dropWhile p (map f l).
Proof.
  intros H. induction l as [|a l IH]; cbn; auto.
  rewrite H. destruct (p a); auto.
Qed.

(** Lower-casing and trimming commute. *)
Lemma toLowerCase_trim (s : string) :
  Js.toLowerCase (Js.trim s) = Js.trim (Js.toLowerCase s).
Proof.
  apply chars_inj. unfold Js.toLowerCase at 1. rewrite chars_str, !trim_chars.
  unfold Js.toLowerCase. rewrite chars_str.
  rewrite map_rev, (map_dropWhile _ _ _ lowerChar_space), map_rev,
          (map_dropWhile _ _ _ lowerChar_space).
  reflexivity.
Qed.

(** The heuristic does not see the case of the letters or the white space
    around the question. *)
Theorem classifyQuestionHeuristic_normalizes (question : string) :
  classifyQuestionHeuristic (Js.toLowerCase question) = classifyQuestionHeuristic question
  /\ classifyQuestionHeuristic (Js.trim question) = classifyQuestionHeuristic question.
Proof.
  unfold classifyQuestionHeuristic.
  rewrite toLowerCase_idem, toLowerCase_trim, trim_idem. auto.
Qed.

End ClassifierFacts.

(* ================================================================== *)
(** * More on the CoT aggregator                                        *)
(* ================================================================== *)

Section SimilarAnswers.
Import Regex.
Import CoT.
Import Spec.

(** The pattern made from an escaped text is the text, taken literally. *)
Lemma parseEscaped_escapeRegex (s : string) :
  parseEscaped (Js.chars (escapeRegex s)) = Lit (Js.chars s).
Proof.
  unfold escapeRegex. rewrite chars_str.
  induction (Js.chars s) as [|c l IH]; [reflexivity|].
  cbn [flat_map Lit].
  destruct (oneOf ".*+?^${}()|[]\" c) eqn:E; cbn [app parseEscaped].
  - rewrite Ascii.eqb_refl. now rewrite IH.
  - destruct (Ascii.eqb c "\") eqn:Ec.
    + apply Ascii.eqb_eq in Ec. subst c. discriminate E.
    + now rewrite IH.
Qed.

Lemma includesL_same_length (p l : list ascii) :
  length p = length l -> Js.includesL p l = true -> p = l.
Proof.
  intros Hlen H.
  assert (Hs : forall p l, Js.startsWithL p l = true -> exists t, l = (p ++ t)%list).
  { clear. induction p as [|a p IH]; intros [|b l]; cbn; try discriminate; eauto.
    intros H. apply andb_true_iff in H. destruct H as [Hab H].
    apply Ascii.eqb_eq in Hab. subst b. destruct (IH _ H) as (t & ->). eauto. }
  assert (Hi : forall l, Js.includesL p l = true -> exists pre t, l = (pre ++ p ++ t)%list).
  { clear -Hs. induction l as [|c l IH]; cbn [Js.includesL]; intros H.
    - apply orb_true_iff in H. destruct H as [H|H]; [|discriminate].
      apply Hs in H. destruct H as (t & ->). now exists [], t.
    - apply orb_true_iff in H. destruct H as [H|H].
      + apply Hs in H. destruct H as (t & ->). now exists [], t.
      + destruct (IH H) as (pre & t & ->). now exists (c :: pre), t. }
  destruct (Hi l H) as (pre & t & ->).
  rewrite !length_app in Hlen.
  destruct pre; [|cbn in Hlen; lia]. destruct t; [|cbn in Hlen; lia].
  cbn. now rewrite app_nil_r.
Qed.

(** The test of [areSimilar] succeeds only where the shorter text stands in
    the longer one. *)
Lemma similar_test_includes (shorter longer : string) :
  test noFlags
       (Seqs [Alt Bol WordB; parseEscaped (Js.chars (escapeRegex shorter)); Alt WordB Eol])
       longer = true ->
  Js.includes longer shorter = true.
Proof.
  unfold test, exec. destruct (search _ _ _ _) as [mt|] eqn:E; [|discriminate]. intros _.
  apply search_found in E. destruct E as (s' & E & [pre Hpre]).
  cbn [start after] in Hpre. unfold matchAt in E.
  destruct (m noFlags _ Some _) as [res|] eqn:Em; [|discriminate].
  cbn [Seqs] in Em. rewrite m_Seq in Em. apply m_sound in Em.
  destruct Em as (s1 & M1 & Em).
  assert (Hs1 : after s1 = after s').
  { inversion M1 as [| | | |r1 r2 s0 s2 M|r1 r2 s0 s2 M| | | | | | |]; subst;
      inversion M; subst; reflexivity. }
  rewrite m_Seq, parseEscaped_escapeRegex in Em.
  apply (m_Lit noFlags _ eq_refl) in Em. destruct Em as (t & Ht).
  unfold Js.includes. rewrite Hpre, <- Hs1, Ht. apply includesL_found.
Qed.

(** [areSimilar] does not depend on the order of its arguments, and two
    different answers are similar only when both have two characters or
    more and the shorter one stands in the longer one; in particular two
    different answers of the same length never are. *)
Theorem areSimilar_contains (a b : string) :
  areSimilar a b = areSimilar b a
  /\ (areSimilar a b = true -> a <> b ->
      2 <= String.length a /\ 2 <= String.length b
      /\ String.length a <> String.length b
      /\ (if String.length a <=? String.length b then Js.includes b a else Js.includes a b)
         = true).
Proof.
  assert (Hsame : forall x y : string,
             x <> y -> String.length x = String.length y ->
             test noFlags
                  (Seqs [Alt Bol WordB; parseEscaped (Js.chars (escapeRegex x)); Alt WordB Eol])
                  y = false).
  { intros x y Hxy Hlen.
    match goal with |- ?t = false => destruct t eqn:E end; [|reflexivity].
    apply similar_test_includes in E. exfalso. apply Hxy. apply chars_inj.
    apply includesL_same_length; [now rewrite !length_chars|exact E]. }
  unfold areSimilar.
  destruct (String.eqb a b) eqn:Eab.
  - apply String.eqb_eq in Eab. subst b. rewrite String.eqb_refl.
    split; [reflexivity|]. intros _ H. contradiction.
  - assert (Hab : a <> b) by now apply String.eqb_neq.
    assert (String.eqb b a = false) as -> by (apply String.eqb_neq; congruence).
    rewrite (orb_comm (String.length b <? 2)).
    destruct ((String.length a <? 2) || (String.length b <? 2)) eqn:Es.
    + split; [reflexivity|discriminate].
    + apply orb_false_iff in Es. destruct Es as [Ha Hb].
      apply Nat.ltb_ge in Ha, Hb.
      destruct (Nat.lt_trichotomy (String.length a) (String.length b)) as [Hlt|[Heq|Hgt]].
      * assert ((String.length a <=? String.length b) = true) as ->
            by (apply Nat.leb_le; lia).
        assert ((String.length b <=? String.length a) = false) as ->
            by (apply Nat.leb_gt; lia).
        split; [reflexivity|]. intros H _. repeat split; try lia.
        now apply similar_test_includes.
      * rewrite Heq, Nat.leb_refl.
        rewrite (Hsame a b Hab Heq), (Hsame b a) by congruence.
        split; [reflexivity|discriminate].
      * assert ((String.length a <=? String.length b) = false) as ->
            by (apply Nat.leb_gt; lia).
        assert ((String.length b <=? String.length a) = true) as ->
            by (apply Nat.leb_le; lia).
        split; [reflexivity|]. intros H _. repeat split; try lia.
        now apply similar_test_includes.
Qed.

End SimilarAnswers.

Section VoteCounts.
Import Eff.
Import CoT.
Import Spec.

Lemma votes_cons (e : string * VoteGroup) (o : JsObj.t VoteGroup) :
  votes (e :: o) = (count (snd e) + votes o)%Z.
Proof. reflexivity. Qed.

Lemma votes_update_own (o : JsObj.t VoteGroup) (k : string) (g g' : VoteGroup) :
  JsObj.own o k = Some g ->
  votes (JsObj.update o k g') = (votes o - count g + count g')%Z.
Proof.
  induction o as [|[k0 g0] o IH]; cbn [JsObj.own JsObj.update]; [discriminate|].
  destruct (String.eqb k k0).
  - intros [= ->]. rewrite !votes_cons. cbn [snd]. lia.
  - intros H. rewrite !votes_cons, (IH H). lia.
Qed.

Lemma votes_update_new (o : JsObj.t VoteGroup) (k : string) (g' : VoteGroup) :
  JsObj.own o k = None -> votes (JsObj.update o k g') = (votes o + count g')%Z.
Proof.
  induction o as [|[k0 g0] o IH]; cbn [JsObj.own JsObj.update].
  - intros _. cbn. lia.
  - destruct (String.eqb k k0); [discriminate|]. intros H.
    rewrite !votes_cons, (IH H). lia.
Qed.

Lemma votes_nonneg (l : JsObj.t VoteGroup) :
  Forall (fun e => (1 <= count (snd e))%Z) l -> (0 <= votes l)%Z.
Proof. induction 1 as [|y l Hy H IH]; [cbn; lia|rewrite votes_cons; lia]. Qed.

Lemma Forall_update {V} (Q : V -> Prop) (o : JsObj.t V) (k : string) (v : V) :
  Forall (fun e => Q (snd e)) o -> Q v -> Forall (fun e => Q (snd e)) (JsObj.update o k v).
Proof.
  intros H Hv. induction H as [|[k0 v0] o H0 H IH]; cbn [JsObj.update].
  - constructor; auto.
  - destruct (String.eqb k k0); constructor; auto.
Qed.

Lemma own_of_key {V} (o : JsObj.t V) (k : string) :
  In k (map fst o) -> exists v, JsObj.own o k = Some v.
Proof.
  induction o as [|[k0 v0] o IH]; cbn [map fst In JsObj.own]; [contradiction|].
  destruct (String.eqb k k0) eqn:E; [eauto|].
  intros [->|H]; [now rewrite String.eqb_refl in E|auto].
Qed.

Lemma own_none_key {V} (o : JsObj.t V) (k : string) :
  JsObj.own o k = None -> ~ In k (map fst o).
Proof.
  intros H Hin. apply own_of_key in Hin. destruct Hin as (v & Hv). congruence.
Qed.

Lemma not_key_own {V} (o : JsObj.t V) (k : string) :
  ~ In k (map fst o) -> JsObj.own o k = None.
Proof.
  intros H. destruct (JsObj.own o k) eqn:E; [|reflexivity].
  exfalso. apply H. eapply own_key; eauto.
Qed.

(** Putting a group under a key that is not "__proto__". *)
Lemma Tallied_put (groups : JsObj.t VoteGroup) (n : Z) (k : string) (g' : VoteGroup) :
  Tallied groups n -> k <> "__proto__" -> (1 <= count g')%Z ->
  Tallied (JsObj.set groups k g')
          (n + count g' - match JsObj.own groups k with Some g => count g | None => 0 end).
Proof.
  intros (Hv & Hc & Hp) Hk Hg. unfold JsObj.set.
  apply String.eqb_neq in Hk. rewrite Hk. apply String.eqb_neq in Hk.
  split; [|split].
  - destruct (JsObj.own groups k) as [g|] eqn:E.
    + rewrite (votes_update_own _ _ g) by exact E. lia.
    + rewrite votes_update_new by exact E. lia.
  - now apply (Forall_update (fun g => (1 <= count g)%Z)).
  - intros H. apply keys_update in H. destruct H as [H|H]; [congruence|auto].
Qed.

Lemma tallyInto_Tallied (groups groups' : JsObj.t VoteGroup) (key original : string) (n : Z) :
  tallyInto groups key original = Ok groups' ->
  Tallied groups n -> Tallied groups' (n + 1).
Proof.
  unfold tallyInto, JsObj.get. intros H T.
  destruct (JsObj.own groups key) as [g|] eqn:E.
  - injection H as <-.
    assert (Hk : key <> "__proto__").
    { intros ->. destruct T as (_ & _ & Hp). apply Hp. eapply own_key; eauto. }
    pose proof (Tallied_put groups n key
                  {| count := count g + 1;
                     originals := JsObj.set (originals g) original
                                    (tallyPlus (JsObj.get (originals g) original) (Num 1)) |}
                  T Hk) as P.
    rewrite E in P. cbn [count] in P.
    replace (n + 1)%Z with (n + (count g + 1) - count g)%Z by lia. apply P.
    destruct T as (_ & Hc & _). rewrite Forall_forall in Hc.
    specialize (Hc (key, g) (own_In _ _ _ E)). cbn in Hc. lia.
  - destruct (JsObj.inherited key) eqn:I; [discriminate|]. injection H as <-.
    assert (Hk : key <> "__proto__") by (intros ->; discriminate I).
    pose proof (Tallied_put groups n key
                  {| count := 1;
                     originals := JsObj.set [] original
                                    (tallyPlus (JsObj.get [] original) (Num 1)) |}
                  T Hk) as P.
    rewrite E in P. cbn [count] in P.
    replace (n + 1)%Z with (n + 1 - 0)%Z by lia. apply P. lia.
Qed.

Lemma groupEntries_Tallied (keyOf : Entry -> string) (entries : list Entry) :
  forall groups groups' n,
    groupEntries keyOf entries groups = Ok groups' ->
    Tallied groups n -> Tallied groups' (n + Z.of_nat (length entries)).
Proof.
  induction entries as [|e entries IH]; intros groups groups' n H T; cbn [groupEntries] in H.
  - injection H as <-. cbn. now rewrite Z.add_0_r.
  - destruct (tallyInto groups (keyOf e) (original e)) as [g1|] eqn:E; [|discriminate].
    apply (IH _ _ (n + 1)%Z) in H; [|eapply tallyInto_Tallied; eauto].
    replace (n + Z.of_nat (length (e :: entries)))%Z
      with (n + 1 + Z.of_nat (length entries))%Z by (cbn [length]; lia).
    exact H.
Qed.

Lemma Tallied_nil : Tallied [] 0.
Proof. split; [reflexivity|split; [constructor|intros []]]. Qed.

Lemma votes_perm (a b : JsObj.t VoteGroup) : Permutation a b -> votes a = votes b.
Proof.
  induction 1 as [|x l l' _ IH|x y l|l l' l'' _ IH1 _ IH2]; rewrite ?votes_cons; lia.
Qed.

Lemma Tallied_perm (a b : JsObj.t VoteGroup) (n : Z) :
  Permutation a b -> Tallied a n -> Tallied b n.
Proof.
  intros P (Hv & Hc & Hp). split; [|split].
  - now rewrite <- (votes_perm a b P).
  - eapply Permutation_Forall; eauto.
  - intros H. apply Hp. eapply Permutation_in; [|exact H].
    apply Permutation_map, Permutation_sym, P.
Qed.

(** A round of the merge adds the votes of the group it takes in. *)
Lemma mergeOne_Tallied (merged : JsObj.t VoteGroup) (m : Z) (key : string) (g : VoteGroup) :
  Tallied merged m -> ~ In key (map fst merged) ->
  key <> "__proto__" -> (1 <= count g)%Z ->
  Tallied (mergeOne merged (key, g)) (m + count g).
Proof.
  intros T Hnew Hk Hg. unfold mergeOne. cbn [fst snd].
  destruct (find (fun canonical => areSimilar key canonical) (JsObj.keys merged))
    as [canonical|] eqn:Ef.
  - apply find_some in Ef. destruct Ef as [Hin Hsim].
    apply (proj1 (keys_In _ _)) in Hin.
    assert (Hne : key <> canonical) by (intros ->; contradiction).
    assert (Ht : Js.truthy canonical = true).
    { destruct canonical; [|reflexivity].
      rewrite areSimilar_short in Hsim; [discriminate|exact Hne|right; cbn; lia]. }
    rewrite Ht. destruct (own_of_key _ _ Hin) as (g0 & E0). rewrite E0.
    assert (Hc : canonical <> "__proto__").
    { intros ->. destruct T as (_ & _ & Hp). contradiction. }
    pose proof (Tallied_put merged m canonical
                  {| count := count g0 + count g;
                     originals := addOriginals (originals g0) (originals g) |} T Hc) as P.
    rewrite E0 in P. cbn [count] in P.
    replace (m + count g)%Z with (m + (count g0 + count g) - count g0)%Z by lia.
    apply P. destruct T as (_ & Hc0 & _). rewrite Forall_forall in Hc0.
    specialize (Hc0 (canonical, g0) (own_In _ _ _ E0)). cbn in Hc0. lia.
  - pose proof (Tallied_put merged m key g T Hk Hg) as P.
    rewrite (not_key_own _ _ Hnew) in P.
    replace (m + count g)%Z with (m + count g - 0)%Z by lia. exact P.
Qed.

Lemma fold_mergeOne_Tallied (l : list (string * VoteGroup)) :
  forall merged m n,
    Tallied merged m -> Tallied l n -> NoDup (map fst l) ->
    (forall k, In k (map fst merged) -> ~ In k (map fst l)) ->
    Tallied (fold_left mergeOne l merged) (m + n).
Proof.
  induction l as [|[key g] l IH]; intros merged m n Tm Tl Hnd Hdis; cbn [fold_left].
  - destruct Tl as (Hv & _). cbn in Hv. subst n. now rewrite Z.add_0_r.
  - destruct Tl as (Hv & Hc & Hp). rewrite votes_cons in Hv. cbn [snd] in Hv.
    apply Forall_cons_iff in Hc. destruct Hc as [Hg Hc]. cbn [snd] in Hg.
    cbn [map fst] in Hnd, Hp. apply NoDup_cons_iff in Hnd. destruct Hnd as [Hkl Hnd].
    assert (Hnew : ~ In key (map fst merged)).
    { intros H. apply (Hdis key H). now left. }
    assert (Hk : key <> "__proto__") by (intros ->; apply Hp; now left).
    pose proof (mergeOne_Tallied merged m key g Tm Hnew Hk Hg) as T1.
    replace (m + n)%Z with ((m + count g) + (n - count g))%Z by lia.
    apply IH; auto.
    + split; [|split]; auto.
      * lia.
      * intros H. apply Hp. now right.
    + intros k Hin Hl. apply mergeOne_keys in Hin. cbn [fst] in Hin.
      destruct Hin as [->|Hin]; [contradiction|].
      apply (Hdis k Hin). now right.
Qed.

Lemma mergeGroups_Tallied (normGroups : JsObj.t VoteGroup) (n : Z) :
  Tallied normGroups n -> NoDup (map fst normGroups) ->
  Tallied (mergeGroups normGroups) n.
Proof.
  intros T Hnd. unfold mergeGroups.
  assert (P : Permutation normGroups (sortByCount (JsObj.entries normGroups))).
  { apply Permutation_sym. eapply Permutation_trans; [apply sortByCount_perm|].
    apply entries_perm. }
  replace n with (0 + n)%Z by lia.
  apply fold_mergeOne_Tallied.
  - apply Tallied_nil.
  - eapply Tallied_perm; eauto.
  - eapply Permutation_NoDup; [|exact Hnd]. now apply Permutation_map.
  - intros k [].
Qed.

Lemma count_le_votes (l : JsObj.t VoteGroup) (e : string * VoteGroup) :
  Forall (fun e => (1 <= count (snd e))%Z) l -> In e l -> (count (snd e) <= votes l)%Z.
Proof.
  induction 1 as [|x l Hx H IH]; [contradiction|].
  pose proof (votes_nonneg l H).
  intros [<-|Hin]; rewrite votes_cons; [lia|].
  specialize (IH Hin). lia.
Qed.

(** The winning count is not more than the votes of the table. *)
Lemma buildVoteResult_bound (groups : JsObj.t VoteGroup) (n : Z) (total : nat)
      (u : option Usage) :
  Tallied groups n ->
  (0 <= vCount (buildVoteResult groups total u) <= n)%Z.
Proof.
  intros T.
  assert (Te : Tallied (JsObj.entries groups) n).
  { eapply Tallied_perm; [|exact T]. apply Permutation_sym, entries_perm. }
  destruct Te as (Hv & Hc & _).
  assert (Hall : forall e, In e (JsObj.entries groups) -> (count (snd e) <= n)%Z).
  { intros e He. rewrite <- Hv. now apply count_le_votes. }
  unfold buildVoteResult.
  assert (H : forall (l : list (string * VoteGroup)) acc,
             (forall e, In e l -> (count (snd e) <= n)%Z) ->
             (0 <= snd (fst acc) <= n)%Z ->
             (0 <= snd (fst
                      (fold_left
                         (fun (acc : option string * Z * JsObj.t Z) e =>
                            let '(bestKey, bestCount, distribution) := acc in
                            let group := snd e in
                            let displayKey := fst (displayOf (originals group)) in
                            let distribution :=
                              JsObj.set distribution (keyText displayKey) (count group) in
                            if (bestCount <? count group)%Z
                            then (displayKey, count group, distribution)
                            else (bestKey, bestCount, distribution)) l acc)) <= n)%Z).
  { induction l as [|e l IH]; intros [[bk bc] d] Hl Hacc; cbn [fold_left]; [exact Hacc|].
    apply IH; [intros x Hx; apply Hl; now right|].
    cbn [fst snd] in Hacc. specialize (Hl e (or_introl eq_refl)).
    destruct (bc <? count (snd e))%Z eqn:E; cbn [fst snd]; [|exact Hacc].
    apply Z.ltb_lt in E. lia. }
  specialize (H (JsObj.entries groups) (None, 0%Z, []) Hall).
  match type of H with
  | context [fold_left ?f ?l ?a] => destruct (fold_left f l a) as [[bk bc] d]
  end.
  cbn [vCount fst snd] in *. apply H.
  pose proof (votes_nonneg _ Hc). lia.
Qed.

Lemma length_validOnly (answers : list (option string)) :
  length (validOnly answers) = length (filter (fun a => negb (isNone a)) answers)
  /\ length (validOnly answers) + length (filter isNone answers) = length answers.
Proof.
  induction answers as [|[a|] answers [IH1 IH2]]; cbn; auto; split; lia.
Qed.

(** The vote: the count of the winner is at most the number of answers that were
    not null. *)
Lemma smartMajorityVote_bound (answers : list (option string)) (apiKey model : string)
      (signal : option AbortSignal) (env : Env) (s s' : State) (v : VoteResult) :
  smartMajorityVote answers apiKey model signal env s = (Ok v, s') ->
  (0 <= vCount v <= Z.of_nat (length (validOnly answers)))%Z.
Proof.
  unfold smartMajorityVote.
  destruct (length answers =? 0); [intros [= <- <-]; cbn; lia|].
  destruct (length (validOnly answers) =? 0); [intros [= <- <-]; cbn; lia|].
  destruct (groupEntries groupKey (entriesOf (validOnly answers)) []) as [normGroups|e] eqn:Eg;
    [|discriminate].
  pose proof (groupEntries_Tallied _ _ _ _ _ Eg Tallied_nil) as Tn.
  pose proof (groupEntries_NoDup _ _ _ _ Eg (NoDup_nil _)) as Nn.
  unfold entriesOf in Tn. rewrite length_map, Z.add_0_l in Tn.
  pose proof (mergeGroups_Tallied _ _ Tn Nn) as Tm.
  destruct ((1 <? length (JsObj.keys (mergeGroups normGroups))) && Js.truthy apiKey).
  - unfold bind, caught.
    destruct (canonicalizeWithLLM _ apiKey model signal env s) as [[[mapping usage]|e] s1].
    + destruct (groupEntries (canonicalOf mapping) (entriesOf (validOnly answers)) [])
        as [llmGroups|e] eqn:El.
      * intros [= <- <-]. apply buildVoteResult_bound.
        pose proof (groupEntries_Tallied _ _ _ _ _ El Tallied_nil) as Tl.
        unfold entriesOf in Tl. now rewrite length_map, Z.add_0_l in Tl.
      * unfold warn, emit, ret. intros [= <- <-]. now apply buildVoteResult_bound.
    + unfold warn, emit, ret. intros [= <- <-]. now apply buildVoteResult_bound.
  - intros [= <- <-]. now apply buildVoteResult_bound.
Qed.

End VoteCounts.

Section CoTRuns.
Import Eff.
Import CoT.
Import Spec.

Lemma bind_inv {A B} (c : M A) (k : A -> M B) (env : Env) (s s' : State) (b : B) :
  bind c k env s = (Ok b, s') ->
  exists a s1, c env s = (Ok a, s1) /\ k a env s1 = (Ok b, s').
Proof.
  unfold bind. destruct (c env s) as [[a|e] s1]; [eauto|discriminate].
Qed.

Lemma sample_length (messages : list Message) (o : Options) (n : nat) :
  forall i env s results s',
    sample messages o n i env s = (Ok results, s') -> length results = n.
Proof.
  induction n as [|n IH]; intros i env s results s' H; cbn [sample] in H.
  - unfold ret in H. now injection H as <- <-.
  - apply bind_inv in H. destruct H as (r & s1 & _ & H).
    rewrite bind_onStep in H.
    apply bind_inv in H. destruct H as (rs & s2 & Hs & H).
    unfold ret in H. injection H as <- <-. cbn. f_equal. eapply IH; eauto.
Qed.

Lemma ratio_bounds (c : Z) (n : nat) :
  (0 <= c <= Z.of_nat n)%Z -> (0 <= ratio c n <= 1)%Q.
Proof.
  intros H. unfold ratio. destruct n as [|n].
  - split; [apply Qle_refl|discriminate].
  - unfold Qle. cbn [Qnum Qden]. try rewrite Znat.Zpos_P_of_succ_nat.
    assert (E : Z.pos (Pos.of_nat (S n)) = Z.of_nat (S n)).
    { rewrite <- Znat.positive_nat_Z, Nat2Pos.id by discriminate. reflexivity. }
    rewrite E. lia.
Qed.

(** What a run of CoT returns, whenever it returns: as many paths and
    answers as samples; between [nSamples] and [nSamples + 2] LLM calls; a
    confidence between 0 and 1 for a factual question and none for an
    open-ended one, whose answer is the synthesis and whose answers are all
    null without counting as failures; the placeholder as answer, with
    confidence 0, when no path of a factual question gave an answer. *)
Theorem runCoT_result
        (env : Env) (question : string) (o : Options) (s s' : State) (r : CoTResult) :
  runCoT question o env s = (Ok r, s') ->
  length (paths r) = nSamples o
  /\ length (answers r) = nSamples o
  /\ answer r = finalAnswer r
  /\ nSamples o <= llmCalls r <= nSamples o + 2
  /\ (forall c, confidence r = Some c -> (0 <= c <= 1)%Q)
  /\ ((questionType r = "open-ended" /\ confidence r = None
       /\ finalAnswer r = synthesizedAnswer r /\ synthesizedAnswer r <> None
       /\ Forall (fun a => a = None) (answers r) /\ extractionFailures r = 0
       /\ nSamples o + 1 <= llmCalls r)
      \/ (questionType r = "factual" /\ confidence r <> None
          /\ answers r = map Parser.extractAnswer (paths r)
          /\ extractionFailures r = length (filter isNone (answers r))
          /\ (extractionFailures r = nSamples o ->
              finalAnswer r = Some placeholder /\ confidence r = Some 0%Q))).
Proof.
  intros H. unfold runCoT in H.
  apply bind_inv in H. destruct H as (t0 & s0 & _ & H).
  apply bind_inv in H. destruct H as (results & s1 & Hs & H).
  apply sample_length in Hs.
  apply bind_inv in H. destruct H as (c & s2 & _ & H).
  assert (Hcalls : (if isNone (Classifier.usage c) then 0 else 1) <= 1)
    by (destruct (isNone _); lia).
  destruct (Classifier.type c).
  - (* factual *)
    apply bind_inv in H. destruct H as (vote & s3 & Hv & H).
    apply smartMajorityVote_bound in Hv.
    apply bind_inv in H. destruct H as (t1 & s4 & _ & H).
    unfold ret in H. injection H as <- <-.
    cbn [paths answers answer finalAnswer llmCalls extractionFailures confidence
         questionType synthesizedAnswer].
    set (answers := map Parser.extractAnswer (map Llm.content results)) in *.
    assert (Hlen : length answers = nSamples o)
      by (unfold answers; now rewrite !length_map).
    destruct (length_validOnly answers) as [Hval Hsum].
    rewrite <- Hval.
    split; [now rewrite length_map|]. split; [exact Hlen|]. split; [reflexivity|].
    split; [destruct (isNone (extraUsage vote)); lia|].
    split.
    + intros q [= <-]. destruct (0 <? length (validOnly answers)).
      * apply ratio_bounds. lia.
      * split; [apply Qle_refl|discriminate].
    + right. split; [reflexivity|]. split; [discriminate|]. split; [reflexivity|].
      split; [reflexivity|]. intros Hall.
      assert ((0 <? length (validOnly answers)) = false) as -> by (apply Nat.ltb_ge; lia).
      auto.
  - (* open-ended *)
    apply bind_inv in H. destruct H as (syn & s3 & _ & H).
    apply bind_inv in H. destruct H as (t1 & s4 & _ & H).
    unfold ret in H. injection H as <- <-.
    cbn [paths answers answer finalAnswer llmCalls extractionFailures confidence
         questionType synthesizedAnswer].
    split; [now rewrite length_map|]. split; [now rewrite !length_map|].
    split; [reflexivity|]. split; [lia|]. split; [discriminate|].
    left. split; [reflexivity|]. split; [reflexivity|]. split; [reflexivity|].
    split; [discriminate|]. split; [|split; [reflexivity|lia]].
    apply Forall_forall. intros a Ha. apply in_map_iff in Ha.
    now destruct Ha as (p & <- & _).
Qed.

End CoTRuns.

(* ================================================================== *)
(** * More on the ReAct engine                                          *)
(* ================================================================== *)

Section ReActRuns.
Import Eff.
Import Spec.



Lemma turnsFrom_unformatted (env : Env) (o : ReAct.Options) (startTime : Z) :
  NeverFormats env o ->
  forall (left turn : nat) (messages : list Message) (trajectory : list ReAct.Entry)
         (usages : list Usage) (s : State),
    Unanswered trajectory ->
    Forall (fun e => ReAct.role e = "assistant") trajectory ->
    (forall pre e, trajectory = (pre ++ [e])%list ->
                   Parser.falsy (Parser.parseReActAnswer (ReAct.content e)) = true) ->
  exists r s',
    ReAct.turnsFrom left o startTime turn messages trajectory usages env s = (Ok r, s')
    /\ ReAct.truncated r = true
    /\ ReAct.turns r = turn + left
    /\ length (ReAct.trajectory r) = length trajectory + left
    /\ Forall (fun e => ReAct.role e = "assistant") (ReAct.trajectory r)
    /\ ReAct.answer r = None.
Proof.
  intros Hn. induction left as [|left IH];
    intros turn messages trajectory usages s U Fa Hlast.
  - cbn [ReAct.turnsFrom]. unfold ReAct.exceeded, bind, dateNow, ret.
    do 2 eexists. split; [reflexivity|].
    cbn [ReAct.truncated ReAct.turns ReAct.trajectory ReAct.answer].
    split; [reflexivity|]. split; [lia|]. split; [lia|]. split; [exact Fa|].
    unfold ReAct.orNull.
    destruct trajectory as [|e0 r0]; [reflexivity|].
    destruct (exists_last (l := e0 :: r0)) as (pre & e & E); [discriminate|].
    assert (Hc : ReAct.content (last r0 e0) = ReAct.content e).
    { f_equal. try change (last r0 e0) with (last (e0 :: r0) e0).
      assert (last (e0 :: r0) e0 = e) by (rewrite E; apply last_last).
      destruct r0; [cbn in *; congruence|exact H]. }
    rewrite Hc, (Hlast pre e E). reflexivity.
  - cbn [ReAct.turnsFrom].
    destruct (Hn messages s) as (res & s1 & Hcall & Hf & Hact).
    unfold reactLlm in Hcall. rewrite (bind_ok _ _ _ _ _ _ Hcall).
    rewrite bind_onStep, Hf. cbn [negb]. rewrite Hact.
    match goal with
    | |- exists r s', ReAct.turnsFrom _ _ _ _ ?m ?t ?u _ ?s4 = _ /\ _ =>
        destruct (IH (S turn) m t u s4) as (r' & s' & E & T & N & L & F & A)
    end.
    + right. eexists. eexists. split; [reflexivity|]. right. exact Hf.
    + apply Forall_app. split; [exact Fa|]. constructor; [reflexivity|constructor].
    + intros pre e E. apply app_inj_tail in E. destruct E as [_ <-]. exact Hf.
    + exists r', s'. split; [exact E|]. split; [exact T|]. split; [lia|].
      split; [rewrite L, length_app; cbn; lia|]. auto.
Qed.

(** When no reply holds an answer or a well-formed action, the engine asks
    again at every turn and runs no tool: the run ends truncated after
    [maxTurns] turns, with one assistant entry per turn and no answer. *)
Theorem runReAct_unformatted
        (env : Env) (question : string) (o : ReAct.Options) (s : State) :
  NeverFormats env o ->
  exists r s',
    ReAct.runReAct question o env s = (Ok r, s')
    /\ ReAct.truncated r = true
    /\ ReAct.turns r = ReAct.maxTurns o
    /\ length (ReAct.trajectory r) = ReAct.maxTurns o
    /\ Forall (fun e => ReAct.role e = "assistant") (ReAct.trajectory r)
    /\ ReAct.answer r = None.
Proof.
  intros H. unfold ReAct.runReAct, bind at 1, dateNow.
  destruct (turnsFrom_unformatted env o (now s) H (ReAct.maxTurns o) 0
              [{| role := "system"; content := ReAct.buildSystemPrompt |};
               {| role := "user"; content := question |}] [] [] s)
    as (r & s' & E & T & N & L & F & A).
  - now left.
  - constructor.
  - intros pre e E. now destruct pre.
  - exists r, s'. rewrite E. repeat split; auto.
Qed.

End ReActRuns.

(* ================================================================== *)
(** * More on the ReWOO engine                                          *)
(* ================================================================== *)

Section ReWOORuns.
Import Eff.
Import ReWOO.
Import Spec.




End ReWOORuns.

(* ================================================================== *)
(** * More on the Plan-and-Execute engine                               *)
(* ================================================================== *)

Section PlanExecuteRuns.
Import Eff.
Import PlanExecute.
Import Spec.

(** A step ends with an answer or the raw reply after one to [left] requests,
    or with the error after exactly [left] requests. *)
Lemma stepTurns_result (o : Options) (left : nat) :
  forall messages us env s r s',
    stepTurns left o messages us env s = (Ok r, s') ->
    exists more,
      stepUsages r = (us ++ more)%list
      /\ length more <= left
      /\ ((stepError r = None /\ result r <> None /\ 1 <= length more)
          \/ (stepError r = Some "Step execution exceeded max turns."
              /\ result r = None /\ length more = left)).
Proof.
  induction left as [|left IH]; intros messages us env s r s' H; cbn [stepTurns] in H.
  - unfold ret in H. injection H as <- <-. exists []. cbn. rewrite app_nil_r.
    split; [reflexivity|]. split; [lia|]. right. auto.
  - apply bind_inv in H. destruct H as (res & s1 & _ & H).
    destruct (Parser.falsy (Parser.parseReActAnswer (Llm.content res))) eqn:Ef; cbn [negb] in H.
    + destruct (Parser.parseReActAction (Llm.content res)) as [action|].
      * apply bind_inv in H. destruct H as (obs & s2 & _ & H).
        apply IH in H. destruct H as (more & -> & L & D).
        exists (Llm.usage res :: more). rewrite <- app_assoc. cbn [app length].
        split; [reflexivity|]. split; [lia|].
        destruct D as [(E1 & E2 & E3)|(E1 & E2 & E3)]; [left|right]; repeat split; auto; lia.
      * unfold ret in H. injection H as <- <-. exists [Llm.usage res]. cbn.
        split; [reflexivity|]. split; [lia|]. left. repeat split; auto. discriminate.
    + unfold ret in H. injection H as <- <-. exists [Llm.usage res]. cbn.
      split; [reflexivity|]. split; [lia|]. left. repeat split; auto.
      intros E. rewrite E in Ef. discriminate.
Qed.

Lemma outputOf_some (r : StepResult) (n : nat) :
  (stepError r = None /\ result r <> None /\ 1 <= n)
  \/ (stepError r = Some "Step execution exceeded max turns." /\ result r = None /\ n = 8) ->
  outputOf r <> None.
Proof.
  unfold outputOf. intros [(-> & H & _)|(-> & _ & _)]; [exact H|discriminate].
Qed.

Lemma planLoop_result (question planText0 : string) (o : Options) (left : nat) :
  forall plan st env s st' s',
    planLoop left question planText0 o plan st env s = (Ok st', s') ->
    exists steps us,
      pastSteps st' = (pastSteps st ++ steps)%list
      /\ usages st' = (usages st ++ us)%list
      /\ llmCalls st' = llmCalls st + length us
      /\ length steps <= left
      /\ (0 < left -> forall p rest, plan = p :: rest ->
                                   exists out more, steps = (p, out) :: more)
      /\ Forall (fun p => snd p <> None) steps
      /\ 2 * length steps <= length us <= 9 * length steps
      /\ ((replanCount st' = replanCount st + length steps
           /\ finalAnswer st' = finalAnswer st
           /\ (length steps = left \/ plan = []))
          \/ (replanCount st' + 1 = replanCount st + length steps
              /\ exists a, finalAnswer st' = Some a /\ Js.trim a = a)
          \/ (replanCount st' + 1 = replanCount st + length steps
              /\ (finalAnswer st' = None
                  \/ usable (finalAnswer st') = true
                     /\ exists pre p, steps = (pre ++ [p])%list
                                      /\ snd p = finalAnswer st'))).
Proof.
  induction left as [|left IH]; intros plan st env s st' s' H.
  - cbn [planLoop] in H. unfold ret in H. injection H as <- <-.
    exists [], []. rewrite !app_nil_r. cbn [length].
    split; [reflexivity|]. split; [reflexivity|]. split; [lia|]. split; [lia|].
    split; [intros L; inversion L|]. split; [constructor|]. split; [lia|].
    left. rewrite Nat.add_0_r. auto.
  - destruct plan as [|currentStep plan]; cbn [planLoop] in H.
    + unfold ret in H. injection H as <- <-.
      exists [], []. rewrite !app_nil_r. cbn [length].
      split; [reflexivity|]. split; [reflexivity|]. split; [lia|]. split; [lia|].
      split; [intros _ p rest E; discriminate|]. split; [constructor|]. split; [lia|].
      left. rewrite Nat.add_0_r. auto.
    + rewrite bind_onStep in H.
      apply bind_inv in H. destruct H as (execResult & s1 & Hx & H).
      rewrite bind_onStep in H.
      apply bind_inv in H. destruct H as (replanResult & s2 & _ & H).
      unfold executeStep in Hx. apply stepTurns_result in Hx.
      destruct Hx as (mu & Hu & Lu & D). cbn [app] in Hu.
      fold (outputOf execResult) in H.
      pose proof (outputOf_some execResult (length mu)) as Hout.
      assert (Lu1 : 1 <= length mu) by (destruct D as [(_ & _ & ?)|(_ & _ & ?)]; lia).
      assert (Ho : outputOf execResult <> None).
      { apply Hout. destruct D as [?|(? & ? & ?)]; auto. }
      clear Hout D.
      destruct (Regex.exec Regex.noFlags reDone (Llm.content replanResult)) as [doneMatch|].
      * rewrite bind_onStep in H. unfold ret in H. injection H as <- <-.
        cbn [pastSteps usages llmCalls replanCount finalAnswer].
        exists [(currentStep, outputOf execResult)], (mu ++ [Llm.usage replanResult])%list.
        rewrite Hu, <- !app_assoc, !length_app. cbn [length].
        split; [reflexivity|]. split; [reflexivity|]. split; [lia|]. split; [lia|].
        split; [intros _ p rest E; injection E as <- <-; eauto|].
        split; [constructor; [exact Ho|constructor]|]. split; [lia|].
        right. left. split; [lia|]. eexists. split; [reflexivity|]. apply trim_idem.
      * destruct (0 <? length (Parser.parsePlanSteps (Llm.content replanResult))) eqn:En.
        -- rewrite bind_onStep in H. apply IH in H.
           destruct H as (steps & us & Hp & Hus & Hl & Ls & _ & Hf & Hb & Hc).
           cbn [pastSteps usages llmCalls replanCount finalAnswer] in *.
           exists ((currentStep, outputOf execResult) :: steps),
             (mu ++ Llm.usage replanResult :: us)%list.
           rewrite Hp, Hus, Hl, Hu, <- !app_assoc, !length_app. cbn [length app].
           split; [reflexivity|]. split; [reflexivity|]. split; [lia|]. split; [lia|].
           split; [intros _ p rest E; injection E as <- <-; eauto|].
           split; [constructor; [exact Ho|exact Hf]|]. split; [lia|].
           destruct Hc as [(C1 & C2 & C3)|[(C1 & C2)|(C1 & C2)]].
           ++ left. split; [lia|]. split; [exact C2|]. left.
              destruct C3 as [C3|C3]; [lia|].
              exfalso. rewrite C3 in En. cbn in En.
              (* the loop continues with the new steps, which are not empty *)
              discriminate.
           ++ right. left. split; [lia|exact C2].
           ++ right. right. split; [lia|]. destruct C2 as [C2|(C2 & pre & p & -> & C3)]; auto.
              right. split; [exact C2|].
              exists ((currentStep, outputOf execResult) :: pre), p. auto.
        -- rewrite bind_onStep in H. unfold ret in H. injection H as <- <-.
           cbn [pastSteps usages llmCalls replanCount finalAnswer].
           exists [(currentStep, outputOf execResult)], (mu ++ [Llm.usage replanResult])%list.
           rewrite Hu, <- !app_assoc, !length_app. cbn [length].
           split; [reflexivity|]. split; [reflexivity|]. split; [lia|]. split; [lia|].
           split; [intros _ p rest E; injection E as <- <-; eauto|].
           split; [constructor; [exact Ho|constructor]|]. split; [lia|].
           right. right. split; [lia|].
           destruct (usable (outputOf execResult)) eqn:Eu; [right|left; reflexivity].
           split; [exact Eu|]. exists [], (currentStep, outputOf execResult). auto.
Qed.

Lemma initialPlan_cons (content : string) :
  exists p rest, initialPlan content = p :: rest.
Proof.
  unfold initialPlan. destruct (Parser.parsePlanSteps content) as [|p rest]; cbn; eauto.
Qed.

Lemma lastUsable_some (steps : list (string * option string)) (a : string) :
  lastUsable steps = Some a ->
  In (Some a) (map snd steps) /\ usable (Some a) = true.
Proof.
  unfold lastUsable. intros H.
  destruct (find (fun p => usable (snd p)) (rev steps)) as [p|] eqn:F; [|discriminate].
  apply find_some in F. destruct F as [Hin Hu]. rewrite H in Hu. split; [|exact Hu].
  apply in_rev in Hin. rewrite <- H. now apply in_map.
Qed.

Lemma lastUsable_none (steps : list (string * option string)) :
  lastUsable steps = None ->
  Forall (fun p => usable (snd p) = false) steps.
Proof.
  unfold lastUsable. intros H. apply Forall_forall. intros p Hin.
  destruct (find (fun p => usable (snd p)) (rev steps)) as [q|] eqn:F.
  - apply find_some in F. destruct F as [_ Hu]. rewrite H in Hu. discriminate.
  - apply in_rev in Hin. apply (find_none _ _ F) in Hin. exact Hin.
Qed.

Lemma usable_truthy (a : string) : usable (Some a) = true -> a <> "".
Proof. intros H ->. discriminate. Qed.


End PlanExecuteRuns.

(* ================================================================== *)
(** * The chat proxy                                                    *)
(* ================================================================== *)

Section ChatProxyFacts.
Import ChatProxy.

(** The handler of the proxy issues at most one upstream request.  It issues
    none unless the method is POST and the body (parsed when it arrives as
    text) is an object whose [apiKey] is truthy, and then answers 405 or 400.
    Otherwise the key sent is that [apiKey], the payload is the body without
    its [apiKey] and with every other field, and the reply relays the status
    and data of the endpoint, or is a 500 when the exchange fails. *)
Theorem handler_requests (parse : string -> option Json) (fetch : Forwarded -> Upstream)
        (req : Request) :
  (snd (handler parse fetch req) = []
   /\ (code (fst (handler parse fetch req)) = 405%Z /\ method req <> "POST"
       \/ code (fst (handler parse fetch req)) = 400%Z /\ method req = "POST"))
  \/ (exists f o,
        snd (handler parse fetch req) = [f]
        /\ method req = "POST"
        /\ (body req = Some (JObj o)
            \/ exists text, body req = Some (JStr text) /\ parse text = Some (JObj o))
        /\ JsObj.own o "apiKey" = Some (key f)
        /\ truthy (key f) = true
        /\ (forall k v, In (k, v) (payload f) <-> In (k, v) o /\ k <> "apiKey")
        /\ (forall status data,
              fetch f = Answers status data ->
              fst (handler parse fetch req) = {| code := status; json := data |})
        /\ ((forall status data, fetch f <> Answers status data) ->
            code (fst (handler parse fetch req)) = 500%Z)).
Proof.
  unfold handler.
  destruct (String.eqb (method req) "POST") eqn:Em; cbn [negb].
  2:{ left. cbn. split; [reflexivity|]. left. split; [reflexivity|].
      now apply String.eqb_neq. }
  apply String.eqb_eq in Em.
  assert (Hobj : forall o,
             (body req = Some (JObj o)
              \/ exists text, body req = Some (JStr text) /\ parse text = Some (JObj o)) ->
             let out :=
               match JsObj.own o "apiKey" with
               | Some apiKey =>
                   if negb (truthy apiKey)
                   then (errorReply 400 "API key is required", [])
                   else
                     (match fetch {| key := apiKey; payload := completionBody o |} with
                      | Unreachable message => errorReply 500 message
                      | Answers status data => {| code := status; json := data |}
                      | Garbled _ message => errorReply 500 message
                      end, [{| key := apiKey; payload := completionBody o |}])
               | None => (errorReply 400 "API key is required", [])
               end in
             (snd out = []
              /\ (code (fst out) = 405%Z /\ method req <> "POST"
                  \/ code (fst out) = 400%Z /\ method req = "POST"))
             \/ (exists f o,
                    snd out = [f]
                    /\ method req = "POST"
                    /\ (body req = Some (JObj o)
                        \/ exists text, body req = Some (JStr text)
                                        /\ parse text = Some (JObj o))
                    /\ JsObj.own o "apiKey" = Some (key f)
                    /\ truthy (key f) = true
                    /\ (forall k v, In (k, v) (payload f) <-> In (k, v) o /\ k <> "apiKey")
                    /\ (forall status data,
                          fetch f = Answers status data ->
                          fst out = {| code := status; json := data |})
                    /\ ((forall status data, fetch f <> Answers status data) ->
                        code (fst out) = 500%Z))).
  { intros o Ho. cbv zeta.
    destruct (JsObj.own o "apiKey") as [k|] eqn:Ek; [|left; cbn; auto].
    destruct (truthy k) eqn:Tk; cbn [negb]; [|left; cbn; auto].
    right. exists {| key := k; payload := completionBody o |}, o. cbn [fst snd key payload].
    split; [reflexivity|]. split; [exact Em|]. split; [exact Ho|].
    split; [exact Ek|]. split; [exact Tk|]. split.
    - intros k0 v. unfold completionBody. rewrite filter_In. cbn [fst].
      rewrite negb_true_iff, String.eqb_neq. reflexivity.
    - split.
      + intros status data ->. reflexivity.
      + intros Hn. destruct (fetch _) as [m|st d|st m]; [reflexivity| |reflexivity].
        exfalso. exact (Hn st d eq_refl). }
  destruct (body req) as [[| b | q | text | l | o]|] eqn:Eb;
    try (left; cbn; auto; fail).
  - destruct (parse text) as [[| b | q | text' | l | o]|] eqn:Ep;
      try (left; cbn; auto; fail).
    apply (Hobj o). right. exists text. auto.
  - apply (Hobj o). left. reflexivity.
Qed.

End ChatProxyFacts.

(* ================================================================== *)
(** * The majority vote as a whole                                      *)
(* ================================================================== *)

Section VoteFacts.
Import Eff.
Import CoT.
Import Spec.

(** The majority vote: without an answer that is not null it names no
    winner and contacts nobody; without an API key it contacts nobody and reports
    no usage; and the count of the winner it returns is never above the number
    of answers that are not null. *)
Theorem smartMajorityVote_votes
        (answers : list (option string)) (apiKey model : string)
        (signal : option AbortSignal) (env : Env) (s : State) :
  (validOnly answers = [] ->
   smartMajorityVote answers apiKey model signal env s = (Ok noVote, s))
  /\ (apiKey = "" ->
      snd (smartMajorityVote answers apiKey model signal env s) = s
      /\ forall v s', smartMajorityVote answers apiKey model signal env s = (Ok v, s') ->
                      extraUsage v = None)
  /\ (forall v s',
        smartMajorityVote answers apiKey model signal env s = (Ok v, s') ->
        (0 <= vCount v <= Z.of_nat (length (validOnly answers)))%Z).
Proof.
  split; [|split].
  - intros E. unfold smartMajorityVote. rewrite E. cbn [length Nat.eqb].
    now destruct (length answers =? 0).
  - intros ->. unfold smartMajorityVote.
    destruct (length answers =? 0); [split; [reflexivity|intros v s' [= <- <-]; reflexivity]|].
    destruct (length (validOnly answers) =? 0);
      [split; [reflexivity|intros v s' [= <- <-]; reflexivity]|].
    destruct (groupEntries groupKey (entriesOf (validOnly answers)) []) as [normGroups|e];
      [|split; [reflexivity|discriminate]].
    rewrite andb_false_r.
    split; [reflexivity|]. intros v s' [= <- <-]. unfold buildVoteResult.
    match goal with
    | |- context [fold_left ?f ?l ?a] => destruct (fold_left f l a) as [[bk bc] d]
    end.
    reflexivity.
  - intros v s'. apply smartMajorityVote_bound.
Qed.

End VoteFacts.

(* ================================================================== *)
(** * Thoughts                                                          *)
(* ================================================================== *)

Section ParsedThoughts.
Import Regex.
Import Parser.
Import Spec.

(** What a parsed thought holds: one trimmed line. It can be empty: blanks
    after the label are a thought. *)
Theorem parseReActThought_shape (text : string) :
  (forall t, parseReActThought text = Some t ->
             Js.trim t = t
             /\ forallb (fun c => negb (Js.isLineTerminator c)) (Js.chars t) = true)
  /\ parseReActThought "Thought:  " = Some ""
  /\ (Js.includes text "Thought:" = false -> parseReActThought text = None).
Proof.
  split; [|split].
  - intros t. unfold parseReActThought, exec.
    destruct (search noFlags reThought _ _) as [mt|] eqn:E; [|discriminate].
    intros [= <-]. split; [apply trim_idem|].
    apply search_found in E. destruct E as (s0 & E & _).
    unfold matchAt in E.
    destruct (m noFlags reThought Some _) as [res|] eqn:Em; [|discriminate].
    injection E as <-. unfold group'. cbn [group groups].
    unfold reThought in Em. cbn [Seqs] in Em.
    rewrite m_Seq in Em. apply m_sound in Em. destruct Em as (s1 & M1 & Em).
    rewrite m_Seq in Em. apply m_sound in Em. destruct Em as (s2 & M2 & Em).
    apply m_sound in Em. destruct Em as (s3 & M3 & [= ->]).
    apply Matches_Group_Plus_Class in M3. destruct M3 as (l & N & F & ->).
    unfold group, setCap. cbn [groups filter find fst snd Nat.eqb negb].
    apply forallb_forall. intros c Hc. apply trim_incl in Hc. rewrite chars_str in Hc.
    rewrite forallb_forall in F. apply F in Hc. exact Hc.
  - vm_compute. reflexivity.
  - intros H. unfold parseReActThought, exec.
    destruct (search noFlags reThought _ _) as [mt|] eqn:E; [|reflexivity].
    exfalso. apply search_found in E. destruct E as (s0 & E & S).
    unfold matchAt in E.
    destruct (m noFlags reThought Some _) as [res|] eqn:Em; [|discriminate].
    unfold reThought in Em. cbn [Seqs] in Em.
    rewrite m_Seq in Em. apply m_sound in Em. destruct Em as (s1 & M1 & _).
    apply (Matches_Lit noFlags _ _ _ eq_refl) in M1. destruct M1 as [A _].
    destruct S as (pre & S). unfold start in S. cbn [after] in S, A. rewrite A in S.
    unfold Js.includes in H. rewrite S in H.
    rewrite includesL_found in H. discriminate.
Qed.

End ParsedThoughts.

(* ================================================================== *)
(** * Canonical forms and evidence substitution                         *)
(* ================================================================== *)

Section MappingFacts.
Import Regex.
Import Spec.

Lemma in_update {V} (o : JsObj.t V) (k k' : string) (v v' : V) :
  In (k, v) (JsObj.update o k' v') -> (k = k' /\ v = v') \/ In (k, v) o.
Proof.
  induction o as [|[k0 v0] o IH]; cbn [JsObj.update].
  - intros [[= <- <-]|[]]. auto.
  - destruct (String.eqb k' k0) eqn:E.
    + apply String.eqb_eq in E. subst k0.
      intros [[= <- <-]|H]; [auto|right; right; exact H].
    + intros [H|H]; [right; left; exact H|].
      destruct (IH H) as [?|?]; [auto|right; right; assumption].
Qed.

Lemma in_set {V} (o : JsObj.t V) (k k' : string) (v v' : V) :
  In (k, v) (JsObj.set o k' v') -> (k = k' /\ v = v') \/ In (k, v) o.
Proof.
  unfold JsObj.set. destruct (String.eqb k' "__proto__"); [auto|apply in_update].
Qed.

(** The table read from the reply of the canonicalizing call: its keys are
    among the answers that were listed, and each canonical form is trimmed and
    in lower case. *)
Theorem readMapping_entries (uniqueAnswers : list string) (content k v : string) :
  In (k, v) (CoT.readMapping uniqueAnswers content) ->
  In k uniqueAnswers /\ Js.trim v = v /\ Js.toLowerCase v = v.
Proof.
  unfold CoT.readMapping.
  assert (Hinv : forall lines (acc : JsObj.t string),
             (forall k v, In (k, v) acc ->
                          In k uniqueAnswers /\ Js.trim v = v /\ Js.toLowerCase v = v) ->
             forall k v,
               In (k, v)
                  (fold_left
                     (fun mapping line =>
                        match exec noFlags CoT.reMapping line with
                        | Some mt =>
                            let n := JsObj.digitsValue (Js.chars (group' 1 mt)) 0 in
                            if (1 <=? n)%N then
                              match nth_error uniqueAnswers (N.to_nat n - 1) with
                              | Some a =>
                                  JsObj.set mapping a (Js.toLowerCase (Js.trim (group' 2 mt)))
                              | None => mapping
                              end
                            else mapping
                        | None => mapping
                        end) lines acc) ->
               In k uniqueAnswers /\ Js.trim v = v /\ Js.toLowerCase v = v).
  { induction lines as [|line lines IH]; intros acc Hacc k0 v0; cbn [fold_left].
    - apply Hacc.
    - apply IH. intros k1 v1 H1.
      destruct (exec noFlags CoT.reMapping line) as [mt|]; [|now apply Hacc].
      cbv zeta in H1.
      destruct (1 <=? JsObj.digitsValue (Js.chars (group' 1 mt)) 0)%N; [|now apply Hacc].
      destruct (nth_error uniqueAnswers _) as [a|] eqn:En; [|now apply Hacc].
      apply in_set in H1. destruct H1 as [[-> ->]|H1]; [|now apply Hacc].
      split; [eapply nth_error_In; exact En|]. split.
      + rewrite toLowerCase_trim. apply trim_idem.
      + apply toLowerCase_idem. }
  apply Hinv. intros k0 v0 [].
Qed.

Lemma replaceAllFrom_absent (pat rep : list ascii) (n : nat) :
  forall before rest,
    Js.includesL pat rest = false ->
    ReWOO.replaceAllFrom pat rep n before rest = rest.
Proof.
  induction n as [|n IH]; intros before rest H; cbn [ReWOO.replaceAllFrom]; [reflexivity|].
  destruct rest as [|c t]; cbn [Js.includesL] in H; apply orb_false_iff in H;
    destruct H as [Hs Ht]; rewrite Hs; [reflexivity|].
  f_equal. now apply IH.
Qed.

(** An input that mentions none of the variables of the evidence gathered
    so far is passed on as it is. *)
Theorem substitute_unmentioned (evidence : JsObj.t string) (input : string) :
  Forall (fun k => Js.includes input k = false) (JsObj.keys evidence) ->
  ReWOO.substitute evidence input = input.
Proof.
  unfold ReWOO.substitute, JsObj.keys. induction (JsObj.entries evidence) as [|[k v] l IH];
    cbn [map fold_left fst snd]; intros H; [reflexivity|].
  apply Forall_cons_iff in H. destruct H as [Hk H].
  assert (E : ReWOO.replaceAll k v input = input).
  { unfold ReWOO.replaceAll. rewrite replaceAllFrom_absent by exact Hk. apply str_chars. }
  rewrite E. now apply IH.
Qed.

End MappingFacts.

(* ================================================================== *)
(** * Unanimous samples                                                 *)
(* ================================================================== *)

Section UnanimousRuns.
Import Eff.
Import CoT.
Import Spec.

Lemma paths_unanimous (nk : string) (paths : list string) :
  Forall (PathAgrees nk) paths ->
  exists candidates,
    map Parser.extractAnswer paths = map Some candidates
    /\ length candidates = length paths
    /\ Forall (fun a => basicNormalize a = nk) candidates.
Proof.
  induction 1 as [|p ps (a & Ha & Hn) _ (l & El & Ll & Fl)].
  - exists []. cbn. auto.
  - exists (a :: l). cbn [map length]. rewrite Ha, El, Ll. auto.
Qed.

(** The combined classifier always returns. *)
Lemma classifyQuestionSmart_returns (question apiKey model : string)
      (signal : option AbortSignal) (env : Env) (s : State) :
  exists c s', Classifier.classifyQuestionSmart question apiKey model signal env s = (Ok c, s').
Proof.
  unfold Classifier.classifyQuestionSmart.
  destruct (Classifier.classifyQuestionHeuristic question); [unfold ret; eauto|].
  destruct (Js.truthy apiKey); [|unfold ret; eauto].
  unfold bind, caught.
  destruct (Classifier.classifyQuestionWithLLM question apiKey model signal env s)
    as [[c|e] s1]; unfold warn, emit, ret; eauto.
Qed.

(** A call whose request is answered at once by a completion returns its
    text after that one request. *)
Lemma callLLM_at_once (env : Env) (s : State) (messages : list Message) (o : Llm.Options)
      (tk st : Z) (data : ChatData) (choice : ChatChoice) (msg : ChatMessage) :
  NeverAborts (Llm.signal o) ->
  chatApi env (fetches s) (Llm.chatRequest messages o)
  = {| took := tk; outcome := Responds {| ok := true; status := st; payload := Parsed data |} |} ->
  choice0 data = Some choice -> message choice = Some msg ->
  exists r s',
    Llm.callLLM messages o env s = (Ok r, s')
    /\ Llm.content r = msgContent msg
    /\ fetches s' = S (fetches s).
Proof.
  intros Hn Hr Hc Hm.
  destruct (attempt_completes Llm.MAX_RETRIES 0 ThrownUndefined messages o env s
                              tk st data choice msg Hn Hr Hc Hm) as (s' & E & F & _).
  do 2 eexists. split; [exact E|]. split; [reflexivity|exact F].
Qed.

(** When every sampling request is answered at once, the i-th sample is
    the reply to the i-th request. *)
Lemma sample_at_once (env : Env) (o : Options) (question nk : string) :
  NeverAborts (signal o) ->
  Unanimous env o question nk ->
  forall n i s,
  exists results s',
    sample (sampleMessages question o) o n i env s = (Ok results, s')
    /\ Forall (PathAgrees nk) (map Llm.content results)
    /\ fetches s' = fetches s + n.
Proof.
  intros Hn Hu. induction n as [|n IH]; intros i s.
  - exists [], s. cbn. unfold ret. rewrite Nat.add_0_r. auto.
  - cbn [sample].
    destruct (Hu (fetches s)) as (tk & st & data & choice & msg & Hr & Hc & Hm & Ha).
    destruct (callLLM_at_once env s (sampleMessages question o) (sampleLlm o)
                              tk st data choice msg Hn Hr Hc Hm)
      as (r & s1 & Hcall & Hcontent & Hf).
    unfold sampleLlm in Hcall. rewrite (bind_ok _ _ _ _ _ _ Hcall), bind_onStep.
    match goal with
    | |- exists results s', bind _ _ _ ?s2 = _ /\ _ =>
        destruct (IH (S i) s2) as (rs & s3 & E & F & Hf3)
    end.
    rewrite (bind_ok _ _ _ _ _ _ E). unfold ret.
    exists (r :: rs), s3. split; [reflexivity|]. split.
    + cbn [map]. constructor; [rewrite Hcontent; exact Ha|exact F].
    + rewrite Hf3. cbn [fetches]. lia.
Qed.

(** C3 (amended). Take N >= 1 samples and a normalized form that is not
    empty and is not the name of a member of Object.prototype.  Whenever a run
    returns a result of the factual kind whose paths all yield a non-null
    extracted answer of that normalized form, there are N paths, the
    confidence is 1 (the winner counts all N samples) and the final answer is a
    most frequent original form of the answers.  And the run does return such
    a result when the signal never aborts, every sampling request is answered
    at once by such a path, and the classifier, by whatever means, finds the
    question factual. *)
Theorem runCoT_unanimous
        (env : Env) (question : string) (o : Options) (nk : string) (s : State) :
  1 <= nSamples o ->
  nk <> "" -> JsObj.inherited nk = false ->
  (forall r s',
      runCoT question o env s = (Ok r, s') ->
      questionType r = "factual" ->
      Forall (PathAgrees nk) (paths r) ->
      length (paths r) = nSamples o
      /\ (exists c, confidence r = Some c /\ (c == 1)%Q)
      /\ exists d, finalAnswer r = Some d
                   /\ MostFrequent d (map lowered (validOnly (answers r))))
  /\ (NeverAborts (signal o) ->
      Unanimous env o question nk ->
      ClassifiedFactual env question o ->
      exists r s',
        runCoT question o env s = (Ok r, s')
        /\ questionType r = "factual"
        /\ Forall (PathAgrees nk) (paths r)
        /\ length (paths r) = nSamples o
        /\ (exists c, confidence r = Some c /\ (c == 1)%Q)
        /\ exists d, finalAnswer r = Some d
                     /\ MostFrequent d (map lowered (validOnly (answers r)))).
Proof.
  intros HN Hnk Hi.
  assert (P1 : forall r s',
             runCoT question o env s = (Ok r, s') ->
             questionType r = "factual" ->
             Forall (PathAgrees nk) (paths r) ->
             length (paths r) = nSamples o
             /\ (exists c, confidence r = Some c /\ (c == 1)%Q)
             /\ exists d, finalAnswer r = Some d
                          /\ MostFrequent d (map lowered (validOnly (answers r)))).
  { intros r s' Hrun Hq Hp. unfold runCoT in Hrun.
    apply bind_inv in Hrun. destruct Hrun as (t0 & s0 & _ & Hrun).
    apply bind_inv in Hrun. destruct Hrun as (results & s1 & Hs & Hrun).
    apply bind_inv in Hrun. destruct Hrun as (c & s2 & _ & Hrun).
    apply sample_length in Hs.
    destruct (Classifier.type c).
    - apply bind_inv in Hrun. destruct Hrun as (v & s3 & Hv & Hrun).
      apply bind_inv in Hrun. destruct Hrun as (t1 & s4 & _ & Hrun).
      unfold ret in Hrun. injection Hrun as <- <-.
      cbn [paths confidence finalAnswer answers] in *.
      destruct (paths_unanimous nk _ Hp) as (candidates & Ec & Lc & Fc).
      rewrite Ec in *. rewrite length_map in Lc.
      assert (Hne : candidates <> []) by (destruct candidates; [cbn in Lc; lia|discriminate]).
      destruct (smartMajorityVote_unanimous candidates nk (apiKey o) (model o) (signal o)
                  env s2 Hne Fc Hnk Hi) as (v' & Ev & Hcount & Hextra & d & Hd & Hmost).
      rewrite Ev in Hv. injection Hv as <- <-.
      destruct (filter_isNone_map_Some candidates) as [F1 F2]. rewrite F2, !length_map.
      assert (Hpos : (0 <? length candidates) = true) by (apply Nat.ltb_lt; lia).
      rewrite Hpos. split; [exact Hs|]. split.
      + eexists. split; [reflexivity|]. rewrite Hcount, Lc, Hs. now apply ratio_all.
      + exists d. split; [exact Hd|]. now rewrite validOnly_map_Some.
    - apply bind_inv in Hrun. destruct Hrun as (syn & s3 & _ & Hrun).
      apply bind_inv in Hrun. destruct Hrun as (t1 & s4 & _ & Hrun).
      unfold ret in Hrun. injection Hrun as <- <-. discriminate Hq. }
  split; [exact P1|].
  intros Hn Hu Hc.
  assert (Hrun : exists r s',
             runCoT question o env s = (Ok r, s')
             /\ questionType r = "factual"
             /\ Forall (PathAgrees nk) (paths r)).
  { unfold runCoT, bind at 1, dateNow.
    fold (sampleMessages question o).
    destruct (sample_at_once env o question nk Hn Hu (nSamples o) 0 s)
      as (results & s1 & Es & Fs & _).
    rewrite (bind_ok _ _ _ _ _ _ Es).
    destruct (classifyQuestionSmart_returns question (apiKey o) (model o) (signal o) env s1)
      as (c & s2 & Ec).
    rewrite (bind_ok _ _ _ _ _ _ Ec). rewrite (Hc _ _ _ Ec).
    destruct (paths_unanimous nk _ Fs) as (candidates & El & Lc & Fc).
    rewrite El.
    assert (Ls : length results = nSamples o) by (eapply sample_length; exact Es).
    rewrite length_map in Lc.
    assert (Hne : candidates <> []) by (destruct candidates; [cbn in Lc; lia|discriminate]).
    destruct (smartMajorityVote_unanimous candidates nk (apiKey o) (model o) (signal o)
                env s2 Hne Fc Hnk Hi) as (v & Ev & _).
    rewrite (bind_ok _ _ _ _ _ _ Ev). unfold bind, dateNow, ret.
    do 2 eexists. split; [reflexivity|]. cbn [questionType paths].
    split; [reflexivity|exact Fs]. }
  destruct Hrun as (r & s' & E & Q & F).
  exists r, s'. split; [exact E|]. split; [exact Q|]. split; [exact F|].
  exact (P1 r s' E Q F).
Qed.

End UnanimousRuns.

(* ================================================================== *)
(** * Plans without list items                                          *)
(* ================================================================== *)

Section ProsePlans.
Import Eff.
Import PlanExecute.
Import Spec.

(** The answer of a run after the fall-back to the last usable output:
    there is a non-empty one, or nothing usable was produced. *)
Lemma final_answer_cases (fa : option string) (steps : list (string * option string)) :
  let final := if Parser.falsy fa
               then match lastUsable steps with
                    | Some r => Some r
                    | None => fa
                    end
               else fa in
  (Parser.falsy final = false /\ exists a, final = Some a /\ a <> "")
  \/ (Parser.falsy final = true
      /\ (final = None \/ final = Some "")
      /\ Forall (fun p => usable (snd p) = false) steps).
Proof.
  cbv zeta. destruct (Parser.falsy fa) eqn:Ef.
  - destruct (lastUsable steps) as [b|] eqn:El.
    + apply lastUsable_some in El. destruct El as [_ El].
      pose proof (usable_truthy _ El) as Hb.
      left. split; [|eauto]. cbn. destruct b; [contradiction|reflexivity].
    + apply lastUsable_none in El. right. split; [exact Ef|]. split; [|exact El].
      destruct fa as [a|]; [|auto]. right. cbn in Ef.
      destruct a; [reflexivity|discriminate].
  - left. split; [exact Ef|]. destruct fa as [a|]; [|discriminate].
    exists a. split; [reflexivity|]. intros ->. discriminate.
Qed.

(** C7. When the LLM answers and the tools it names return, [runPlanExecute]
    returns a result for the reply of the planner, whose text it reports as
    the plan text.  The plan it starts from is never empty and its first step
    is executed first; when the text of the planner holds no numbered or
    bulleted line, that plan is the single step made of the trimmed text.  The
    run asks the LLM at least three times (planner, executor, replanner); it
    ends with a non-empty answer and no error, or with the fixed error, no
    answer and no usable output of any executed step. *)
Theorem runPlanExecute_single_step_plan
        (env : Env) (question : string) (o : Options) (s : State) :
  Responsive env o ->
  exists pr s1 r s',
    Llm.callLLM [{| role := "system"; content := PLANNER_SYSTEM |};
                 {| role := "user"; content := question |}] (planExecLlm o) env s
    = (Ok pr, s1)
    /\ runPlanExecute question o env s = (Ok r, s')
    /\ planText r = Llm.content pr
    /\ (exists step tail out rest,
          initialPlan (Llm.content pr) = step :: tail
          /\ resultPastSteps r = (step, out) :: rest
          /\ out <> None)
    /\ (Parser.parsePlanSteps (Llm.content pr) = [] ->
        initialPlan (Llm.content pr) = [Js.trim (Llm.content pr)]
        /\ exists out rest,
            resultPastSteps r = (Js.trim (Llm.content pr), out) :: rest)
    /\ 3 <= resultLlmCalls r
    /\ ((error r = None /\ exists a, answer r = Some a /\ a <> "")
        \/ (error r
            = Some "Plan-Execute did not produce a final answer within the allowed steps."
            /\ (answer r = None \/ answer r = Some "")
            /\ Forall (fun p => usable (snd p) = false) (resultPastSteps r))).
Proof.
  intros H.
  destruct (H [{| role := "system"; content := PLANNER_SYSTEM |};
               {| role := "user"; content := question |}] s)
    as (pr & s1 & Hcall & _).
  exists pr, s1.
  unfold runPlanExecute, bind at 1, dateNow.
  pose proof Hcall as Hcall'. unfold planExecLlm in Hcall'.
  rewrite (bind_ok _ _ _ _ _ _ Hcall'). rewrite bind_onStep.
  match goal with
  | |- exists r s', _ /\ bind (planLoop ?l _ _ _ ?p ?st) _ _ ?s2 = _ /\ _ =>
      destruct (planLoop_returns env o question (Llm.content pr) H l p st s2)
        as (st' & s3 & more0 & E & _ & _)
  end.
  rewrite (bind_ok _ _ _ _ _ _ E). unfold bind, dateNow, ret.
  do 2 eexists. split; [exact Hcall|]. split; [reflexivity|].
  cbn [planText resultPastSteps error answer resultLlmCalls].
  apply planLoop_result in E.
  destruct E as (steps & us & Hp & Hus & Hc & Ls & Hd & Hf & Hb & _).
  cbn [pastSteps usages llmCalls app] in Hp, Hus, Hc.
  destruct (initialPlan_cons (Llm.content pr)) as (p & rest & Ep).
  destruct (Hd ltac:(lia) _ _ Ep) as (out & more & ->).
  rewrite Hp, Hc. cbn [length] in Hb.
  split; [reflexivity|]. split.
  { exists p, rest, out, more. split; [exact Ep|]. split; [reflexivity|].
    apply Forall_cons_iff in Hf. exact (proj1 Hf). }
  split.
  { intros Hempty. pose proof (initialPlan_fallback _ Hempty) as Ef.
    split; [exact Ef|]. rewrite Ef in Ep. injection Ep as <- <-. eauto. }
  split; [lia|].
  destruct (final_answer_cases (finalAnswer st') ((p, out) :: more))
    as [(Hfa & a & Ha & Hne)|(Hfa & Hn & Hu)]; cbv zeta in *.
  - left. rewrite Hfa. split; [reflexivity|]. eauto.
  - right. rewrite Hfa. split; [reflexivity|]. split; [exact Hn|exact Hu].
Qed.

End ProsePlans.

(* ================================================================== *)
(** * The theorems above at concrete inputs                             *)
(* ================================================================== *)

Section MoreRuns.
Import Eff.
Import Spec.
Import Scenario.

Lemma parseReActAction_shape_witness :
  Parser.actionName {| Parser.actionName := "calculate"; Parser.actionInput := "2 * 3 + 4" |}
  <> ""
  /\ forallb Js.isWordChar (Js.chars "calculate") = true
  /\ forallb (fun c => negb (Js.isLineTerminator c)) (Js.chars "2 * 3 + 4") = true
  /\ Js.trim "2 * 3 + 4" = "2 * 3 + 4".
Proof.
  apply (parseReActAction_shape
           actionReply
           {| Parser.actionName := "calculate"; Parser.actionInput := "2 * 3 + 4" |}).
  vm_compute. reflexivity.
Defined.

Lemma parseReWOOPlan_steps_witness :
  (exists ds, ds <> [] /\ forallb Js.isDigit ds = true /\ "#E1" = "#E" ++ Js.str ds)
  /\ "calculate" <> "" /\ forallb Js.isWordChar (Js.chars "calculate") = true
  /\ "2 * 3 + 4" <> "" /\ ~ In "]"%char (Js.chars "2 * 3 + 4").
Proof.
  apply (parseReWOOPlan_steps
           rewooPlan
           {| Parser.description := "Compute the product and the sum.";
              Parser.variable := "#E1"; Parser.tool := "calculate";
              Parser.toolInput := "2 * 3 + 4" |}).
  vm_compute. left. reflexivity.
Defined.

Lemma parsePlanSteps_numbered_witness :
  Parser.parsePlanSteps (PlanExecute.numbered ["Search for X"; "Compute Y from it"])
  = ["Search for X"; "Compute Y from it"].
Proof.
  apply (parsePlanSteps_numbered ["Search for X"; "Compute Y from it"]).
  repeat constructor; try discriminate; vm_compute; reflexivity.
Defined.

Lemma extractAnswer_result_witness :
  "Paris" <> "" /\ Js.trim "Paris" = "Paris"
  /\ incl (Js.chars "Paris") (Js.chars "Paris is the capital. The answer is Paris.").
Proof.
  apply (extractAnswer_result "Paris is the capital. The answer is Paris." "Paris").
  vm_compute. reflexivity.
Defined.



Lemma callLLM_not_retried_witness :
  Llm.callLLM [] (llmOptions None) hollow s0
  = (Throw (Error "No completion returned from API"),
     {| now := (now s0 + 5)%Z; fetches := S (fetches s0);
        log := (log s0 ++ [Requested (fetches s0) "/api/chat"])%list |}).
Proof.
  apply (callLLM_not_retried
           hollow s0 [] (llmOptions None) 5
           (Responds {| ok := true; status := 200;
                        payload := Parsed {| choice0 := None; data_usage := None |} |})).
  - reflexivity.
  - reflexivity.
  - right. eexists. split; [reflexivity|]. split; [reflexivity|]. split; reflexivity.
Defined.

Lemma wikipedia_after_search_witness :
  exists r s',
    Tools.wikipedia "Paris" summarized s0 = (Ok r, s')
    /\ r = "Summary of " ++ Tools.dq ++ "Paris" ++ Tools.dq ++ ":" ++ Tools.nl
             ++ parisExtract ++ Tools.nl ++ Tools.nl ++ "---" ++ Tools.nl
             ++ "Search snippets:" ++ Tools.nl ++ "Paris is the capital of France."
    /\ fetches s' = 2.
Proof.
  destruct (wikipedia_after_search summarized s0 "Paris" 3 true 200 [hit] eq_refl)
    as (r & s' & Hr & Hf & Hs & _).
  - intros top rest [= <- <-]. discriminate.
  - exists r, s'. split; [exact Hr|].
    split; [rewrite Hs; vm_compute; reflexivity|exact Hf].
Defined.

(** The Wikipedia tool when the summary cannot be fetched. *)
Lemma wikipedia_summary_rejected_example :
  Tools.wikipedia "Paris" encyclopedic s0
  = (Ok "Paris is the capital of France.",
     {| now := 4; fetches := 2;
        log := [Requested 0 "wikipedia search"; Requested 1 "wikipedia summary";
                Warned "Wikipedia summary fetch failed: Failed to fetch"] |}).
Proof. vm_compute. reflexivity. Qed.

Lemma runReAct_unformatted_witness :
  exists r s',
    ReAct.runReAct "Why is the sky blue?" (reactOptions 2) musing s0 = (Ok r, s')
    /\ ReAct.truncated r = true
    /\ ReAct.turns r = ReAct.maxTurns (reactOptions 2)
    /\ length (ReAct.trajectory r) = ReAct.maxTurns (reactOptions 2)
    /\ Forall (fun e => ReAct.role e = "assistant") (ReAct.trajectory r)
    /\ ReAct.answer r = None.
Proof.
  apply (runReAct_unformatted musing "Why is the sky blue?" (reactOptions 2) s0).
  intros messages s. do 2 eexists.
  split; [apply callLLM_first_reply; reflexivity|].
  split; vm_compute; reflexivity.
Defined.


Lemma runCoT_result_witness :
  exists r s',
    CoT.runCoT "What is the capital of France?" (cotOptions 3) agreeing s0 = (Ok r, s')
    /\ length (CoT.paths r) = 3
    /\ length (CoT.answers r) = 3
    /\ CoT.answer r = CoT.finalAnswer r
    /\ 3 <= CoT.llmCalls r <= 3 + 2.
Proof.
  do 2 eexists. split; [vm_compute; reflexivity|].
  assert (H := runCoT_result agreeing "What is the capital of France?" (cotOptions 3) s0).
  specialize (H _ _ ltac:(vm_compute; reflexivity)).
  destruct H as (H1 & H2 & H3 & H4 & _). auto.
Defined.



Lemma readMapping_entries_witness :
  In "paris, france" ["paris"; "paris, france"]
  /\ Js.trim "paris" = "paris" /\ Js.toLowerCase "paris" = "paris".
Proof.
  apply (readMapping_entries ["paris"; "paris, france"]
                             ("1 -> Paris" ++ Tools.nl ++ "2 ->  Paris ")
                             "paris, france" "paris").
  vm_compute. right. left. reflexivity.
Defined.

Lemma substitute_unmentioned_witness :
  ReWOO.substitute [("#E1", "10")] "2 * 3 + 4" = "2 * 3 + 4".
Proof.
  apply (substitute_unmentioned [("#E1", "10")] "2 * 3 + 4").
  repeat constructor.
Defined.

Lemma sumUsage_additive_witness :
  TokenCounter.sumUsage
    ([{| prompt_tokens := 120; completion_tokens := 30; total_tokens := 150 |}]
       ++ [{| prompt_tokens := 80; completion_tokens := 0; total_tokens := 80 |};
           Llm.zeroUsage])
  = {| prompt_tokens := 200; completion_tokens := 30; total_tokens := 230 |}
  /\ inRange (TokenCounter.sumUsage
                [{| prompt_tokens := 120; completion_tokens := 30; total_tokens := 150 |};
                 {| prompt_tokens := 80; completion_tokens := 0; total_tokens := 80 |}]).
Proof.
  destruct (sumUsage_additive
              [{| prompt_tokens := 120; completion_tokens := 30; total_tokens := 150 |}]
              [{| prompt_tokens := 80; completion_tokens := 0; total_tokens := 80 |};
               Llm.zeroUsage]) as (Hrange & Hsum & _).
  - split; [repeat constructor; cbn; lia|]. vm_compute. repeat split; discriminate.
  - split; [rewrite Hsum; reflexivity|].
    apply (Hrange _ _ [Llm.zeroUsage] (Permutation_refl _)). reflexivity.
Defined.

Lemma runCoT_unanimous_witness :
  exists r s',
    CoT.runCoT "Capital of France?" (cotOptions 3) agreeing s0 = (Ok r, s')
    /\ CoT.questionType r = "factual"
    /\ Forall (PathAgrees "paris") (CoT.paths r)
    /\ length (CoT.paths r) = 3
    /\ (exists c, CoT.confidence r = Some c /\ (c == 1)%Q)
    /\ exists d, CoT.finalAnswer r = Some d
                 /\ MostFrequent d (map CoT.lowered (CoT.validOnly (CoT.answers r))).
Proof.
  destruct (runCoT_unanimous agreeing "Capital of France?" (cotOptions 3) "paris" s0)
    as [_ Hrun].
  - cbn. lia.
  - discriminate.
  - reflexivity.
  - apply Hrun.
    + intros t. reflexivity.
    + intros n. do 5 eexists. split; [reflexivity|].
      split; [reflexivity|]. split; [reflexivity|]. cbn [msgContent].
      destruct (n =? 0); [exists "Paris"|exists "paris"]; split; vm_compute; reflexivity.
    + intros s c s'. unfold Classifier.classifyQuestionSmart.
      replace (Classifier.classifyQuestionHeuristic "Capital of France?")
        with (@None Classifier.QuestionType) by (vm_compute; reflexivity).
      cbn [CoT.apiKey CoT.model CoT.signal cotOptions].
      change (Js.truthy "sk-demo") with true. cbv iota.
      unfold bind at 1, caught, Classifier.classifyQuestionWithLLM.
      match goal with
      | |- context [Llm.callLLM ?m ?op] =>
          rewrite (bind_ok _ _ _ _ _ _
                     (callLLM_first_reply agreeing s m op _ 5 eq_refl eq_refl))
      end.
      unfold ret. intros [= <- _]. cbn [Classifier.type Llm.content fetches].
      destruct (fetches s =? 0); vm_compute; reflexivity.
Defined.

(** C3 as stated fails: two paths whose answers "!" and "?" both normalize
    to the empty string are kept apart, and the confidence is 1/2. *)
Lemma runCoT_empty_normal_form_counterexample :
  Unanimous marks (cotOptions 2) "What is the mark?" ""
  /\ ClassifiedFactual marks "What is the mark?" (cotOptions 2)
  /\ exists r s',
      CoT.runCoT "What is the mark?" (cotOptions 2) marks s0 = (Ok r, s')
      /\ CoT.questionType r = "factual"
      /\ Forall (PathAgrees "") (CoT.paths r)
      /\ CoT.answers r = [Some "!"; Some "?"]
      /\ CoT.basicNormalize "!" = CoT.basicNormalize "?"
      /\ CoT.confidence r = Some (1 # 2)%Q
      /\ ~ (1 # 2 == 1)%Q.
Proof.
  split; [|split].
  - intros n. do 5 eexists. split; [reflexivity|].
    split; [reflexivity|]. split; [reflexivity|]. cbn [msgContent].
    destruct (n =? 0); [exists "!"|exists "?"]; split; vm_compute; reflexivity.
  - intros s c s'. unfold Classifier.classifyQuestionSmart.
    replace (Classifier.classifyQuestionHeuristic "What is the mark?")
      with (Some Classifier.Factual) by (vm_compute; reflexivity).
    unfold ret. intros [= <- _]. reflexivity.
  - do 2 eexists. split; [vm_compute; reflexivity|].
    cbn [CoT.answers CoT.confidence CoT.questionType CoT.paths].
    split; [reflexivity|]. split.
    + repeat constructor; [exists "!"|exists "?"]; split; vm_compute; reflexivity.
    + repeat split; try (vm_compute; reflexivity).
      intros H. vm_compute in H. discriminate.
Qed.

Lemma runPlanExecute_single_step_plan_witness :
  exists pr s1 r s',
    Llm.callLLM [{| role := "system"; content := PlanExecute.PLANNER_SYSTEM |};
                 {| role := "user"; content := "Why is the sky blue?" |}]
                (planExecLlm planOptions) musing s0
    = (Ok pr, s1)
    /\ PlanExecute.runPlanExecute "Why is the sky blue?" planOptions musing s0 = (Ok r, s')
    /\ PlanExecute.planText r = Llm.content pr
    /\ (exists step tail out rest,
          PlanExecute.initialPlan (Llm.content pr) = step :: tail
          /\ PlanExecute.resultPastSteps r = (step, out) :: rest
          /\ out <> None)
    /\ (Parser.parsePlanSteps (Llm.content pr) = [] ->
        PlanExecute.initialPlan (Llm.content pr) = [Js.trim (Llm.content pr)]
        /\ exists out rest,
            PlanExecute.resultPastSteps r = (Js.trim (Llm.content pr), out) :: rest)
    /\ 3 <= PlanExecute.resultLlmCalls r
    /\ ((PlanExecute.error r = None
         /\ exists a, PlanExecute.answer r = Some a /\ a <> "")
        \/ (PlanExecute.error r
            = Some "Plan-Execute did not produce a final answer within the allowed steps."
            /\ (PlanExecute.answer r = None \/ PlanExecute.answer r = Some "")
            /\ Forall (fun p => PlanExecute.usable (snd p) = false)
                      (PlanExecute.resultPastSteps r))).
Proof.
  apply (runPlanExecute_single_step_plan musing "Why is the sky blue?" planOptions s0).
  intros messages s. do 2 eexists.
  split; [apply callLLM_first_reply; reflexivity|].
  intros a Ha. vm_compute in Ha. discriminate.
Defined.

(** C10 as stated fails: a plan that uses a variable for two steps has two
    executed steps and leaves one evidence entry, that of the second. *)
Lemma runReWOO_repeated_variable_counterexample :
  exists r s',
    ReWOO.runReWOO "What is 2 * 3 + 4?" rewooOptions repeating s0 = (Ok r, s')
    /\ map Parser.variable (ReWOO.steps r) = ["#E1"; "#E1"]
    /\ filter (fun e => match e with
                        | Progress phase _ => String.eqb phase "evidence"
                        | _ => false
                        end) (log s')
       = [Progress "evidence" ["#E1"; "2 * 3 + 4"; "10"; "false"];
          Progress "evidence" ["#E1"; "2 +"; "Calculation error: Unexpected token ')'";
                               "false"]]
    /\ ReWOO.evidence r = [("#E1", "Calculation error: Unexpected token ')'")]
    /\ length (ReWOO.evidence r) <> length (ReWOO.steps r).
Proof.
  do 2 eexists. split; [vm_compute; reflexivity|].
  cbn [ReWOO.steps ReWOO.evidence log]. repeat split; try reflexivity. discriminate.
Qed.

End MoreRuns.
